(** * A shallow embedding of the in-memory SQL evaluator

    The development follows the three Python modules of the evaluator:
    [table.py] (typed in-memory tables), [table_filter.py] (row predicates
    built from WHERE conditions) and [sql_evaluator.py] (column resolution,
    WHERE classification, join, filter and projection).

    Python dictionaries used as maps are [gmap]s, Python sets are [gset]s,
    exceptions are an explicit error type threaded through a small monad, and
    the generator [execute] is the list of the values it yields together with
    the way the generator ends. *)

From Stdlib Require Import ZArith String Ascii Decimal DecimalString DecimalZ DecimalFacts.
From stdpp Require Import gmap strings list fin_maps.

Local Open Scope string_scope.
Local Open Scope list_scope.

(** ** Data model *)

(** What [json.load] gives for a literal of the query or a field of a table
    file: an [int], a [str], a [bool], or a value of another kind ([None], a
    [float], a [list] or a [dict]). The program only formats a value of
    another kind or passes it to [str], so it is kept as the text that [str]
    and ["{}".format] give for it ([None], [1.5], [[1, 2]]). A [str] is the
    sequence of its characters, compared character by character. *)
Inductive value :=
  | VInt (z : Z)
  | VStr (s : string)
  | VBool (b : bool)
  | VOther (text : string).

#[global] Instance value_eq_dec : EqDecision value.
Proof. solve_decision. Defined.

(** [{"table": ..., "name": ...}]: the qualifier is [None] (JSON null) until
    it is resolved. *)
Record ColumnRef := mkColumnRef {
  col_table : option string;
  col_name : string
}.

(** One side of a condition: [{"column": ...}] or [{"literal": ...}]. *)
Inductive Expression :=
  | Column (c : ColumnRef)
  | Literal (v : value).

(** [{"left": ..., "right": ..., "op": ...}]; the operator is the text found
    in the query document. *)
Record Condition := mkCondition {
  cond_left : Expression;
  cond_right : Expression;
  cond_op : string
}.

(** [{"column": ..., "as": ...}] *)
Record SelectItem := mkSelectItem {
  sel_column : ColumnRef;
  sel_as : string
}.

(** [{"source": ..., "as": ...}] *)
Record FromItem := mkFromItem {
  from_source : string;
  from_as : string
}.

Record Query := mkQuery {
  q_select : list SelectItem;
  q_from : list FromItem;
  q_where : list Condition
}.

#[global] Instance ColumnRef_eq_dec : EqDecision ColumnRef.
Proof. solve_decision. Defined.
#[global] Instance Expression_eq_dec : EqDecision Expression.
Proof. solve_decision. Defined.
#[global] Instance Condition_eq_dec : EqDecision Condition.
Proof. solve_decision. Defined.
#[global] Instance SelectItem_eq_dec : EqDecision SelectItem.
Proof. solve_decision. Defined.

(** A row is a dictionary from the qualified name ["alias.column"] to a cell. *)
Abbreviation Row := (gmap string value).

(** [class Table(list)]: the list content is [rows]; [name] is the alias,
    [headers] maps a column name to its declared type. *)
Record Table := mkTable {
  name : string;
  headers : gmap string string;
  rows : list Row
}.

#[global] Instance Table_eq_dec : EqDecision Table.
Proof. solve_decision. Defined.

(** ** Exceptions *)

(** Exceptions raised by the interpreter itself rather than by a [raise]
    statement of the program. *)
Inductive builtin :=
  | IndexError (sequence : string)       (* "<sequence> index out of range" *)
  | NameError (variable : string)        (* "name '<variable>' is not defined" *)
  | UnboundLocalError (variable : string)
  | KeyError (key : string)
  | StopIteration
  | TypeError (operation : string).

(** The text handed to [Exception(...)], kept as the format template together
    with its arguments. *)
Inductive message :=
  | AmbiguousMsg (fieldname : string) (tables : list string)
      (* 'Column "{fieldname}" is ambiguous, because it is in multiple tables: {tables}' *)
  | NotInFromMsg (table : string)
      (* 'Table "{table}" referenced, but not in FROM clause' *)
  | TypeMismatchMsg (types : gset string)
      (* 'LHS and RHS types do not match {}', formatted from a set *)
  | SelectClauseMsg (detail : message)
      (* "Error in SELECT clause: {}" *)
  | WhereClauseMsg (detail : message)
      (* "Error in WHERE clause: {}" *)
  | InterpreterMsg (b : builtin).
      (* the first argument of an interpreter exception, as text *)

Inductive exn :=
  | Exception (m : message)
  | Builtin (b : builtin).

#[global] Instance builtin_eq_dec : EqDecision builtin.
Proof. solve_decision. Defined.
#[global] Instance message_eq_dec : EqDecision message.
Proof. solve_decision. Defined.
#[global] Instance exn_eq_dec : EqDecision exn.
Proof. solve_decision. Defined.

(** [e.args[0]]: [StopIteration()] carries no argument, so indexing its
    argument tuple fails. *)
Definition args0 (e : exn) : option message :=
  match e with
  | Exception m => Some m
  | Builtin StopIteration => None
  | Builtin b => Some (InterpreterMsg b)
  end.

(** The outcome of running a piece of the program. [Unmodelled] marks the
    evaluation of a text that lies outside the fragment of Python expressions
    interpreted by [eval] below; nothing is claimed about such runs. *)
Inductive result (A : Type) :=
  | Ok (a : A)
  | Raise (e : exn)
  | Unmodelled.

Arguments Ok {A} a.
Arguments Raise {A} e.
Arguments Unmodelled {A}.

#[global] Instance result_ret : MRet result := λ A a, Ok a.
#[global] Instance result_bind : MBind result := λ A B f m,
  match m with
  | Ok a => f a
  | Raise e => Raise e
  | Unmodelled => Unmodelled
  end.

#[global] Instance result_eq_dec {A} `{EqDecision A} : EqDecision (result A).
Proof. solve_decision. Defined.

(** Python truth value of an optional string: [None] and [""] are false. *)
Definition truthy (o : option string) : bool :=
  match o with
  | None => false
  | Some s => negb (String.eqb s "")
  end.

(** ** sql_evaluator.py: column resolution *)

Definition has_field (field_name : string) (t : Table) : Prop :=
  is_Some (headers t !! field_name).

#[global] Instance has_field_dec f t : Decision (has_field f t).
Proof. unfold has_field. apply _. Defined.

Definition get_table_for_field (field_name : string) (tables : list Table)
  : result Table :=
  let tables_with_field := filter (has_field field_name) tables in
  if bool_decide (1 < length tables_with_field) then
    Raise (Exception (AmbiguousMsg field_name (name <$> tables_with_field)))
  else
    match tables_with_field with
    | t :: _ => Ok t
    | [] => Raise (Builtin (IndexError "list"))
    end.

(** One iteration of the loop of [validate_and_coalesce_select]: the select
    item as the loop leaves it, and the header entry it appends, if any. *)
Definition select_item (from_ : list FromItem) (tables : list Table)
    (field : SelectItem) : result (SelectItem * option (string * string)) :=
  let col := sel_column field in
  table_field ←
    (if truthy (col_table col) then Ok (col_table col)
     else t ← get_table_for_field (col_name col) tables; Ok (Some (name t)));
  let field' := mkSelectItem (mkColumnRef table_field (col_name col)) (sel_as field) in
  if truthy table_field then
    let table_name := default "" table_field in
    if bool_decide (table_name ∈ from_as <$> from_) then
      match filter (λ t, name t = table_name) tables with
      | [] => Raise (Builtin StopIteration)
      | table :: _ =>
        match headers table !! col_name col with
        | None => Raise (Builtin (NameError "source_table_name"))
        | Some ty => Ok (field', Some (sel_as field, ty))
        end
      end
    else Raise (Exception (NotInFromMsg table_name))
  else Ok (field', None).

Fixpoint select_loop (from_ : list FromItem) (tables : list Table)
    (fields : list SelectItem) : result (list (string * string) * list SelectItem) :=
  match fields with
  | [] => Ok ([], [])
  | field :: rest =>
    '(field', entry) ← select_item from_ tables field;
    '(query_headers, rest') ← select_loop from_ tables rest;
    Ok (option_list entry ++ query_headers, field' :: rest')
  end.

(** Returns [query_headers] and the select list as annotated in place. *)
Definition validate_and_coalesce_select (query : Query) (tables : list Table)
  : result (list (string * string) * list SelectItem) :=
  select_loop (q_from query) tables (q_select query).

(** ** sql_evaluator.py: classification of the WHERE clause *)

(** The label given to a literal: ["int"] when [isinstance(literal, int)],
    which holds of an [int] and of a [bool]; ["str"] otherwise. *)
Definition literal_type (v : value) : string :=
  match v with
  | VInt _ | VBool _ => "int"
  | VStr _ | VOther _ => "str"
  end.

(** The variables of [parse_where_clause] that one side of a condition reads
    and writes: [condition_types], [tables_involved] and the local [table],
    which keeps its last value from one side, and one condition, to the next;
    it is unbound ([None]) until a column has been resolved. *)
Record side_state := mkSideState {
  condition_types : gset string;
  tables_involved : gset string;
  table_var : option Table
}.

(** The body of [for side in ('left', 'right')]: the state after the side,
    and the expression as annotated in place. *)
Definition where_side (tables : list Table) (st : side_state)
    (expression : Expression) : result (side_state * Expression) :=
  match expression with
  | Column col =>
    let field_name := col_name col in
    '(table, col') ←
      (if truthy (col_table col) then
         match filter (λ t, Some (name t) = col_table col) tables with
         | t :: _ => Ok (t, col)
         | [] => Raise (Builtin (IndexError "list"))
         end
       else
         t ← get_table_for_field field_name tables;
         Ok (t, mkColumnRef (Some (name t)) field_name));
    match headers table !! field_name with
    | None => Raise (Builtin (KeyError field_name))
    | Some ty =>
      Ok (mkSideState (condition_types st ∪ {[ty]})
                      (tables_involved st ∪ {[name table]})
                      (Some table),
          Column col')
    end
  | Literal v =>
    Ok (mkSideState (condition_types st ∪ {[literal_type v]})
                    (tables_involved st)
                    (table_var st),
        expression)
  end.

(** What the loop over the conditions carries along. *)
Record where_state := mkWhereState {
  ws_table : option Table;
  early_clauses : gmap string (list Condition);
  late_clauses : list Condition
}.

(** Both sides of one condition: the two sets, the local [table] and the
    condition as annotated in place. *)
Definition where_sides (tables : list Table) (table0 : option Table)
    (condition : Condition) : result (side_state * Condition) :=
  '(st1, l) ← where_side tables (mkSideState ∅ ∅ table0) (cond_left condition);
  '(st2, r) ← where_side tables st1 (cond_right condition);
  Ok (st2, mkCondition l r (cond_op condition)).

(** The body of [for condition in query['where']]. *)
Definition where_condition (tables : list Table) (ws : where_state)
    (condition : Condition) : result where_state :=
  '(st, condition') ← where_sides tables (ws_table ws) condition;
  if bool_decide (1 < size (condition_types st)) then
    Raise (Exception (TypeMismatchMsg (condition_types st)))
  else if bool_decide (1 < size (tables_involved st)) then
    Ok (mkWhereState (table_var st) (early_clauses ws)
                     (late_clauses ws ++ [condition']))
  else
    match table_var st with
    | None => Raise (Builtin (UnboundLocalError "table"))
    | Some table =>
      Ok (mkWhereState (table_var st)
            (<[name table := early_clauses ws !!! name table ++ [condition']]>
               (early_clauses ws))
            (late_clauses ws))
    end.

Fixpoint where_loop (tables : list Table) (ws : where_state)
    (conditions : list Condition) : result where_state :=
  match conditions with
  | [] => Ok ws
  | condition :: rest =>
    ws' ← where_condition tables ws condition;
    where_loop tables ws' rest
  end.

(** Before the loop: [table] is unbound, no bucket exists, [late_clauses = []]. *)
Definition where_start : where_state := mkWhereState None ∅ [].

Definition parse_where_clause (query : Query) (tables : list Table)
  : result (gmap string (list Condition) * list Condition) :=
  ws ← where_loop tables where_start (q_where query);
  Ok (early_clauses ws, late_clauses ws).

(** ** table_filter.py: the text of a condition *)

Definition double_quote : ascii := "034"%char.
Definition backslash : ascii := "092"%char.

(** [OP_MAPPINGS.get(op, op)] *)
Definition OP_MAPPINGS (op : string) : string :=
  if String.eqb op "=" then "==" else op.

(** ["{}".format(z)] for an [int]: decimal digits, with a sign when negative. *)
Definition format_int (z : Z) : string :=
  NilEmpty.string_of_int (Z.to_int z).

(** ["{}".format(x)] for a string or [None]. *)
Definition format_optional (o : option string) : string :=
  match o with
  | Some s => s
  | None => "None"
  end.

(** [TableFilter.expression] *)
Definition expression (e : Expression) : string :=
  match e with
  | Literal (VStr s) => "'" +:+ s +:+ "'"
  | Literal (VInt z) => format_int z
  | Literal (VBool b) => if b then "True" else "False"
  | Literal (VOther text) => text
  | Column col =>
    "row[" +:+ String double_quote
      (format_optional (col_table col) +:+ "." +:+ col_name col
       +:+ String double_quote "]")
  end.

Definition condition_text (condition : Condition) : string :=
  expression (cond_left condition) +:+ " "
    +:+ OP_MAPPINGS (cond_op condition) +:+ " "
    +:+ expression (cond_right condition).

(** [TableFilter.__init__]: the object state is the list of texts. *)
Definition TableFilter (conditions : list Condition) : list string :=
  condition_text <$> conditions.

(** ** The fragment of Python expressions given a meaning

    [eval] receives a text. The fragment interpreted here is
    [sum cmp sum] where [cmp] is one of [== != < <= > >=], a [sum] is one or
    more atoms joined by [+], and an atom is [row["key"]], a quoted string
    without escapes, or a decimal integer with an optional sign. Every other
    text is [Unmodelled]. *)

Inductive compare_op := CmpEq | CmpNe | CmpLt | CmpLe | CmpGt | CmpGe.

Inductive token :=
  | TName (s : string)
  | TString (s : string)
  | TNumber (z : Z)
  | TLBracket
  | TRBracket
  | TPlus
  | TMinus
  | TCompare (c : compare_op).

#[global] Instance compare_op_eq_dec : EqDecision compare_op.
Proof. solve_decision. Defined.
#[global] Instance token_eq_dec : EqDecision token.
Proof. solve_decision. Defined.

Definition char_between (lo hi : nat) (c : ascii) : bool :=
  (lo <=? nat_of_ascii c)%nat && (nat_of_ascii c <=? hi)%nat.

Definition is_digit (c : ascii) : bool := char_between 48 57 c.

Definition is_name_start (c : ascii) : bool :=
  char_between 65 90 c || char_between 97 122 c || Ascii.eqb c "_".

Definition is_name_char (c : ascii) : bool :=
  is_name_start c || is_digit c.

(** Characters that can occur in a Python operator or delimiter run. *)
Definition is_operator_char (c : ascii) : bool :=
  existsb (Ascii.eqb c) (list_ascii_of_string "+-*/%@<>&|^~:=!.").

(** A character that stands for itself inside a short string literal: any
    character but the backslash, which starts an escape, the line feed and
    the carriage return, which end the line, and the null character (the
    closing quote is tested first). *)
Definition plain_char (c : ascii) : bool :=
  negb (Ascii.eqb c backslash) && negb (Ascii.eqb c "010")
  && negb (Ascii.eqb c "013") && negb (Ascii.eqb c "000").

(** The body of a string literal up to the closing [quote], and what follows. *)
Fixpoint scan_string (quote : ascii) (s : string) : option (string * string) :=
  match s with
  | EmptyString => None
  | String c rest =>
    if Ascii.eqb c quote then Some (EmptyString, rest)
    else if plain_char c then
      '(body, rest') ← scan_string quote rest; Some (String c body, rest')
    else None
  end.

(** The longest prefix whose characters satisfy [p], and the remainder. *)
Fixpoint span (p : ascii → bool) (s : string) : string * string :=
  match s with
  | EmptyString => (EmptyString, EmptyString)
  | String c rest =>
    if p c then let '(a, b) := span p rest in (String c a, b)
    else (EmptyString, s)
  end.

#[global] Instance uint_eq_decision : EqDecision uint := uint_eq_dec.

(** A digit run denotes a number when it is in normal form (no leading zero)
    and is not continued by a letter, an underscore or a dot. *)
Definition number_of_digits (digits : string) : option Z :=
  d ← NilEmpty.uint_of_string digits;
  if decide (unorm d = d) then Some (Z.of_uint d) else None.

Definition ends_number (rest : string) : bool :=
  match rest with
  | EmptyString => true
  | String c _ => negb (is_name_char c || Ascii.eqb c ".")
  end.

Definition operator_token (o : string) : option token :=
  if String.eqb o "==" then Some (TCompare CmpEq)
  else if String.eqb o "!=" then Some (TCompare CmpNe)
  else if String.eqb o "<" then Some (TCompare CmpLt)
  else if String.eqb o "<=" then Some (TCompare CmpLe)
  else if String.eqb o ">" then Some (TCompare CmpGt)
  else if String.eqb o ">=" then Some (TCompare CmpGe)
  else if String.eqb o "+" then Some TPlus
  else if String.eqb o "-" then Some TMinus
  else None.

(** One token starting at character [c], then the tokens of what follows it,
    obtained from [continue]. *)
Definition lex_step (continue : string → option (list token))
    (c : ascii) (rest : string) : option (list token) :=
  if Ascii.eqb c " " then continue rest
  else if Ascii.eqb c "'" || Ascii.eqb c double_quote then
    '(body, rest') ← scan_string c rest;
    ts ← continue rest'; Some (TString body :: ts)
  else if Ascii.eqb c "[" then ts ← continue rest; Some (TLBracket :: ts)
  else if Ascii.eqb c "]" then ts ← continue rest; Some (TRBracket :: ts)
  else if is_digit c then
    let '(more, rest') := span is_digit rest in
    if ends_number rest' then
      z ← number_of_digits (String c more);
      ts ← continue rest'; Some (TNumber z :: ts)
    else None
  else if is_name_start c then
    let '(more, rest') := span is_name_char rest in
    ts ← continue rest'; Some (TName (String c more) :: ts)
  else if is_operator_char c then
    let '(more, rest') := span is_operator_char rest in
    t ← operator_token (String c more);
    ts ← continue rest'; Some (t :: ts)
  else None.

Fixpoint lex (fuel : nat) (s : string) : option (list token) :=
  match fuel with
  | O => None
  | S fuel =>
    match s with
    | EmptyString => Some []
    | String c rest => lex_step (lex fuel) c rest
    end
  end.

Definition tokenize (s : string) : option (list token) :=
  lex (S (String.length s)) s.

Inductive atom :=
  | ARow (key : string)
  | AString (s : string)
  | ANumber (z : Z).

Definition parse_atom (ts : list token) : option atom :=
  match ts with
  | [TName id; TLBracket; TString key; TRBracket] =>
    if String.eqb id "row" then Some (ARow key) else None
  | [TString s] => Some (AString s)
  | [TNumber z] => Some (ANumber z)
  | [TMinus; TNumber z] => Some (ANumber (- z))
  | _ => None
  end.

(** The token groups between [+] signs. *)
Fixpoint split_plus (ts : list token) : list (list token) :=
  match ts with
  | [] => [[]]
  | TPlus :: rest => [] :: split_plus rest
  | t :: rest =>
    match split_plus rest with
    | g :: gs => (t :: g) :: gs
    | [] => [[t]]
    end
  end.

Definition parse_sum (ts : list token) : option (list atom) :=
  mapM parse_atom (split_plus ts).

Definition is_compare (t : token) : bool :=
  match t with TCompare _ => true | _ => false end.

(** The operands on both sides of the only comparison operator. *)
Fixpoint split_compare (ts : list token)
  : option (list token * compare_op * list token) :=
  match ts with
  | [] => None
  | TCompare c :: rest =>
    if existsb is_compare rest then None else Some ([], c, rest)
  | t :: rest =>
    '(l, c, r) ← split_compare rest; Some (t :: l, c, r)
  end.

Definition parse_comparison (ts : list token)
  : option (list atom * compare_op * list atom) :=
  '(l, c, r) ← split_compare ts;
  l' ← parse_sum l;
  r' ← parse_sum r;
  Some (l', c, r').

Definition eval_atom (row : Row) (a : atom) : result value :=
  match a with
  | ARow key =>
    match row !! key with
    | Some v => Ok v
    | None => Raise (Builtin (KeyError key))
    end
  | AString s => Ok (VStr s)
  | ANumber z => Ok (VInt z)
  end.

(** The value is an [int] that is no [bool], or a [str]: the two kinds of
    cell that [DATA_TYPES] produces, and the only kinds whose sums and
    comparisons are given a meaning here. *)
Definition int_or_str (v : value) : bool :=
  match v with
  | VInt _ | VStr _ => true
  | VBool _ | VOther _ => false
  end.

Definition py_add (v w : value) : result value :=
  if int_or_str v && int_or_str w then
    match v, w with
    | VInt a, VInt b => Ok (VInt (a + b))
    | VStr a, VStr b => Ok (VStr (a +:+ b))
    | _, _ => Raise (Builtin (TypeError "+"))
    end
  else Unmodelled.

Fixpoint eval_more (row : Row) (acc : value) (atoms : list atom) : result value :=
  match atoms with
  | [] => Ok acc
  | a :: rest =>
    w ← eval_atom row a;
    acc' ← py_add acc w;
    eval_more row acc' rest
  end.

Definition eval_sum (row : Row) (atoms : list atom) : result value :=
  match atoms with
  | [] => Unmodelled
  | a :: rest => v ← eval_atom row a; eval_more row v rest
  end.

(** Comparison of two values that are each an [int] or a [str]: [==] and
    [!=] are defined between any two of them; the orderings only between two
    [int]s (numeric) or two [str]s (lexicographic). *)
Definition py_compare (c : compare_op) (v w : value) : result bool :=
  if int_or_str v && int_or_str w then
    match c, v, w with
    | CmpEq, _, _ => Ok (bool_decide (v = w))
    | CmpNe, _, _ => Ok (negb (bool_decide (v = w)))
    | CmpLt, VInt a, VInt b => Ok (a <? b)%Z
    | CmpLe, VInt a, VInt b => Ok (a <=? b)%Z
    | CmpGt, VInt a, VInt b => Ok (b <? a)%Z
    | CmpGe, VInt a, VInt b => Ok (b <=? a)%Z
    | CmpLt, VStr a, VStr b => Ok (String.ltb a b)
    | CmpLe, VStr a, VStr b => Ok (String.leb a b)
    | CmpGt, VStr a, VStr b => Ok (String.ltb b a)
    | CmpGe, VStr a, VStr b => Ok (String.leb b a)
    | CmpLt, _, _ => Raise (Builtin (TypeError "<"))
    | CmpLe, _, _ => Raise (Builtin (TypeError "<="))
    | CmpGt, _, _ => Raise (Builtin (TypeError ">"))
    | CmpGe, _, _ => Raise (Builtin (TypeError ">="))
    end
  else Unmodelled.

(** [eval(condition)] inside [__call__], where the local [row] is bound. *)
Definition eval (text : string) (row : Row) : result bool :=
  match tokenize text ≫= parse_comparison with
  | None => Unmodelled
  | Some (l, c, r) =>
    v ← eval_sum row l;
    w ← eval_sum row r;
    py_compare c v w
  end.

(** [TableFilter.__call__] *)
Fixpoint TableFilter_call (conditions : list string) (row : Row) : result bool :=
  match conditions with
  | [] => Ok true
  | condition :: rest =>
    eval condition row ≫= λ b : bool,
      if b then TableFilter_call rest row else Ok false
  end.

(** ** table.py and sql_evaluator.py: join, filter and projection *)

(** [Table.filter(conditions)], consumed to the end: the rows kept, in
    order, or the first failure of the predicate. *)
Fixpoint filter_rows (conditions : list string) (rs : list Row) : result (list Row) :=
  match rs with
  | [] => Ok []
  | row :: rest =>
    eval_row ← TableFilter_call conditions row;
    kept ← filter_rows conditions rest;
    Ok (if eval_row : bool then row :: kept else kept)
  end.

(** [itertools.product] applied to the pools, as the library documents it:
    [result = [[]]], then for each pool
    [result = [x + [y] for x in result for y in pool]]. *)
Definition product {A} (pools : list (list A)) : list (list A) :=
  foldl (λ result pool, x ← result; (λ y, x ++ [y]) <$> pool) [[]] pools.

(** [joined_row = {}] followed by [joined_row.update(t)] for each [t]. *)
Definition joined_row (row : list Row) : Row :=
  foldl (λ joined t, t ∪ joined) ∅ row.

(** ['.'.join([table, name])]; joining [None] is a type error. *)
Definition field_key (col : ColumnRef) : result string :=
  match col_table col with
  | Some t => Ok (t +:+ "." +:+ col_name col)
  | None => Raise (Builtin (TypeError "join"))
  end.

Fixpoint evaluate_select (row : Row) (select : list SelectItem) : result (list value) :=
  match select with
  | [] => Ok []
  | field :: rest =>
    field_name ← field_key (sel_column field);
    v ← match row !! field_name with
        | Some v => Ok v
        | None => Raise (Builtin (KeyError field_name))
        end;
    filtered_row ← evaluate_select row rest;
    Ok (v :: filtered_row)
  end.

(** What the generator yields. *)
Inductive output :=
  | Header (result_headers : list (string * string))
  | DataRow (values : list value).

#[global] Instance output_eq_dec : EqDecision output.
Proof. solve_decision. Defined.

(** A run of the generator: the values yielded, in order, and how it ends
    ([Ok tt] when it is exhausted). *)
Definition run : Type := list output * result unit.

Definition yield (o : output) (r : run) : run := (o :: r.1, r.2).

Definition stop {A} (r : result A) : run :=
  match r with
  | Ok _ => ([], Ok tt)
  | Raise e => ([], Raise e)
  | Unmodelled => ([], Unmodelled)
  end.

(** [for row in itertools.product(...)] with the late filter and the
    projection. *)
Fixpoint join_loop (meets_criteria : list string) (select : list SelectItem)
    (tuples : list (list Row)) : run :=
  match tuples with
  | [] => ([], Ok tt)
  | row :: rest =>
    let joined := joined_row row in
    match TableFilter_call meets_criteria joined with
    | Ok true =>
      match evaluate_select joined select with
      | Ok values => yield (DataRow values) (join_loop meets_criteria select rest)
      | failure => stop failure
      end
    | Ok false => join_loop meets_criteria select rest
    | failure => stop failure
    end
  end.

(** [raise Exception("Error in ... clause: {}".format(e.args[0]))] *)
Definition reraise (context : message → message) (e : exn) : exn :=
  match args0 e with
  | Some detail => Exception (context detail)
  | None => Builtin (IndexError "tuple")
  end.

(** The iterables handed to [itertools.product], which reads each of them to
    the end, in order, before the first tuple is produced. *)
Definition tables_to_join (early : gmap string (list Condition))
    (tables : list Table) : result (list (list Row)) :=
  mapM (λ table,
          match early !! name table with
          | Some early_conditions =>
            filter_rows (TableFilter early_conditions) (rows table)
          | None => Ok (rows table)
          end) tables.

Definition execute (query : Query) (tables : list Table) : run :=
  match validate_and_coalesce_select query tables with
  | Ok (result_headers, select) =>
    match parse_where_clause query tables with
    | Ok (early, late) =>
      yield (Header result_headers)
        match tables_to_join early tables with
        | Ok pools => join_loop (TableFilter late) select (product pools)
        | failure => stop failure
        end
    | Raise e => ([], Raise (reraise WhereClauseMsg e))
    | Unmodelled => ([], Unmodelled)
    end
  | Raise e => ([], Raise (reraise SelectClauseMsg e))
  | Unmodelled => ([], Unmodelled)
  end.

(** ** Vocabulary of the properties *)

(** The validation failures of the design. The program raises three of them
    with a [raise] statement of its own; an exception of the interpreter is
    none of them. *)
Inductive failure_kind :=
  | AmbiguousColumn
  | ColumnNotFound
  | UnknownTable
  | UnknownColumn
  | TypeMismatch.

Fixpoint message_kind (m : message) : option failure_kind :=
  match m with
  | AmbiguousMsg _ _ => Some AmbiguousColumn
  | NotInFromMsg _ => Some UnknownTable
  | TypeMismatchMsg _ => Some TypeMismatch
  | SelectClauseMsg detail | WhereClauseMsg detail => message_kind detail
  | InterpreterMsg _ => None
  end.

Definition kind_of (e : exn) : option failure_kind :=
  match e with
  | Exception m => message_kind m
  | Builtin _ => None
  end.

(** The aliases a condition refers to through its column sides. *)
Definition expression_aliases (e : Expression) : gset string :=
  match e with
  | Column col => match col_table col with Some a => {[a]} | None => ∅ end
  | Literal _ => ∅
  end.

Definition aliases (c : Condition) : gset string :=
  expression_aliases (cond_left c) ∪ expression_aliases (cond_right c).

Definition is_column (e : Expression) : bool :=
  match e with Column _ => true | Literal _ => false end.

Definition has_column (c : Condition) : bool :=
  is_column (cond_left c) || is_column (cond_right c).

(** The type label of a side of an annotated condition: the label of the
    literal, or the type some table of that alias declares for the column. *)
Definition labelled (tables : list Table) (e : Expression) (ty : string) : Prop :=
  match e with
  | Literal v => ty = literal_type v
  | Column c =>
    ∃ t, t ∈ tables ∧ col_table c = Some (name t)
         ∧ headers t !! col_name c = Some ty
  end.

(** The annotation the classifier leaves on a side: an unqualified column
    receives the alias of the table that declares it. *)
Definition resolve_expression (tables : list Table) (e : Expression)
  : result Expression :=
  match e with
  | Literal _ => Ok e
  | Column c =>
    if truthy (col_table c) then Ok e
    else
      t ← get_table_for_field (col_name c) tables;
      Ok (Column (mkColumnRef (Some (name t)) (col_name c)))
  end.

Definition resolves (tables : list Table) (c c' : Condition) : Prop :=
  resolve_expression tables (cond_left c) = Ok (cond_left c') ∧
  resolve_expression tables (cond_right c) = Ok (cond_right c') ∧
  cond_op c' = cond_op c.

(** The buckets respect the classification rule. *)
Record classified (ws : where_state) : Prop := mkClassified {
  late_many : ∀ c, c ∈ late_clauses ws → 1 < size (aliases c);
  early_one : ∀ a c, c ∈ early_clauses ws !!! a → has_column c = true →
                     aliases c = {[a]}
}.

(** Where a condition with a column side has been put. *)
Definition placed (ws : where_state) (c : Condition) : Prop :=
  has_column c = true →
  (1 < size (aliases c) ∧ c ∈ late_clauses ws) ∨
  (∃ a, aliases c = {[a]} ∧ c ∈ early_clauses ws !!! a).

(** The local [table], once bound, is one of the tables. *)
Definition table_bound (tables : list Table) (o : option Table) : Prop :=
  ∀ t, o = Some t → t ∈ tables.

(** The buckets only grow. *)
Definition grows (ws ws' : where_state) : Prop :=
  (∀ c, c ∈ late_clauses ws → c ∈ late_clauses ws') ∧
  (∀ a c, c ∈ early_clauses ws !!! a → c ∈ early_clauses ws' !!! a).

(** Every tuple of the join handed to the projection, none filtered out. *)
Fixpoint project_all (select : list SelectItem) (tuples : list (list Row)) : run :=
  match tuples with
  | [] => ([], Ok tt)
  | row :: rest =>
    match evaluate_select (joined_row row) select with
    | Ok values => yield (DataRow values) (project_all select rest)
    | failure => stop failure
    end
  end.

(** Nested loops over the pools, the first pool in the outermost loop. *)
Fixpoint nested_loop {A} (pools : list (list A)) : list (list A) :=
  match pools with
  | [] => [[]]
  | pool :: rest => y ← pool; (λ t, y :: t) <$> nested_loop rest
  end.

(** The late filter accepts the tuple. *)
Definition passes (meets_criteria : list string) (tuple : list Row) : Prop :=
  TableFilter_call meets_criteria (joined_row tuple) = Ok true.

#[global] Instance passes_dec f t : Decision (passes f t).
Proof. unfold passes. apply _. Defined.

(** *** Direct evaluation of conditions *)

(** The qualified name a column side stands for. *)
Definition column_key (c : ColumnRef) : string :=
  format_optional (col_table c) +:+ "." +:+ col_name c.

(** The value of a side, read from the row or the literal itself. *)
Definition operand (row : Row) (e : Expression) : result value :=
  match e with
  | Literal v => Ok v
  | Column c =>
    match row !! column_key c with
    | Some v => Ok v
    | None => Raise (Builtin (KeyError (column_key c)))
    end
  end.

(** The comparison an operator of the query stands for. *)
Definition compare_op_of (op : string) : option compare_op :=
  if String.eqb op "=" then Some CmpEq
  else if String.eqb op "==" then Some CmpEq
  else if String.eqb op "!=" then Some CmpNe
  else if String.eqb op "<" then Some CmpLt
  else if String.eqb op "<=" then Some CmpLe
  else if String.eqb op ">" then Some CmpGt
  else if String.eqb op ">=" then Some CmpGe
  else None.

(** One comparison, made on the two values. *)
Definition compare_direct (row : Row) (c : Condition) : result bool :=
  match compare_op_of (cond_op c) with
  | None => Unmodelled
  | Some cmp =>
    v ← operand row (cond_left c);
    w ← operand row (cond_right c);
    py_compare cmp v w
  end.

(** The conjunction of the comparisons, taken in order up to the first one
    that is false or fails. *)
Fixpoint matches_direct (conditions : list Condition) (row : Row) : result bool :=
  match conditions with
  | [] => Ok true
  | c :: rest =>
    compare_direct row c ≫= λ b : bool,
      if b then matches_direct rest row else Ok false
  end.

(** A text that stands for itself between two [quote]s. *)
Definition plain_text (quote : ascii) (s : string) : bool :=
  forallb (λ c, plain_char c && negb (Ascii.eqb c quote)) (list_ascii_of_string s).

Definition plain_expression (e : Expression) : bool :=
  match e with
  | Literal (VStr s) => plain_text "'" s
  | Literal (VInt _) => true
  | Literal (VBool _) | Literal (VOther _) => false
  | Column c => plain_text double_quote (column_key c)
  end.

(** A condition whose text says what the condition says: a known operator,
    literals that are [int]s or [str]s, and strings and names that stand for
    themselves between their quotes. *)
Definition plain_condition (c : Condition) : bool :=
  plain_expression (cond_left c) && plain_expression (cond_right c)
  && bool_decide (is_Some (compare_op_of (cond_op c))).

(** The tokens of the text of a side. *)
Definition atom_tokens (e : Expression) : list token :=
  match e with
  | Column c => [TName "row"; TLBracket; TString (column_key c); TRBracket]
  | Literal (VStr s) => [TString s]
  | Literal (VInt z) => if (z <? 0)%Z then [TMinus; TNumber (- z)] else [TNumber z]
  | Literal (VBool b) => [TName (if b then "True" else "False")]
  | Literal (VOther text) => default [] (tokenize text)
  end.

(** The operand the text of a plain side is parsed to (a [bool] and a
    value of another kind make no plain side). *)
Definition atom_of (e : Expression) : atom :=
  match e with
  | Column c => ARow (column_key c)
  | Literal (VStr s) => AString s
  | Literal (VInt z) => ANumber z
  | Literal (VBool b) => AString (if b then "True" else "False")
  | Literal (VOther text) => AString text
  end.

(** The comparison holds on the row. *)
Definition satisfied (row : Row) (c : Condition) : bool :=
  bool_decide (compare_direct row c = Ok true).

(** *** The query without pushdown *)

Definition resolve_condition (tables : list Table) (c : Condition)
  : result Condition :=
  l ← resolve_expression tables (cond_left c);
  r ← resolve_expression tables (cond_right c);
  Ok (mkCondition l r (cond_op c)).

(** The reference for pushdown: the validation of [execute], then the cross
    product of the unfiltered tables, and every condition of the WHERE list,
    as annotated, evaluated on each joined row. *)
Definition execute_late_only (query : Query) (tables : list Table) : run :=
  match validate_and_coalesce_select query tables with
  | Ok (result_headers, select) =>
    match parse_where_clause query tables with
    | Ok _ =>
      match mapM (resolve_condition tables) (q_where query) with
      | Ok conditions =>
        yield (Header result_headers)
              (join_loop (TableFilter conditions) select (product (rows <$> tables)))
      | failure => stop failure
      end
    | Raise e => ([], Raise (reraise WhereClauseMsg e))
    | Unmodelled => ([], Unmodelled)
    end
  | Raise e => ([], Raise (reraise SelectClauseMsg e))
  | Unmodelled => ([], Unmodelled)
  end.

Definition no_dot (s : string) : Prop :=
  "."%char ∉ list_ascii_of_string s.

(** The value is of the declared type: an [int] under ["int"], a [str] under
    ["str"]. *)
Definition of_type (v : value) (ty : string) : Prop :=
  match v with
  | VInt _ => ty = "int"
  | VStr _ => ty = "str"
  | VBool _ | VOther _ => False
  end.

(** A table as the loader builds it: every row has exactly the keys
    ["alias.column"] of the declared columns, each cell of the declared type
    (an [int] under ["int"], a [str] under ["str"]); the alias is plain and
    has no dot. *)
Record well_formed (t : Table) : Prop := mkWellFormed {
  wf_name_plain : plain_text double_quote (name t) = true;
  wf_name_no_dot : no_dot (name t);
  wf_keys : ∀ row k, row ∈ rows t → is_Some (row !! k) →
            ∃ c, k = name t +:+ "." +:+ c ∧ is_Some (headers t !! c);
  wf_cells : ∀ row c ty, row ∈ rows t → headers t !! c = Some ty →
             ∃ v, row !! (name t +:+ "." +:+ c) = Some v ∧ of_type v ty
}.

(** Both sides of an annotated condition carry one type label. *)
Definition typed (tables : list Table) (c : Condition) : Prop :=
  ∃ ty, labelled tables (cond_left c) ty ∧ labelled tables (cond_right c) ty.

(** The row holds the cells of table [t], with the declared types. *)
Definition cell_ok (row : Row) (t : Table) : Prop :=
  ∀ c ty, headers t !! c = Some ty →
    ∃ v, row !! (name t +:+ "." +:+ c) = Some v ∧ of_type v ty.

(** A tuple of the join: one row of each table, in table order. *)
Definition aligned (tables : list Table) (tuple : list Row) : Prop :=
  Forall2 (λ row t, row ∈ rows t) tuple tables.

(** The row passes the early bucket of its table. *)
Definition bucket_ok (early : gmap string (list Condition)) (t : Table)
    (row : Row) : bool :=
  forallb (satisfied row) (early !!! name t).

(** Every row of the tuple passes the early bucket of its table. *)
Fixpoint tuple_ok (early : gmap string (list Condition)) (tables : list Table)
    (tuple : list Row) : bool :=
  match tables, tuple with
  | [], [] => true
  | t :: ts, row :: rest => bucket_ok early t row && tuple_ok early ts rest
  | _, _ => false
  end.

(** What follows the text of a side: nothing, or a space. *)
Definition separated (tail : string) : Prop :=
  tail = EmptyString ∨ ∃ rest, tail = String " " rest.

(** Every alias of the FROM list has its table. *)
Definition from_declared (query : Query) (tables : list Table) : Prop :=
  ∀ a, a ∈ from_as <$> q_from query → ∃ t, t ∈ tables ∧ name t = a.

(** ** Sample tables and queries *)

Definition users : Table :=
  mkTable "u" (<["id" := "int"]> (<["name" := "str"]> (<["age" := "int"]> ∅)))
    [ <["u.id" := VInt 1]> (<["u.name" := VStr "Al"]> (<["u.age" := VInt 30]> ∅));
      <["u.id" := VInt 2]> (<["u.name" := VStr "ab"]> (<["u.age" := VInt 41]> ∅)) ].

Definition orders : Table :=
  mkTable "o" (<["id" := "int"]> (<["user_id" := "int"]> (<["note" := "str"]> ∅)))
    [ <["o.id" := VInt 10]> (<["o.user_id" := VInt 1]> (<["o.note" := VStr "Al"]> ∅));
      <["o.id" := VInt 11]> (<["o.user_id" := VInt 2]> (<["o.note" := VStr "x"]> ∅)) ].

Definition from_users_orders : list FromItem :=
  [mkFromItem "users" "u"; mkFromItem "orders" "o"].

Definition col (table : string) (column : string) : ColumnRef :=
  mkColumnRef (Some table) column.

Definition age_is_thirty : Condition :=
  mkCondition (Column (col "u" "age")) (Literal (VStr "thirty")) "=".

Definition three_is_three : Condition :=
  mkCondition (Literal (VInt 3)) (Literal (VInt 3)) "=".

Definition id_is_one : Condition :=
  mkCondition (Column (col "u" "id")) (Literal (VInt 1)) "=".

Definition join_on_user : Condition :=
  mkCondition (Column (col "u" "id")) (Column (col "o" "user_id")) "=".

Definition unknown_column_query : Query :=
  mkQuery [mkSelectItem (col "u" "zip") "zip"] from_users_orders [].

Definition names_and_orders : Query :=
  mkQuery [mkSelectItem (mkColumnRef None "name") "who";
           mkSelectItem (col "o" "id") "order"]
          from_users_orders [].

Definition scenario_one : Query :=
  mkQuery [mkSelectItem (col "u" "name") "name"; mkSelectItem (col "o" "id") "id"]
          from_users_orders [join_on_user].

(** A string literal that closes its quote and goes on with Python text. *)
Definition injected_sum : Condition :=
  mkCondition (Column (col "u" "name")) (Literal (VStr "a' + 'b")) "=".

Definition row_ab : Row :=
  <["u.id" := VInt 2]> (<["u.name" := VStr "ab"]> (<["u.age" := VInt 41]> ∅)).

Definition name_is_ab : Condition :=
  mkCondition (Column (col "u" "name")) (Literal (VStr "ab")) "=".

Definition age_over_forty : Condition :=
  mkCondition (Literal (VInt 40)) (Column (col "u" "age")) "<".

(** A string literal that closes its quote and reads a column of another
    table: the text of the condition is
    [row["u.name"] == '' + row["o.note"] + '']. *)
Definition injected_lookup : Condition :=
  mkCondition (Column (col "u" "name"))
    (Literal (VStr ("' + row[" +:+ String double_quote
                      ("o.note" +:+ String double_quote "] + '"))))
    "=".

Definition injected_query : Query :=
  mkQuery [mkSelectItem (col "u" "name") "name"] from_users_orders [injected_lookup].

Definition first_user_orders : Query :=
  mkQuery [mkSelectItem (mkColumnRef None "name") "name"; mkSelectItem (col "o" "id") "id"]
          from_users_orders
          [mkCondition (Column (mkColumnRef None "user_id")) (Column (col "u" "id")) "=";
           id_is_one; three_is_three].

(** ** table.py: loading a table *)

(** The parsed content of [examples/<table>.table.json]: the header line, a
    list of [name, type] pairs, followed by the rows, each a list of cells. *)
Record TableDocument := mkDocument {
  doc_headers : list (string * string);
  doc_rows : list (list value)
}.

(** The text of a decimal integer as [str] writes it, read back: an optional
    minus sign and a digit run in normal form. *)
Definition int_of_text (s : string) : option Z :=
  match s with
  | String c rest =>
    if Ascii.eqb c "-" then Z.opp <$> number_of_digits rest
    else number_of_digits s
  | EmptyString => None
  end.

(** [int(field)]: an [int] is kept; a [bool] gives [0] or [1]; a [str] is
    read as a decimal integer. Texts outside the form above (which [int] may
    still accept, or reject with [ValueError]) and values of another kind
    (truncated when a [float], rejected with [TypeError] otherwise) are
    [Unmodelled]. *)
Definition py_int (field : value) : result value :=
  match field with
  | VInt z => Ok (VInt z)
  | VStr s =>
    match int_of_text s with
    | Some z => Ok (VInt z)
    | None => Unmodelled
    end
  | VBool b => Ok (VInt (Z.b2z b))
  | VOther _ => Unmodelled
  end.

(** [str(field)] *)
Definition py_str (field : value) : result value :=
  match field with
  | VInt z => Ok (VStr (format_int z))
  | VStr s => Ok (VStr s)
  | VBool b => Ok (VStr (if b then "True" else "False"))
  | VOther text => Ok (VStr text)
  end.

(** The dictionary [DATA_TYPES]. *)
Definition DATA_TYPES (field_type : string) : option (value → result value) :=
  if String.eqb field_type "int" then Some py_int
  else if String.eqb field_type "str" then Some py_str
  else None.

(** The loop [for index, field in enumerate(row)] of [Table.__init__], from
    position [index] on, filling [coalesced_row]. *)
Fixpoint coalesce_row (name : string) (headers : list (string * string))
    (index : nat) (row : list value) (coalesced_row : Row) : result Row :=
  match row with
  | [] => Ok coalesced_row
  | field :: rest =>
    match headers !! index with
    | None => Raise (Builtin (IndexError "list"))
    | Some (field_name, field_type) =>
      let aliased_name := name +:+ "." +:+ field_name in
      match DATA_TYPES field_type with
      | None => Raise (Builtin (KeyError field_type))
      | Some convert =>
        v ← convert field;
        coalesce_row name headers (S index) rest (<[aliased_name := v]> coalesced_row)
      end
    end
  end.

(** [{h[0]: h[1] for h in headers}]: a later entry replaces an earlier one of
    the same name. *)
Definition headers_dict (headers : list (string * string)) : gmap string string :=
  foldl (λ m h, <[h.1 := h.2]> m) ∅ headers.

(** [Table.__init__], given the content of the file of the table. *)
Definition Table_init (document : TableDocument) (name : string) : result Table :=
  rows ← mapM (λ row, coalesce_row name (doc_headers document) 0 row ∅)
              (doc_rows document);
  Ok (mkTable name (headers_dict (doc_headers document)) rows).

(** ** sql_evaluator.py: the command-line driver *)

(** [tables.append(Table(table['source'], table['as']))] for each item of the
    FROM list; [store] gives the content of the file of a source. *)
Definition load_tables (store : string → TableDocument) (from_ : list FromItem)
  : result (list Table) :=
  mapM (λ table, Table_init (store (from_source table)) (from_as table)) from_.

(** [list(cursor)]: every value of the generator, unless it ends with an
    exception. *)
Definition list_of_run (r : run) : result (list output) :=
  match r.2 with
  | Ok _ => Ok r.1
  | Raise e => Raise e
  | Unmodelled => Unmodelled
  end.

(** The driver: the value handed to [json.dumps] and written to the output
    file. *)
Definition main (store : string → TableDocument) (query : Query)
  : result (list output) :=
  tables ← load_tables store (q_from query);
  list_of_run (execute query tables).

(** The row holds exactly the cells of the columns of [m], each of the type
    [m] declares. *)
Definition covers (name : string) (m : gmap string string) (row : Row) : Prop :=
  (∀ k, is_Some (row !! k) ↔ ∃ c, k = name +:+ "." +:+ c ∧ is_Some (m !! c)) ∧
  (∀ c ty, m !! c = Some ty →
     ∃ v, row !! (name +:+ "." +:+ c) = Some v ∧ of_type v ty).

(** The file of the sample table [users]; the last age is written as text. *)
Definition users_document : TableDocument :=
  mkDocument [("id", "int"); ("name", "str"); ("age", "int")]
             [[VInt 1; VStr "Al"; VInt 30]; [VInt 2; VStr "ab"; VStr "41"]].

Definition orders_document : TableDocument :=
  mkDocument [("id", "int"); ("user_id", "int"); ("note", "str")]
             [[VInt 10; VInt 1; VStr "Al"]; [VInt 11; VInt 2; VStr "x"]].

Definition sample_store (source : string) : TableDocument :=
  if String.eqb source "users" then users_document else orders_document.

(** A file whose second row stops after its first cell, and the table it
    loads to. *)
Definition short_document : TableDocument :=
  mkDocument [("id", "int"); ("name", "str")] [[VInt 1; VStr "Al"]; [VInt 2]].

Definition short_users : Table :=
  mkTable "u" (<["id" := "int"]> (<["name" := "str"]> ∅))
    [ <["u.id" := VInt 1]> (<["u.name" := VStr "Al"]> ∅); <["u.id" := VInt 2]> ∅ ].

Definition names_of_users : Query :=
  mkQuery [mkSelectItem (col "u" "name") "name"] [mkFromItem "users" "u"] [].

(** The conditions held by the buckets of [early_clauses], all buckets
    together. *)
Definition bucket_contents (early : gmap string (list Condition)) : list Condition :=
  mjoin (map_to_list early).*2.

(** * Verified properties *)

(** ** Column resolution *)

Lemma get_table_for_field_none field_name tables :
  filter (has_field field_name) tables = [] →
  get_table_for_field field_name tables = Raise (Builtin (IndexError "list")).
Proof. unfold get_table_for_field. intros ->. reflexivity. Qed.

Lemma get_table_for_field_many field_name tables :
  1 < length (filter (has_field field_name) tables) →
  get_table_for_field field_name tables =
    Raise (Exception (AmbiguousMsg field_name
                        (name <$> filter (has_field field_name) tables))).
Proof.
  unfold get_table_for_field. intros Hlen.
  rewrite bool_decide_eq_true_2; done.
Qed.

Lemma get_table_for_field_one field_name tables t :
  filter (has_field field_name) tables = [t] →
  get_table_for_field field_name tables = Ok t.
Proof. unfold get_table_for_field. intros ->. reflexivity. Qed.

(** What a successful resolution tells about the table found. *)
Lemma get_table_for_field_Ok field_name tables t :
  get_table_for_field field_name tables = Ok t →
  filter (has_field field_name) tables = [t].
Proof.
  unfold get_table_for_field.
  destruct (filter (has_field field_name) tables) as [|t1 [|t2 l]]; simpl;
    intros; simplify_eq; done.
Qed.

Lemma get_table_for_field_Ok_elem field_name tables t :
  get_table_for_field field_name tables = Ok t →
  t ∈ tables ∧ has_field field_name t.
Proof.
  intros H%get_table_for_field_Ok.
  assert (Hin : t ∈ filter (has_field field_name) tables) by (rewrite H; set_solver).
  by apply list_elem_of_filter in Hin as [? ?].
Qed.

(** The three outcomes of the resolution of an unqualified column name, by
    the number of tables that declare it: none, several (the message lists
    the alias of every matching table, in table order), exactly one. *)
Lemma get_table_for_field_cases field_name tables :
  let matching := filter (has_field field_name) tables in
  (matching = [] →
     get_table_for_field field_name tables = Raise (Builtin (IndexError "list"))) ∧
  (1 < length matching →
     get_table_for_field field_name tables =
       Raise (Exception (AmbiguousMsg field_name (name <$> matching))) ∧
     kind_of (Exception (AmbiguousMsg field_name (name <$> matching)))
       = Some AmbiguousColumn ∧
     ∀ t, t ∈ tables → has_field field_name t → name t ∈ name <$> matching) ∧
  (∀ t, matching = [t] → get_table_for_field field_name tables = Ok t).
Proof.
  intros matching. split; [|split].
  - apply get_table_for_field_none.
  - intros Hlen. split; [by apply get_table_for_field_many|].
    split; [done|]. intros t Hin Hf.
    apply list_elem_of_fmap. exists t. split; [done|].
    by apply list_elem_of_filter.
  - intros t. apply get_table_for_field_one.
Qed.

(** C3 at the failing input: no table declares [zip]. The function tests
    for more than one match and raises its own error then, but it has no
    test for no match: it indexes the empty list of matches, and the
    interpreter raises [IndexError], which names neither the column nor any
    table. The generator reports it as the detail of a SELECT failure and
    yields nothing. In the two other cases the function does what the
    design says: [id] is ambiguous between [u] and [o], [age] is found in
    [u]. *)
Theorem column_not_found_index_error :
  filter (has_field "zip") [users; orders] = [] ∧
  get_table_for_field "zip" [users; orders] = Raise (Builtin (IndexError "list")) ∧
  execute (mkQuery [mkSelectItem (mkColumnRef None "zip") "zip"] from_users_orders [])
          [users; orders]
    = ([], Raise (Exception (SelectClauseMsg (InterpreterMsg (IndexError "list"))))) ∧
  get_table_for_field "id" [users; orders]
    = Raise (Exception (AmbiguousMsg "id" ["u"; "o"])) ∧
  get_table_for_field "age" [users; orders] = Ok users.
Proof. repeat split; reflexivity. Qed.

(** ** Classification of the WHERE clause *)

Lemma filter_head {A} (P : A → Prop) `{∀ x, Decision (P x)} l x l' :
  filter P l = x :: l' → x ∈ l ∧ P x.
Proof.
  intros Hf. assert (Hin : x ∈ filter P l) by (rewrite Hf; by left).
  by apply list_elem_of_filter in Hin as [? ?].
Qed.

Lemma where_side_literal tables st v :
  where_side tables st (Literal v) =
    Ok (mkSideState (condition_types st ∪ {[literal_type v]})
                    (tables_involved st) (table_var st), Literal v).
Proof. reflexivity. Qed.

(** A column side that resolves: the table found, its declared type and the
    annotated reference. *)
Lemma where_side_column tables st c st' e' :
  where_side tables st (Column c) = Ok (st', e') →
  ∃ t ty, t ∈ tables ∧ headers t !! col_name c = Some ty ∧
    e' = Column (mkColumnRef (Some (name t)) (col_name c)) ∧
    st' = mkSideState (condition_types st ∪ {[ty]})
                      (tables_involved st ∪ {[name t]}) (Some t) ∧
    (truthy (col_table c) = true → col_table c = Some (name t)) ∧
    (truthy (col_table c) = false →
       get_table_for_field (col_name c) tables = Ok t).
Proof.
  unfold where_side. destruct c as [tbl nm]; simpl.
  destruct (truthy tbl) eqn:Htr.
  - destruct (filter _ tables) as [|t l] eqn:Hf; simpl; [done|].
    apply filter_head in Hf as [Hin Hname].
    destruct (headers t !! nm) as [ty|] eqn:Hty; simpl; [|done].
    intros [= <- <-]. exists t, ty. rewrite <- Hname. naive_solver.
  - destruct (get_table_for_field nm tables) as [t| |] eqn:Hg; simpl; [|done..].
    destruct (headers t !! nm) as [ty|] eqn:Hty; simpl; [|done].
    intros [= <- <-]. exists t, ty.
    destruct (get_table_for_field_Ok_elem _ _ _ Hg) as [Hin _]. naive_solver.
Qed.

Lemma where_side_spec tables st e st' e' :
  where_side tables st e = Ok (st', e') →
  ∃ ty, labelled tables e' ty ∧
    condition_types st' = condition_types st ∪ {[ty]} ∧
    tables_involved st' = tables_involved st ∪ expression_aliases e' ∧
    is_column e' = is_column e.
Proof.
  destruct e as [c|v].
  - intros (t & ty & Hin & Hty & -> & -> & _)%where_side_column.
    exists ty. simpl. split; [|done]. by exists t.
  - rewrite where_side_literal. intros [= <- <-].
    exists (literal_type v). simpl. split; [done|]. split; [done|].
    split; [|done]. by rewrite (right_id_L ∅ (∪)).
Qed.

Lemma where_sides_spec tables table0 condition st condition' :
  where_sides tables table0 condition = Ok (st, condition') →
  ∃ tl tr,
    labelled tables (cond_left condition') tl ∧
    labelled tables (cond_right condition') tr ∧
    condition_types st = {[tl; tr]} ∧
    tables_involved st = aliases condition' ∧
    has_column condition' = has_column condition ∧
    cond_op condition' = cond_op condition.
Proof.
  unfold where_sides.
  destruct (where_side tables _ (cond_left condition)) as [[st1 l]| |] eqn:H1;
    simpl; [|done..].
  destruct (where_side tables st1 (cond_right condition)) as [[st2 r]| |] eqn:H2;
    simpl; [|done..].
  intros [= <- <-].
  apply where_side_spec in H1 as (tl & Hl & Ht1 & Hi1 & Hc1).
  apply where_side_spec in H2 as (tr & Hr & Ht2 & Hi2 & Hc2).
  exists tl, tr. simpl in *. unfold aliases, has_column. simpl.
  rewrite Ht2, Ht1, Hi2, Hi1, Hc1, Hc2. simpl.
  rewrite !(left_id_L ∅ (∪)). done.
Qed.

Lemma size_pair (x y : string) :
  1 < size ({[x; y]} : gset string) ↔ x ≠ y.
Proof.
  split.
  - intros Hs ->. revert Hs.
    rewrite (idemp_L (∪)), size_singleton. lia.
  - intros Hne. rewrite size_union by (by apply disjoint_singleton_l, not_elem_of_singleton).
    rewrite !size_singleton. lia.
Qed.

(** C5, as the program has it: a literal side is labelled ["int"] when it is
    an integer and ["str"] otherwise, a column side with the type its table
    declares; the labels of both sides are collected in a set, and when they
    differ the condition fails with the type-mismatch error that carries
    that set. *)
Theorem type_mismatch_spec tables ws condition st condition' :
  where_sides tables (ws_table ws) condition = Ok (st, condition') →
  (∀ z, literal_type (VInt z) = "int") ∧
  (∀ s, literal_type (VStr s) = "str") ∧
  ∃ tl tr,
    labelled tables (cond_left condition') tl ∧
    labelled tables (cond_right condition') tr ∧
    condition_types st = {[tl; tr]} ∧
    (tl ≠ tr →
       where_condition tables ws condition =
         Raise (Exception (TypeMismatchMsg {[tl; tr]})) ∧
       kind_of (Exception (TypeMismatchMsg {[tl; tr]})) = Some TypeMismatch).
Proof.
  intros Hs. split; [done|]. split; [done|].
  destruct (where_sides_spec _ _ _ _ _ Hs) as (tl & tr & Hl & Hr & Hty & _).
  exists tl, tr. repeat split; try done.
  unfold where_condition. rewrite Hs. simpl.
  rewrite Hty, bool_decide_eq_true_2; [done|]. by apply size_pair.
Qed.

Lemma type_mismatch_spec_witness :
  where_condition [users] where_start age_is_thirty =
    Raise (Exception (TypeMismatchMsg {["int"; "str"]})).
Proof.
  destruct (type_mismatch_spec [users] where_start age_is_thirty _ _ eq_refl)
    as (_ & _ & tl & tr & Hl & Hr & _ & Hne).
  simpl in Hl, Hr. destruct Hl as (t & Hin & _ & Hty).
  apply list_elem_of_singleton in Hin. subst t tr.
  vm_compute in Hty. injection Hty as <-.
  apply Hne. discriminate.
Defined.

(** The label of a string literal is ["str"], and the mismatch between an
    ["int"] column and a string literal carries the labels ["int"] and
    ["str"]: ["string"] is not among them. *)
Lemma string_label_counterexample :
  literal_type (VStr "thirty") ≠ "string" ∧
  parse_where_clause (mkQuery [] [mkFromItem "users" "u"] [age_is_thirty]) [users]
    ≠ Raise (Exception (TypeMismatchMsg {["int"; "string"]})).
Proof.
  split; [discriminate|].
  intros H. vm_compute in H. discriminate H.
Qed.

(** The local [table] after one side. *)
Lemma where_side_table tables st e st' e' :
  where_side tables st e = Ok (st', e') →
  (is_column e = false → table_var st' = table_var st) ∧
  (is_column e = true →
     ∃ t, table_var st' = Some t ∧ t ∈ tables ∧ expression_aliases e' = {[name t]}) ∧
  resolve_expression tables e = Ok e'.
Proof.
  destruct e as [c|v].
  - intros (t & ty & Hin & Hty & -> & -> & Hq & Hu)%where_side_column.
    split; [done|]. split; [intros _; by exists t|].
    simpl. destruct (truthy (col_table c)) eqn:Htr.
    + destruct c as [tbl nm]. simpl in *. by rewrite (Hq eq_refl).
    + by rewrite (Hu eq_refl).
  - rewrite where_side_literal. by intros [= <- <-].
Qed.

Lemma where_sides_table tables table0 condition st condition' :
  where_sides tables table0 condition = Ok (st, condition') →
  resolves tables condition condition' ∧
  (has_column condition' = false → table_var st = table0) ∧
  (has_column condition' = true →
     ∃ t, table_var st = Some t ∧ t ∈ tables ∧ name t ∈ aliases condition').
Proof.
  unfold where_sides.
  destruct (where_side tables _ (cond_left condition)) as [[st1 l]| |] eqn:H1;
    simpl; [|done..].
  destruct (where_side tables st1 (cond_right condition)) as [[st2 r]| |] eqn:H2;
    simpl; [|done..].
  intros [= <- <-].
  destruct (where_side_spec _ _ _ _ _ H1) as (_ & _ & _ & _ & Hc1).
  destruct (where_side_spec _ _ _ _ _ H2) as (_ & _ & _ & _ & Hc2).
  apply where_side_table in H1 as (Hl1 & Hl2 & Hl3).
  apply where_side_table in H2 as (Hr1 & Hr2 & Hr3).
  unfold has_column, aliases, resolves. simpl in *. rewrite Hc1, Hc2.
  split; [done|].
  destruct (is_column (cond_right condition)) eqn:Er.
  - split; [by rewrite orb_true_r|]. intros _.
    destruct (Hr2 eq_refl) as (t & Ht & Hin & Ha). exists t.
    rewrite Ha. split; [done|]. split; [done|].
    by apply elem_of_union_r, elem_of_singleton.
  - rewrite orb_false_r. rewrite (Hr1 eq_refl).
    destruct (is_column (cond_left condition)) eqn:El.
    + split; [done|]. intros _.
      destruct (Hl2 eq_refl) as (t & Ht & Hin & Ha). exists t.
      rewrite Ha. split; [done|]. split; [done|].
      by apply elem_of_union_l, elem_of_singleton.
    + split; [|done]. intros _. by apply Hl1.
Qed.

Lemma size_le_1_singleton (X : gset string) x :
  x ∈ X → ¬ 1 < size X → X = {[x]}.
Proof.
  intros Hin Hs. apply set_eq. intros y. rewrite elem_of_singleton. split.
  - intros Hy. destruct (decide (y = x)) as [|Hne]; [done|].
    exfalso. apply Hs.
    assert (Hsub : ({[x; y]} : gset string) ⊆ X).
    { intros z [->%elem_of_singleton| ->%elem_of_singleton]%elem_of_union; done. }
    apply subseteq_size in Hsub.
    assert (1 < size ({[x; y]} : gset string)) by (by apply size_pair).
    lia.
  - by intros ->.
Qed.

(** One condition: either it fails, or the state it leaves records where the
    annotated condition has been put. *)
Lemma where_condition_Ok tables ws condition ws' :
  where_condition tables ws condition = Ok ws' →
  ∃ st condition',
    where_sides tables (ws_table ws) condition = Ok (st, condition') ∧
    ws_table ws' = table_var st ∧
    ¬ 1 < size (condition_types st) ∧
    ((1 < size (aliases condition') ∧
      early_clauses ws' = early_clauses ws ∧
      late_clauses ws' = late_clauses ws ++ [condition']) ∨
     (¬ 1 < size (aliases condition') ∧
      ∃ table, table_var st = Some table ∧
        early_clauses ws' =
          <[name table := early_clauses ws !!! name table ++ [condition']]>
            (early_clauses ws) ∧
        late_clauses ws' = late_clauses ws)).
Proof.
  unfold where_condition.
  destruct (where_sides tables (ws_table ws) condition)
    as [[st condition']| |] eqn:Hs; simpl; [|done..].
  destruct (where_sides_spec _ _ _ _ _ Hs) as (_ & _ & _ & _ & _ & Hinv & _).
  rewrite Hinv. case_bool_decide as Hty; [done|].
  case_bool_decide as Hmany.
  - intros [= <-]. exists st, condition'. naive_solver.
  - destruct (table_var st) as [table|] eqn:Htv; [|done].
    intros [= <-]. exists st, condition'. simpl.
    split; [done|]. split; [done|]. split; [done|]. right.
    split; [done|]. by exists table.
Qed.

Lemma aliases_no_column c : has_column c = false → aliases c = ∅.
Proof.
  unfold has_column, aliases. by destruct (cond_left c), (cond_right c).
Qed.

Lemma aliases_many_has_column c : 1 < size (aliases c) → has_column c = true.
Proof.
  intros Hs. destruct (has_column c) eqn:Hc; [done|].
  rewrite (aliases_no_column c Hc), size_empty in Hs. lia.
Qed.

Lemma grows_refl ws : grows ws ws.
Proof. by split. Qed.

Lemma grows_trans ws1 ws2 ws3 : grows ws1 ws2 → grows ws2 ws3 → grows ws1 ws3.
Proof. intros [H1 H2] [H3 H4]. split; eauto. Qed.

Lemma placed_grows ws ws' c : grows ws ws' → placed ws c → placed ws' c.
Proof.
  intros [Hl He] Hp Hc. destruct (Hp Hc) as [[Hs Hin]|(a & Ha & Hin)].
  - left. eauto.
  - right. exists a. eauto.
Qed.

Lemma where_start_classified : classified where_start.
Proof.
  split; simpl.
  - intros c Hc. by apply not_elem_of_nil in Hc.
  - intros a c. rewrite lookup_total_empty. intros Hc. by apply not_elem_of_nil in Hc.
Qed.

Lemma where_start_table_bound tables : table_bound tables (ws_table where_start).
Proof. intros t. simpl. done. Qed.

Lemma where_condition_inv tables ws condition ws' :
  where_condition tables ws condition = Ok ws' →
  classified ws → table_bound tables (ws_table ws) →
  ∃ condition', resolves tables condition condition' ∧
    classified ws' ∧ placed ws' condition' ∧ grows ws ws' ∧
    table_bound tables (ws_table ws') ∧ is_Some (ws_table ws').
Proof.
  intros (st & c' & Hs & Htab & _ & Hcase)%where_condition_Ok [Hlate Hearly] Hbound.
  destruct (where_sides_table _ _ _ _ _ Hs) as (Hres & Hnone & Hsome).
  exists c'. split; [done|].
  destruct Hcase as [(Hmany & He & Hl)|(Hfew & table & Htv & He & Hl)].
  - destruct (Hsome (aliases_many_has_column _ Hmany)) as (t & Ht & Hin & _).
    split; [|split; [|split; [|split]]].
    + split.
      * intros c. rewrite Hl, elem_of_app, list_elem_of_singleton.
        intros [?| ->]; eauto.
      * intros a c. rewrite He. apply Hearly.
    + intros _. left. split; [done|]. rewrite Hl, elem_of_app, list_elem_of_singleton. by right.
    + split.
      * intros c. rewrite Hl, elem_of_app. by left.
      * intros a c. by rewrite He.
    + intros t'. rewrite Htab, Ht. by intros [= <-].
    + rewrite Htab, Ht. by eexists.
  - assert (Hkey : has_column c' = true → aliases c' = {[name table]}).
    { intros Hc. destruct (Hsome Hc) as (t & Ht & _ & Ha).
      rewrite Htv in Ht. injection Ht as <-. by apply size_le_1_singleton. }
    split; [|split; [|split; [|split]]].
    + split.
      * intros c. rewrite Hl. apply Hlate.
      * intros a c. rewrite He.
        destruct (decide (name table = a)) as [<-|Hne].
        -- rewrite lookup_total_insert_eq, elem_of_app, list_elem_of_singleton.
           intros [?| ->]; eauto.
        -- rewrite lookup_total_insert_ne by done. apply Hearly.
    + intros Hc. right. exists (name table). split; [by apply Hkey|].
      rewrite He, lookup_total_insert_eq, elem_of_app, list_elem_of_singleton.
      by right.
    + split.
      * intros c. by rewrite Hl.
      * intros a c. rewrite He.
        destruct (decide (name table = a)) as [<-|Hne].
        -- rewrite lookup_total_insert_eq, elem_of_app. by left.
        -- by rewrite lookup_total_insert_ne.
    + intros t'. rewrite Htab, Htv. intros [= <-].
      destruct (has_column c') eqn:Hc.
      * destruct (Hsome eq_refl) as (t & Ht & Hin & _). by simplify_eq.
      * apply Hbound. by rewrite <- (Hnone eq_refl).
    + rewrite Htab, Htv. by eexists.
Qed.

Lemma where_loop_inv tables conditions : ∀ ws ws',
  where_loop tables ws conditions = Ok ws' →
  classified ws → table_bound tables (ws_table ws) →
  ∃ annotated, Forall2 (resolves tables) conditions annotated ∧
    classified ws' ∧ (∀ c, c ∈ annotated → placed ws' c) ∧ grows ws ws' ∧
    table_bound tables (ws_table ws') ∧
    (conditions ≠ [] → is_Some (ws_table ws')).
Proof.
  induction conditions as [|c cs IH]; simpl; intros ws ws' Hloop Hcl Hb.
  - injection Hloop as <-. exists []. split; [constructor|].
    split; [done|]. split; [by intros c ?%not_elem_of_nil|].
    split; [apply grows_refl|]. done.
  - destruct (where_condition tables ws c) as [ws1| |] eqn:Hc; simpl in Hloop; [|done..].
    destruct (where_condition_inv _ _ _ _ Hc Hcl Hb)
      as (c' & Hres & Hcl1 & Hp1 & Hg1 & Hb1 & Hs1).
    destruct (IH _ _ Hloop Hcl1 Hb1) as (ann & Hf & Hcl' & Hp' & Hg' & Hb' & Hs').
    exists (c' :: ann). split; [by constructor|]. split; [done|].
    split; [|split; [by eapply grows_trans|split; [done|]]].
    + intros x [->|Hx]%elem_of_cons; [|by apply Hp'].
      by eapply placed_grows.
    + intros _. destruct cs as [|c2 cs]; [|by apply Hs'].
      simpl in Hloop. by injection Hloop as <-.
Qed.

(** C6: after a successful classification, every condition of the WHERE
    list, as annotated, that has a column side is in the late list and in no
    early bucket when its column sides name more than one alias, and in the
    early bucket of its alias, in no other bucket and not in the late list,
    when they name exactly one; every condition with a column side found in
    an early bucket names exactly the alias of that bucket. *)
Theorem classification_spec query tables early late :
  parse_where_clause query tables = Ok (early, late) →
  (∃ annotated, Forall2 (resolves tables) (q_where query) annotated ∧
     ∀ c, c ∈ annotated → has_column c = true →
       (1 < size (aliases c) ∨ ∃ A, aliases c = {[A]}) ∧
       (1 < size (aliases c) → c ∈ late ∧ ∀ a, c ∉ (early !!! a)) ∧
       (∀ A, aliases c = {[A]} →
          c ∈ (early !!! A) ∧ (c ∉ late) ∧ (∀ b, b ≠ A → c ∉ (early !!! b)))) ∧
  (∀ a c, c ∈ (early !!! a) → has_column c = true → aliases c = {[a]}).
Proof.
  unfold parse_where_clause.
  destruct (where_loop tables where_start (q_where query)) as [ws| |] eqn:Hloop;
    simpl; [|done..].
  intros [= <- <-].
  destruct (where_loop_inv _ _ _ _ Hloop where_start_classified
              (where_start_table_bound tables))
    as (ann & Hf & [Hlate Hearly] & Hp & _).
  split; [|done]. exists ann. split; [done|].
  intros c Hin Hc.
  assert (Hone : ∀ A, aliases c = {[A]} → ¬ 1 < size (aliases c)).
  { intros A ->. rewrite size_singleton. lia. }
  split; [|split].
  - destruct (Hp c Hin Hc) as [[Hs _]|(a & Ha & _)]; [by left|right; by exists a].
  - intros Hmany. destruct (Hp c Hin Hc) as [[_ Hl]|(a & Ha & _)].
    + split; [done|]. intros a Ha. by apply (Hone a); [apply Hearly|].
    + by destruct (Hone a Ha).
  - intros A HA. destruct (Hp c Hin Hc) as [[Hs _]|(a & Ha & Hb)].
    + by destruct (Hone A HA).
    + rewrite HA in Ha. apply singleton_inj in Ha as <-.
      split; [done|]. split.
      * intros Hl%Hlate. by destruct (Hone A HA).
      * intros b Hne Hb'. apply Hearly in Hb'; [|done].
        rewrite HA in Hb'. by apply singleton_inj in Hb'.
Qed.

Lemma classification_spec_witness :
  ∃ early late,
    parse_where_clause (mkQuery [] from_users_orders [id_is_one; join_on_user])
      [users; orders] = Ok (early, late) ∧
    early !!! "u" = [id_is_one] ∧ late = [join_on_user] ∧
    ∀ a c, c ∈ (early !!! a) → has_column c = true → aliases c = {[a]}.
Proof.
  eexists _, _. split; [reflexivity|]. split; [reflexivity|]. split; [reflexivity|].
  eapply (classification_spec
            (mkQuery [] from_users_orders [id_is_one; join_on_user]) [users; orders]).
  reflexivity.
Defined.

(** ** Conditions without a column *)

Lemma where_loop_app tables l1 l2 ws :
  where_loop tables ws (l1 ++ l2) =
    where_loop tables ws l1 ≫= λ ws', where_loop tables ws' l2.
Proof.
  revert ws. induction l1 as [|c l1 IH]; intros ws; simpl; [done|].
  destruct (where_condition tables ws c); simpl; [apply IH|done..].
Qed.

Lemma where_condition_literals tables ws v w op :
  literal_type v = literal_type w →
  where_condition tables ws (mkCondition (Literal v) (Literal w) op) =
    match ws_table ws with
    | None => Raise (Builtin (UnboundLocalError "table"))
    | Some table =>
      Ok (mkWhereState (Some table)
            (<[name table := early_clauses ws !!! name table
                               ++ [mkCondition (Literal v) (Literal w) op]]>
               (early_clauses ws))
            (late_clauses ws))
    end.
Proof.
  intros Hty. unfold where_condition, where_sides.
  cbn [cond_left cond_right cond_op].
  rewrite where_side_literal. cbn [mbind result_bind].
  rewrite where_side_literal.
  cbn [mbind result_bind condition_types tables_involved table_var].
  rewrite Hty, (left_id_L ∅ (∪)), (idemp_L (∪)), size_singleton, size_empty.
  rewrite !bool_decide_eq_false_2 by lia. by destruct (ws_table ws).
Qed.

(** C9: a condition whose two sides are literals of one type has no bucket
    of its own. As the first condition of the WHERE list it makes
    [parse_where_clause] fail with [UnboundLocalError] on the local [table];
    after conditions that bound [table], it is appended to the early bucket
    of the table bound last, an alias the condition does not refer to. The
    local [table] is unbound only before the first condition. *)
Theorem literal_condition_bucket tables v w op :
  literal_type v = literal_type w →
  let c := mkCondition (Literal v) (Literal w) op in
  (∀ select from_ rest,
     parse_where_clause (mkQuery select from_ (c :: rest)) tables =
       Raise (Builtin (UnboundLocalError "table"))) ∧
  (∀ before ws table,
     where_loop tables where_start before = Ok ws →
     ws_table ws = Some table →
     where_loop tables where_start (before ++ [c]) =
       Ok (mkWhereState (Some table)
             (<[name table := early_clauses ws !!! name table ++ [c]]>
                (early_clauses ws))
             (late_clauses ws)) ∧
     table ∈ tables ∧ name table ∉ aliases c) ∧
  (∀ before ws,
     where_loop tables where_start before = Ok ws →
     ws_table ws = None → before = []).
Proof.
  intros Hty c. split; [|split].
  - intros select from_ rest. unfold parse_where_clause. simpl.
    unfold c. by rewrite where_condition_literals.
  - intros before ws table Hloop Htab.
    rewrite where_loop_app, Hloop. simpl.
    unfold c at 1. rewrite where_condition_literals, Htab by done.
    split; [done|].
    destruct (where_loop_inv _ _ _ _ Hloop where_start_classified
                (where_start_table_bound tables)) as (_ & _ & _ & _ & _ & Hb & _).
    split; [by apply Hb|]. unfold c, aliases. simpl.
    rewrite (left_id_L ∅ (∪)). apply not_elem_of_empty.
  - intros before ws Hloop Htab.
    destruct (where_loop_inv _ _ _ _ Hloop where_start_classified
                (where_start_table_bound tables)) as (_ & _ & _ & _ & _ & _ & Hs).
    destruct before as [|c0 l]; [done|].
    destruct Hs as [t Ht]; [done|]. by rewrite Htab in Ht.
Qed.

Lemma literal_condition_bucket_witness :
  parse_where_clause (mkQuery [] from_users_orders [three_is_three; id_is_one])
    [users; orders] = Raise (Builtin (UnboundLocalError "table")) ∧
  where_loop [users; orders] where_start ([join_on_user] ++ [three_is_three]) =
    Ok (mkWhereState (Some orders) {[ "o" := [three_is_three] ]} [join_on_user]).
Proof.
  destruct (literal_condition_bucket [users; orders] (VInt 3) (VInt 3) "=" eq_refl)
    as (H1 & H2 & _).
  split; [apply H1|].
  destruct (H2 [join_on_user] (mkWhereState (Some orders) ∅ [join_on_user]) orders
              eq_refl eq_refl) as (H & _).
  exact H.
Defined.

(** ** The empty predicate *)

Lemma tables_to_join_unfiltered early tables :
  (∀ table, table ∈ tables → early !! name table = None) →
  tables_to_join early tables = Ok (rows <$> tables).
Proof.
  unfold tables_to_join. induction tables as [|t ts IH]; intros Hnone; [done|].
  simpl. rewrite (Hnone t) by (by left). simpl.
  rewrite IH; [done|]. intros t' Hin. apply Hnone. by right.
Qed.

Lemma tables_to_join_lookup early tables pools :
  tables_to_join early tables = Ok pools →
  ∀ i table, tables !! i = Some table → early !! name table = None →
    pools !! i = Some (rows table).
Proof.
  unfold tables_to_join. revert pools.
  induction tables as [|t ts IH]; intros pools Hj i table Hi Hnone; [done|].
  simpl in Hj.
  destruct (match early !! name t with Some c => _ | None => _ end)
    as [pool| |] eqn:Hpool; simpl in Hj; [|done..].
  destruct (mapM _ ts) as [pools'| |] eqn:Hrest; simpl in Hj; [|done..].
  injection Hj as <-. destruct i as [|i]; simpl in *.
  - injection Hi as ->. rewrite Hnone in Hpool. by injection Hpool as <-.
  - by eapply IH.
Qed.

Lemma join_loop_no_condition select tuples :
  join_loop (TableFilter []) select tuples = project_all select tuples.
Proof.
  change (TableFilter []) with (@nil string).
  induction tuples as [|row rest IH]; simpl; [done|]. by rewrite IH.
Qed.

(** C10: the predicate built from no condition accepts every row; with an
    empty late list every tuple of the join reaches the projection; a table
    whose alias has no early bucket is joined with all its rows; and a query
    without WHERE conditions projects the whole cross product of the tables. *)
Theorem empty_filter_spec :
  (∀ row, TableFilter_call (TableFilter []) row = Ok true) ∧
  (∀ select tuples,
     join_loop (TableFilter []) select tuples = project_all select tuples) ∧
  (∀ early tables pools,
     tables_to_join early tables = Ok pools →
     ∀ i table, tables !! i = Some table → early !! name table = None →
       pools !! i = Some (rows table)) ∧
  (∀ query tables result_headers select,
     q_where query = [] →
     validate_and_coalesce_select query tables = Ok (result_headers, select) →
     execute query tables =
       yield (Header result_headers)
             (project_all select (product (rows <$> tables)))).
Proof.
  split; [done|]. split; [apply join_loop_no_condition|].
  split; [apply tables_to_join_lookup|].
  intros query tables h select Hwhere Hsel. unfold execute, parse_where_clause.
  rewrite Hsel, Hwhere. simpl.
  rewrite tables_to_join_unfiltered by (intros; apply lookup_empty).
  by rewrite join_loop_no_condition.
Qed.

Lemma empty_filter_spec_witness :
  execute names_and_orders [users; orders] =
    ([Header [("who", "str"); ("order", "int")];
      DataRow [VStr "Al"; VInt 10]; DataRow [VStr "Al"; VInt 11];
      DataRow [VStr "ab"; VInt 10]; DataRow [VStr "ab"; VInt 11]], Ok tt).
Proof.
  destruct empty_filter_spec as (_ & _ & _ & H).
  rewrite (H names_and_orders [users; orders] _ _ eq_refl eq_refl).
  vm_compute. reflexivity.
Defined.

(** ** Validation comes first *)

Lemma select_item_modelled from_ tables field :
  select_item from_ tables field ≠ Unmodelled.
Proof.
  unfold select_item, get_table_for_field.
  repeat (case_match; simpl in *; simplify_eq; try done).
Qed.

Lemma select_loop_modelled from_ tables fields :
  select_loop from_ tables fields ≠ Unmodelled.
Proof.
  induction fields as [|f fs IH]; simpl; [done|].
  pose proof (select_item_modelled from_ tables f).
  destruct (select_item from_ tables f) as [[f' entry]| |]; simpl; [|done..].
  destruct (select_loop from_ tables fs) as [[hs fs']| |]; simpl; done.
Qed.

Lemma where_condition_modelled tables ws c :
  where_condition tables ws c ≠ Unmodelled.
Proof.
  unfold where_condition, where_sides, where_side, get_table_for_field.
  repeat (case_match; simpl in *; simplify_eq; try done).
Qed.

Lemma where_loop_modelled tables conditions : ∀ ws,
  where_loop tables ws conditions ≠ Unmodelled.
Proof.
  induction conditions as [|c cs IH]; intros ws; simpl; [done|].
  pose proof (where_condition_modelled tables ws c).
  destruct (where_condition tables ws c); simpl; [apply IH|done..].
Qed.

Lemma join_loop_data_rows meets_criteria select tuples :
  ∃ data, (join_loop meets_criteria select tuples).1 = DataRow <$> data.
Proof.
  induction tuples as [|row rest [data IH]]; simpl; [by exists []|].
  destruct (TableFilter_call _ _) as [[|]| |]; [|by exists data|by exists []..].
  destruct (evaluate_select _ _) as [values| |]; [|by exists []..].
  exists (values :: data). simpl. by rewrite IH.
Qed.

(** The exceptions of the SELECT validation carry a message, when every
    alias of the FROM list has its table. *)
Lemma select_item_raises from_ tables field e :
  (∀ a, a ∈ from_as <$> from_ → ∃ t, t ∈ tables ∧ name t = a) →
  select_item from_ tables field = Raise e → is_Some (args0 e).
Proof.
  intros Hfrom.
  assert (Hfound : ∀ a, a ∈ from_as <$> from_ →
            filter (λ t, name t = a) tables ≠ []).
  { intros a Ha Hf. destruct (Hfrom a Ha) as (t & Ht & Hname).
    assert (Hx : t ∈ filter (λ t, name t = a) tables)
      by (by apply list_elem_of_filter).
    rewrite Hf in Hx. by apply elem_of_nil in Hx. }
  unfold select_item, get_table_for_field.
  repeat (case_match; simpl in *; simplify_eq; try done); intros [= <-];
    try (by eexists).
  all: match goal with
       | H : bool_decide _ = true |- _ => apply bool_decide_eq_true in H
       end;
       exfalso; eapply Hfound; eassumption.
Qed.

Lemma select_loop_raises from_ tables fields e :
  (∀ a, a ∈ from_as <$> from_ → ∃ t, t ∈ tables ∧ name t = a) →
  select_loop from_ tables fields = Raise e → is_Some (args0 e).
Proof.
  intros Hfrom. induction fields as [|f fs IH]; simpl; [done|].
  destruct (select_item from_ tables f) as [[f' entry]| |] eqn:Hf; simpl.
  - destruct (select_loop from_ tables fs) as [[hs fs']| |]; simpl; [done| |done].
    intros [= <-]. by apply IH.
  - intros [= <-]. by eapply select_item_raises.
  - done.
Qed.

(** The exceptions of the classification all carry a message. *)
Lemma where_condition_raises tables ws c e :
  where_condition tables ws c = Raise e → is_Some (args0 e).
Proof.
  unfold where_condition, where_sides, where_side, get_table_for_field.
  repeat (case_match; simpl in *; simplify_eq; try done); intros [= <-];
    by eexists.
Qed.

Lemma where_loop_raises tables conditions e : ∀ ws,
  where_loop tables ws conditions = Raise e → is_Some (args0 e).
Proof.
  induction conditions as [|c cs IH]; intros ws; simpl; [done|].
  destruct (where_condition tables ws c) eqn:Hc; simpl.
  - apply IH.
  - intros [= <-]. by eapply where_condition_raises.
  - done.
Qed.

(** C7: when the SELECT list or the WHERE list does not validate, the
    generator yields nothing and ends with the failure put in the context of
    its clause; otherwise the first value yielded is the header, and every
    later value is a data row. The two validation steps always end, with a
    result or an exception; the exception carries a message, which the
    context wraps, whenever every alias of the FROM list has its table. *)
Theorem header_first query tables :
  (∀ e, validate_and_coalesce_select query tables = Raise e →
     execute query tables = ([], Raise (reraise SelectClauseMsg e))) ∧
  (∀ checked e,
     validate_and_coalesce_select query tables = Ok checked →
     parse_where_clause query tables = Raise e →
     execute query tables = ([], Raise (reraise WhereClauseMsg e))) ∧
  (∀ result_headers select classes,
     validate_and_coalesce_select query tables = Ok (result_headers, select) →
     parse_where_clause query tables = Ok classes →
     ∃ data, (execute query tables).1 = Header result_headers :: (DataRow <$> data)) ∧
  (∀ context e detail,
     args0 e = Some detail → reraise context e = Exception (context detail)) ∧
  validate_and_coalesce_select query tables ≠ Unmodelled ∧
  parse_where_clause query tables ≠ Unmodelled ∧
  (from_declared query tables →
   ∀ e, validate_and_coalesce_select query tables = Raise e → is_Some (args0 e)) ∧
  (∀ e, parse_where_clause query tables = Raise e → is_Some (args0 e)).
Proof.
  split; [|split; [|split; [|split; [|split; [|split; [|split]]]]]].
  - intros e He. unfold execute. by rewrite He.
  - intros [h sel] e Hs He. unfold execute. by rewrite Hs, He.
  - intros h sel [early late] Hs Hw. unfold execute. rewrite Hs, Hw.
    destruct (tables_to_join early tables) as [pools| |]; simpl.
    + destruct (join_loop_data_rows (TableFilter late) sel (product pools))
        as [data ->]. by exists data.
    + by exists [].
    + by exists [].
  - intros context e detail Hd. unfold reraise. by rewrite Hd.
  - apply select_loop_modelled.
  - unfold parse_where_clause.
    pose proof (where_loop_modelled tables (q_where query) where_start).
    by destruct (where_loop tables where_start (q_where query)).
  - intros Hfrom e. by apply select_loop_raises.
  - intros e. unfold parse_where_clause.
    destruct (where_loop tables where_start (q_where query)) eqn:Hloop;
      simpl; [done| |done].
    intros [= <-]. by eapply where_loop_raises.
Qed.

Lemma header_first_witness :
  execute (mkQuery [mkSelectItem (mkColumnRef None "id") "id"] from_users_orders [])
    [users; orders] =
    ([], Raise (Exception (SelectClauseMsg (AmbiguousMsg "id" ["u"; "o"])))) ∧
  execute (mkQuery [] from_users_orders [age_is_thirty]) [users; orders] =
    ([], Raise (Exception (WhereClauseMsg (TypeMismatchMsg {["int"; "str"]})))) ∧
  ∃ data, (execute names_and_orders [users; orders]).1 =
            Header [("who", "str"); ("order", "int")] :: (DataRow <$> data).
Proof.
  split; [|split].
  - destruct (header_first
                (mkQuery [mkSelectItem (mkColumnRef None "id") "id"] from_users_orders [])
                [users; orders]) as (H & _).
    apply (H (Exception (AmbiguousMsg "id" ["u"; "o"]))). reflexivity.
  - destruct (header_first (mkQuery [] from_users_orders [age_is_thirty])
                [users; orders]) as (_ & H & _).
    apply (H ([], []) (Exception (TypeMismatchMsg {["int"; "str"]}))); reflexivity.
  - destruct (header_first names_and_orders [users; orders]) as (_ & _ & H & _).
    eapply (H _ _ (∅, [])); reflexivity.
Defined.

(** ** The SELECT list *)

(** A qualifier that the FROM list does not declare. *)
Lemma select_item_unknown_table from_ tables field a :
  col_table (sel_column field) = Some a → a ≠ "" →
  a ∉ from_as <$> from_ →
  select_item from_ tables field = Raise (Exception (NotInFromMsg a)).
Proof.
  intros Ha Hne Hnot.
  assert (Htr : negb (String.eqb a "") = true)
    by (by rewrite (proj2 (String.eqb_neq a ""))).
  unfold select_item. rewrite Ha. simpl. rewrite Htr. simpl.
  by rewrite bool_decide_eq_false_2, Htr.
Qed.

(** A declared qualifier whose table lacks the column: the intended error is
    never built. *)
Lemma select_item_unknown_column from_ tables field a table others :
  col_table (sel_column field) = Some a → a ≠ "" →
  a ∈ from_as <$> from_ →
  filter (λ t, name t = a) tables = table :: others →
  headers table !! col_name (sel_column field) = None →
  select_item from_ tables field = Raise (Builtin (NameError "source_table_name")).
Proof.
  intros Ha Hne Hin Hf Hcol.
  assert (Htr : negb (String.eqb a "") = true)
    by (by rewrite (proj2 (String.eqb_neq a ""))).
  unfold select_item. rewrite Ha. simpl. rewrite Htr. simpl.
  by rewrite bool_decide_eq_true_2, Hf, Hcol, Htr.
Qed.

(** The header lists the entries of the select items in select-list order. *)
Lemma select_loop_order from_ tables fields : ∀ query_headers select,
  select_loop from_ tables fields = Ok (query_headers, select) →
  ∃ items, Forall2 (λ field item, select_item from_ tables field = Ok item)
                   fields items ∧
    query_headers = items ≫= (λ item, option_list item.2) ∧
    select = fst <$> items.
Proof.
  induction fields as [|f fs IH]; simpl; intros hs sel.
  - intros [= <- <-]. exists []. by repeat constructor.
  - destruct (select_item from_ tables f) as [[f' entry]| |] eqn:Hf; simpl; [|done..].
    destruct (select_loop from_ tables fs) as [[hs' sel']| |] eqn:Hl; simpl; [|done..].
    intros [= <- <-]. destruct (IH _ _ eq_refl) as (items & Hall & -> & ->).
    exists ((f', entry) :: items). split; [by constructor|]. done.
Qed.

(** C4 at the failing input: the alias [u] is declared in FROM and the table
    has no column [zip]; building the message of the intended error reads
    the undefined name [source_table_name], so the failure reported is the
    interpreter's [NameError], not an error about the column. *)
Theorem unknown_column_name_error :
  execute unknown_column_query [users; orders] =
    ([], Raise (Exception (SelectClauseMsg
                             (InterpreterMsg (NameError "source_table_name"))))) ∧
  kind_of (Exception (SelectClauseMsg
                        (InterpreterMsg (NameError "source_table_name")))) = None.
Proof. split; reflexivity. Qed.

(** ** Order of the join and of the projection *)

Lemma bind_singleton_fmap {A B} (f : A → B) (l : list A) :
  l ≫= (λ x, [f x]) = f <$> l.
Proof. induction l as [|x l IH]; [done|]. rewrite bind_cons, IH. done. Qed.

Lemma fmap_bind_out {A B C} (f : B → C) (g : A → list B) (l : list A) :
  f <$> (l ≫= g) = l ≫= λ x, f <$> g x.
Proof.
  induction l as [|x l IH]; [done|].
  by rewrite !bind_cons, fmap_app, IH.
Qed.

Lemma product_step {A} (acc : list (list A)) pool rest :
  (acc ≫= λ x, (λ y, x ++ [y]) <$> pool)
     ≫= (λ x, (λ t, x ++ t) <$> nested_loop rest)
  = acc ≫= λ x, (λ t, x ++ t) <$> nested_loop (pool :: rest).
Proof.
  induction acc as [|a acc IH]; [done|].
  rewrite !bind_cons, bind_app, IH. f_equal.
  rewrite list_fmap_bind. simpl. rewrite fmap_bind_out.
  apply list_bind_ext; [|done]. intros y. simpl.
  rewrite <- list_fmap_compose. apply list_fmap_ext. intros i t _. simpl.
  by rewrite <- app_assoc.
Qed.

Lemma product_acc {A} (pools : list (list A)) : ∀ acc,
  foldl (λ result pool, x ← result; (λ y, x ++ [y]) <$> pool) acc pools
  = acc ≫= λ x, (λ t, x ++ t) <$> nested_loop pools.
Proof.
  induction pools as [|pool rest IH]; intros acc; simpl.
  - rewrite (bind_singleton_fmap (λ x, x ++ [])).
    rewrite (list_fmap_ext _ id) by (intros; apply app_nil_r).
    by rewrite list_fmap_id.
  - rewrite IH. apply product_step.
Qed.

(** The library's product is the nested loop. *)
Lemma product_nested_loop {A} (pools : list (list A)) :
  product pools = nested_loop pools.
Proof.
  unfold product. rewrite product_acc. rewrite bind_singleton. simpl.
  apply list_fmap_id.
Qed.

Lemma nested_loop_length {A} (pool : list A) rest :
  length (nested_loop (pool :: rest)) = length pool * length (nested_loop rest).
Proof.
  simpl. induction pool as [|y pool IH]; [done|].
  rewrite bind_cons, length_app, length_fmap, IH. simpl. lia.
Qed.

(** Position [i * n + j] of the product holds row [i] of the first pool
    followed by tuple [j] of the product of the other pools: the first pool
    varies slowest. *)
Lemma nested_loop_lookup {A} (pool : list A) rest : ∀ i j y t,
  pool !! i = Some y → nested_loop rest !! j = Some t →
  nested_loop (pool :: rest) !! (i * length (nested_loop rest) + j) = Some (y :: t).
Proof.
  induction pool as [|p pool IH]; intros i j y t Hi Hj; [done|].
  change (nested_loop ((p :: pool) :: rest))
    with (((λ t, p :: t) <$> nested_loop rest) ++ nested_loop (pool :: rest)).
  destruct i as [|i]; simpl in Hi.
  - injection Hi as ->. simpl. rewrite lookup_app_l.
    + by rewrite list_lookup_fmap, Hj.
    + rewrite length_fmap. by eapply lookup_lt_Some.
  - rewrite lookup_app_r; rewrite length_fmap; [|simpl; lia].
    replace (S i * length (nested_loop rest) + j - length (nested_loop rest))
      with (i * length (nested_loop rest) + j) by (simpl; lia).
    by apply IH.
Qed.

Lemma filter_rows_sublist conditions rs kept :
  filter_rows conditions rs = Ok kept → kept `sublist_of` rs.
Proof.
  revert kept. induction rs as [|r rs IH]; simpl; intros kept.
  - intros [= <-]. constructor.
  - destruct (TableFilter_call conditions r) as [b| |]; simpl; [|done..].
    destruct (filter_rows conditions rs) as [kept'| |]; simpl; [|done..].
    intros [= <-]. destruct b; [apply sublist_skip|apply sublist_cons]; by apply IH.
Qed.

Lemma tables_to_join_sublist early tables pools :
  tables_to_join early tables = Ok pools →
  Forall2 (λ table pool, pool `sublist_of` rows table) tables pools.
Proof.
  unfold tables_to_join. revert pools.
  induction tables as [|t ts IH]; simpl; intros pools Hj.
  - injection Hj as <-. constructor.
  - destruct (match early !! name t with Some c => _ | None => _ end)
      as [pool| |] eqn:Hpool; simpl in Hj; [|done..].
    destruct (mapM _ ts) as [pools'| |] eqn:Hrest; simpl in Hj; [|done..].
    injection Hj as <-. constructor; [|by apply IH].
    destruct (early !! name t).
    + by eapply filter_rows_sublist.
    + by injection Hpool as <-.
Qed.

(** The data rows are the projections of the tuples the late filter lets
    through, in the order of the tuples. *)
Lemma join_loop_order meets_criteria select tuples :
  ∃ kept data,
    kept `sublist_of` tuples ∧
    (join_loop meets_criteria select tuples).1 = DataRow <$> data ∧
    Forall2 (λ tuple values,
               passes meets_criteria tuple ∧
               evaluate_select (joined_row tuple) select = Ok values) kept data ∧
    ((join_loop meets_criteria select tuples).2 = Ok tt →
       kept = filter (passes meets_criteria) tuples).
Proof.
  induction tuples as [|row rest (kept & data & Hsub & Hout & Hall & Hend)]; simpl.
  - exists [], []. repeat split; constructor.
  - rewrite filter_cons.
    destruct (TableFilter_call meets_criteria (joined_row row)) as [[|]| |] eqn:Hcall.
    + destruct (evaluate_select (joined_row row) select) as [values| |] eqn:Hsel.
      * exists (row :: kept), (values :: data). simpl.
        split; [by constructor|]. split; [by rewrite Hout|].
        split; [by constructor|]. intros He. rewrite decide_True by done.
        by rewrite Hend.
      * exists [], []. simpl. split; [apply sublist_nil_l|]. by repeat constructor.
      * exists [], []. simpl. split; [apply sublist_nil_l|]. by repeat constructor.
    + exists kept, data. split; [by constructor|]. split; [done|].
      split; [done|]. intros He.
      rewrite decide_False by (unfold passes; by rewrite Hcall). by apply Hend.
    + exists [], []. simpl. split; [apply sublist_nil_l|]. by repeat constructor.
    + exists [], []. simpl. split; [apply sublist_nil_l|]. by repeat constructor.
Qed.

(** The projection lists one value per select item, in select-list order. *)
Lemma evaluate_select_order row select : ∀ values,
  evaluate_select row select = Ok values →
  Forall2 (λ field v, ∃ key, field_key (sel_column field) = Ok key ∧
                              row !! key = Some v) select values.
Proof.
  induction select as [|field rest IH]; simpl; intros values.
  - intros [= <-]. constructor.
  - destruct (field_key (sel_column field)) as [key| |] eqn:Hk; simpl; [|done..].
    destruct (row !! key) as [v|] eqn:Hv; simpl; [|done].
    destruct (evaluate_select row rest) as [vs| |]; simpl; [|done..].
    intros [= <-]. constructor; [|by apply IH]. by exists key.
Qed.

(** C8: for a validated query, the pools joined are the tables in table
    order, each with a subsequence of its rows; the tuples are visited in
    nested-loop order, the first table varying slowest; the data rows are the
    projections of the tuples that pass the late filter, in that order (all
    of them when the run ends normally); and a data row lists the value of
    each select item in select-list order, whatever the order in which the
    bindings of the joined row were entered. *)
Theorem nested_loop_order query tables result_headers select early late pools :
  validate_and_coalesce_select query tables = Ok (result_headers, select) →
  parse_where_clause query tables = Ok (early, late) →
  tables_to_join early tables = Ok pools →
  Forall2 (λ table pool, pool `sublist_of` rows table) tables pools ∧
  execute query tables =
    yield (Header result_headers)
          (join_loop (TableFilter late) select (nested_loop pools)) ∧
  (∀ (pool : list Row) (rest : list (list Row)) i j y t,
     pool !! i = Some y → nested_loop rest !! j = Some t →
     nested_loop (pool :: rest) !! (i * length (nested_loop rest) + j)
       = Some (y :: t)) ∧
  (∃ kept data,
     kept `sublist_of` nested_loop pools ∧
     (execute query tables).1 = Header result_headers :: (DataRow <$> data) ∧
     Forall2 (λ tuple values,
                passes (TableFilter late) tuple ∧
                evaluate_select (joined_row tuple) select = Ok values) kept data ∧
     ((execute query tables).2 = Ok tt →
        kept = filter (passes (TableFilter late)) (nested_loop pools))) ∧
  (∀ row values,
     evaluate_select row select = Ok values →
     Forall2 (λ field v, ∃ key, field_key (sel_column field) = Ok key ∧
                                 row !! key = Some v) select values) ∧
  (∀ l1 l2 : list (string * value),
     NoDup l1.*1 → l1 ≡ₚ l2 →
     evaluate_select (list_to_map l1) select
       = evaluate_select (list_to_map l2) select).
Proof.
  intros Hsel Hwhere Hjoin.
  assert (Hexec : execute query tables =
            yield (Header result_headers)
                  (join_loop (TableFilter late) select (nested_loop pools))).
  { unfold execute. by rewrite Hsel, Hwhere, Hjoin, product_nested_loop. }
  split; [by eapply tables_to_join_sublist|]. split; [done|].
  split; [intros; by apply nested_loop_lookup|].
  split; [|split].
  - destruct (join_loop_order (TableFilter late) select (nested_loop pools))
      as (kept & data & Hsub & Hout & Hall & Hend).
    exists kept, data. rewrite Hexec. simpl. rewrite Hout. done.
  - intros row values. apply evaluate_select_order.
  - intros l1 l2 Hnd Hperm. by rewrite (list_to_map_proper l1 l2).
Qed.

Lemma nested_loop_order_witness :
  execute scenario_one [users; orders] =
    ([Header [("name", "str"); ("id", "int")];
      DataRow [VStr "Al"; VInt 10]; DataRow [VStr "ab"; VInt 11]], Ok tt).
Proof.
  destruct (nested_loop_order scenario_one [users; orders]
              [("name", "str"); ("id", "int")] (q_select scenario_one)
              ∅ [join_on_user] [rows users; rows orders]
              eq_refl eq_refl eq_refl) as (_ & -> & _).
  vm_compute. reflexivity.
Defined.

(** ** The text of a condition and its meaning *)

Local Arguments tokenize : simpl never.

Lemma append_nil (b : string) : EmptyString +:+ b = b.
Proof. reflexivity. Qed.

Lemma append_cons x (a b : string) : String x a +:+ b = String x (a +:+ b).
Proof. reflexivity. Qed.

Lemma string_append_assoc (a b c : string) : (a +:+ b) +:+ c = a +:+ (b +:+ c).
Proof.
  induction a as [|x a IH]; [done|]. rewrite !append_cons. by f_equal.
Qed.

(** Normal form of a text built with appends: its known characters first. *)
Ltac text_normal :=
  repeat first [rewrite append_cons | rewrite append_nil | rewrite string_append_assoc].

Lemma scan_string_length q s : ∀ body rest,
  scan_string q s = Some (body, rest) → String.length rest < String.length s.
Proof.
  induction s as [|c s IH]; simpl; intros body rest; [done|].
  destruct (Ascii.eqb c q); [intros [= <- <-]; lia|].
  destruct (plain_char c); [|done].
  destruct (scan_string q s) as [[b r]|] eqn:Hs; simpl; [|done].
  intros [= <- <-]. specialize (IH _ _ eq_refl). lia.
Qed.

Lemma span_length p s : (String.length (span p s).2 ≤ String.length s)%nat.
Proof.
  induction s as [|c s IH]; simpl; [done|].
  destruct (p c); simpl; [|done].
  destruct (span p s) as [a b]. simpl in *. lia.
Qed.

(** [lex_step] only continues on texts no longer than what follows [c]. *)
Lemma lex_step_ext k1 k2 c rest :
  (∀ s, (String.length s ≤ String.length rest)%nat → k1 s = k2 s) →
  lex_step k1 c rest = lex_step k2 c rest.
Proof.
  intros Hk. unfold lex_step.
  assert (Hspan : ∀ p, k1 (span p rest).2 = k2 (span p rest).2)
    by (intros p; apply Hk, span_length).
  repeat case_match; simplify_eq; simpl; try done.
  - by rewrite Hk.
  - destruct (scan_string c rest) as [[body rest']|] eqn:Hs; simpl; [|done].
    rewrite Hk; [done|]. apply scan_string_length in Hs. lia.
  - by rewrite Hk.
  - by rewrite Hk.
  - match goal with H : span is_digit rest = _ |- _ =>
      specialize (Hspan is_digit); rewrite H in Hspan end.
    simpl in Hspan. by rewrite Hspan.
  - match goal with H : span is_name_char rest = _ |- _ =>
      specialize (Hspan is_name_char); rewrite H in Hspan end.
    simpl in Hspan. by rewrite Hspan.
  - match goal with H : span is_operator_char rest = _ |- _ =>
      specialize (Hspan is_operator_char); rewrite H in Hspan end.
    simpl in Hspan. by rewrite Hspan.
Qed.

(** Any fuel above the length of the text gives the same tokens. *)
Lemma lex_enough n : ∀ m s,
  String.length s < n → String.length s < m → lex n s = lex m s.
Proof.
  induction n as [|n IH]; intros m s Hn Hm; [lia|].
  destruct m as [|m]; [lia|]. destruct s as [|c rest]; [done|].
  simpl in *. apply lex_step_ext. intros s Hs. apply IH; lia.
Qed.

Lemma tokenize_empty : tokenize EmptyString = Some [].
Proof. reflexivity. Qed.

Lemma tokenize_unfold c rest :
  tokenize (String c rest) = lex_step tokenize c rest.
Proof.
  unfold tokenize.
  change (lex (S (String.length (String c rest))) (String c rest))
    with (lex_step (lex (S (String.length rest))) c rest).
  apply lex_step_ext. intros s Hs. apply lex_enough; lia.
Qed.

Lemma scan_string_plain q s rest :
  plain_text q s = true →
  scan_string q (s +:+ String q rest) = Some (s, rest).
Proof.
  unfold plain_text. induction s as [|c s IH]; simpl.
  - intros _. rewrite ?append_nil. simpl. by rewrite Ascii.eqb_refl.
  - intros [[Hp Hq%negb_true_iff]%andb_prop Hs]%andb_prop.
    rewrite ?append_cons. simpl. rewrite Hq, Hp, IH by done. done.
Qed.

Lemma span_digits d tail :
  separated tail →
  span is_digit (NilEmpty.string_of_uint d +:+ tail)
    = (NilEmpty.string_of_uint d, tail).
Proof.
  intros Htail. induction d; simpl; rewrite ?append_cons, ?append_nil; simpl;
    try (by rewrite IHd).
  by destruct Htail as [->|[rest ->]].
Qed.

Lemma separated_ends_number tail : separated tail → ends_number tail = true.
Proof. by intros [->|[rest ->]]. Qed.

Lemma pos_to_uint_normal p :
  unorm (Pos.to_uint p) = Pos.to_uint p ∧ Pos.to_uint p ≠ Nil ∧
  Z.of_uint (Pos.to_uint p) = Z.pos p.
Proof.
  split; [|split].
  - rewrite <- (DecimalPos.Unsigned.to_of (Pos.to_uint p)).
    by rewrite DecimalPos.Unsigned.of_to.
  - apply DecimalPos.Unsigned.to_uint_nonnil.
  - unfold Z.of_uint. by rewrite DecimalPos.Unsigned.of_to.
Qed.

Lemma number_of_digits_normal d :
  unorm d = d →
  number_of_digits (NilEmpty.string_of_uint d) = Some (Z.of_uint d).
Proof.
  intros Hd. unfold number_of_digits. rewrite NilEmpty.usu. simpl.
  by rewrite decide_True.
Qed.

(** A digit run in normal form, followed by nothing or a space, is a number
    token. *)
Lemma tokenize_digits d tail :
  d ≠ Nil → unorm d = d → separated tail →
  tokenize (NilEmpty.string_of_uint d +:+ tail)
    = (λ ts, TNumber (Z.of_uint d) :: ts) <$> tokenize tail.
Proof.
  intros Hnil Hnorm Htail.
  pose proof (number_of_digits_normal d Hnorm) as Hnum.
  destruct d as [|d|d|d|d|d|d|d|d|d|d]; [done|..];
    cbn [NilEmpty.string_of_uint] in *; rewrite append_cons, tokenize_unfold;
    unfold lex_step; simpl; rewrite span_digits by done;
    rewrite separated_ends_number by done; rewrite Hnum; simpl;
    by destruct (tokenize tail).
Qed.

Lemma span_operator_digits d tail :
  d ≠ Nil →
  span is_operator_char (NilEmpty.string_of_uint d +:+ tail)
    = (EmptyString, NilEmpty.string_of_uint d +:+ tail).
Proof.
  intros Hnil. destruct d; [done|..];
    cbn [NilEmpty.string_of_uint]; rewrite append_cons; reflexivity.
Qed.

Lemma tokenize_format_int z tail :
  separated tail →
  tokenize (format_int z +:+ tail)
    = (λ ts, atom_tokens (Literal (VInt z)) ++ ts) <$> tokenize tail.
Proof.
  intros Htail. unfold format_int. destruct z as [|p|p]; simpl.
  - by rewrite (tokenize_digits (D0 Nil)).
  - destruct (pos_to_uint_normal p) as (Hnorm & Hnil & Hval).
    rewrite tokenize_digits by done. by rewrite Hval.
  - destruct (pos_to_uint_normal p) as (Hnorm & Hnil & Hval).
    rewrite append_cons, tokenize_unfold. unfold lex_step. simpl.
    rewrite span_operator_digits by done. simpl.
    rewrite tokenize_digits by done. rewrite Hval.
    by destruct (tokenize tail).
Qed.

Lemma expression_column c tail :
  expression (Column c) +:+ tail
    = String "r" (String "o" (String "w" (String "[" (String double_quote
        (column_key c +:+ String double_quote (String "]" tail)))))).
Proof. unfold expression, column_key. by text_normal. Qed.

(** The text of a plain side is read back as the tokens of that side. *)
Lemma tokenize_expression e tail :
  plain_expression e = true → separated tail →
  tokenize (expression e +:+ tail)
    = (λ ts, atom_tokens e ++ ts) <$> tokenize tail.
Proof.
  intros Hplain Htail. destruct e as [c|[z|s|b|text]]; simpl in Hplain; [| | |done..].
  - rewrite expression_column. unfold atom_tokens.
    rewrite tokenize_unfold. unfold lex_step. simpl.
    rewrite tokenize_unfold. unfold lex_step. simpl.
    rewrite tokenize_unfold. unfold lex_step. simpl.
    rewrite scan_string_plain by done. simpl.
    rewrite tokenize_unfold. unfold lex_step. simpl.
    by destruct (tokenize tail).
  - by apply tokenize_format_int.
  - unfold expression, atom_tokens. text_normal.
    rewrite tokenize_unfold. unfold lex_step. simpl.
    rewrite scan_string_plain by done. simpl.
    by destruct (tokenize tail).
Qed.

Lemma append_empty (a : string) : a +:+ EmptyString = a.
Proof. induction a as [|x a IH]; [done|]. rewrite append_cons. by f_equal. Qed.

Lemma tokenize_space rest : tokenize (String " " rest) = tokenize rest.
Proof. by rewrite tokenize_unfold. Qed.

Lemma compare_op_of_cases op cmp :
  compare_op_of op = Some cmp →
  (op = "=" ∧ cmp = CmpEq) ∨ (op = "==" ∧ cmp = CmpEq) ∨
  (op = "!=" ∧ cmp = CmpNe) ∨ (op = "<" ∧ cmp = CmpLt) ∨
  (op = "<=" ∧ cmp = CmpLe) ∨ (op = ">" ∧ cmp = CmpGt) ∨
  (op = ">=" ∧ cmp = CmpGe).
Proof.
  unfold compare_op_of.
  destruct (String.eqb_spec op "=") as [->|_]; [intros [= <-]; tauto|].
  destruct (String.eqb_spec op "==") as [->|_]; [intros [= <-]; tauto|].
  destruct (String.eqb_spec op "!=") as [->|_]; [intros [= <-]; tauto|].
  destruct (String.eqb_spec op "<") as [->|_]; [intros [= <-]; tauto|].
  destruct (String.eqb_spec op "<=") as [->|_]; [intros [= <-]; tauto|].
  destruct (String.eqb_spec op ">") as [->|_]; [intros [= <-]; tauto|].
  destruct (String.eqb_spec op ">=") as [->|_]; [intros [= <-]; tauto|].
  done.
Qed.

Lemma tokenize_operator op cmp rest :
  compare_op_of op = Some cmp →
  tokenize (OP_MAPPINGS op +:+ String " " rest)
    = (λ ts, TCompare cmp :: ts) <$> tokenize rest.
Proof.
  intros Hop. apply compare_op_of_cases in Hop.
  destruct Hop as [[-> ->]|[[-> ->]|[[-> ->]|[[-> ->]|[[-> ->]|[[-> ->]|[-> ->]]]]]]];
    (change (OP_MAPPINGS "=") with "==" || unfold OP_MAPPINGS; simpl);
    text_normal; rewrite tokenize_unfold; unfold lex_step; simpl;
    rewrite tokenize_space; by destruct (tokenize rest).
Qed.

(** The text of a plain condition is read back as its two sides and its
    comparison. *)
Lemma tokenize_condition c cmp :
  plain_expression (cond_left c) = true →
  plain_expression (cond_right c) = true →
  compare_op_of (cond_op c) = Some cmp →
  tokenize (condition_text c)
    = Some (atom_tokens (cond_left c) ++ TCompare cmp :: atom_tokens (cond_right c)).
Proof.
  intros Hl Hr Hop. unfold condition_text.
  rewrite tokenize_expression by (done || right; by eexists).
  change (" " +:+ OP_MAPPINGS (cond_op c) +:+ " " +:+ expression (cond_right c))
    with (String " " (OP_MAPPINGS (cond_op c) +:+ String " " (expression (cond_right c)))).
  rewrite tokenize_space, (tokenize_operator _ cmp) by done.
  rewrite <- (append_empty (expression (cond_right c))).
  rewrite tokenize_expression by (done || by left).
  rewrite tokenize_empty. simpl. by rewrite app_nil_r.
Qed.

Lemma split_compare_atoms l cmp r :
  plain_expression l = true → plain_expression r = true →
  split_compare (atom_tokens l ++ TCompare cmp :: atom_tokens r)
    = Some (atom_tokens l, cmp, atom_tokens r).
Proof.
  destruct l as [cl|[zl|sl|bl|tl]], r as [cr|[zr|sr|br|tr]]; try done;
    intros _ _; unfold atom_tokens;
    repeat (destruct (_ <? 0)%Z); reflexivity.
Qed.

Lemma parse_sum_atoms e :
  plain_expression e = true → parse_sum (atom_tokens e) = Some [atom_of e].
Proof.
  destruct e as [c|[z|s|b|text]]; try done; intros _;
    unfold atom_tokens, atom_of; try done.
  destruct (z <? 0)%Z; [|done].
  unfold parse_sum. cbn [split_plus mapM parse_atom].
  by rewrite Z.opp_involutive.
Qed.

Lemma eval_sum_atom row e :
  plain_expression e = true → eval_sum row [atom_of e] = operand row e.
Proof.
  destruct e as [c|[z|s|b|text]]; try done; intros _; simpl; try done.
  by destruct (row !! column_key c).
Qed.

(** For a plain condition, evaluating its text is comparing the values of
    its two sides. *)
Lemma eval_condition_text c row :
  plain_condition c = true →
  eval (condition_text c) row = compare_direct row c.
Proof.
  unfold plain_condition.
  intros [[Hl Hr]%andb_prop [cmp Hop]%bool_decide_eq_true]%andb_prop.
  unfold eval, compare_direct.
  rewrite (tokenize_condition c cmp) by done. cbn [mbind option_bind].
  unfold parse_comparison. rewrite split_compare_atoms by done.
  cbn [mbind option_bind].
  rewrite !parse_sum_atoms by done. cbn [mbind option_bind].
  by rewrite Hop, !eval_sum_atom.
Qed.

Lemma TableFilter_call_plain conditions row :
  Forall (λ c, plain_condition c = true) conditions →
  TableFilter_call (TableFilter conditions) row = matches_direct conditions row.
Proof.
  induction 1 as [|c cs Hc _ IH]; [done|].
  change (TableFilter (c :: cs)) with (condition_text c :: TableFilter cs).
  simpl. rewrite eval_condition_text by done.
  destruct (compare_direct row c) as [[|]| |]; simpl; done.
Qed.

Lemma matches_direct_satisfied conditions row :
  (∀ c, c ∈ conditions → ∃ b, compare_direct row c = Ok b) →
  matches_direct conditions row = Ok (forallb (satisfied row) conditions).
Proof.
  induction conditions as [|c cs IH]; intros Hok; [done|].
  destruct (Hok c) as [b Hb]; [by left|].
  cbn [matches_direct forallb]. unfold satisfied at 1.
  rewrite Hb. cbn [mbind result_bind]. destruct b.
  - rewrite bool_decide_eq_true_2 by done. apply IH.
    intros c' Hc'. apply Hok. by right.
  - by rewrite bool_decide_eq_false_2.
Qed.

(** C2, as the program has it: the predicate keeps the texts of the
    conditions and interprets them. When every condition is plain (a known
    operator; literals that are integers or strings; no single quote in a
    string literal, no double quote in an alias or a column name, and no
    backslash, line feed, carriage return or null character in any of
    them), the result on a row is the conjunction of the comparisons of the
    values of the two sides, taken in order up to the first that is false or
    fails; when every comparison is defined, it is the conjunction of their
    truth values. Integers are compared as numbers, strings
    lexicographically. *)
Theorem matches_plain conditions row :
  Forall (λ c, plain_condition c = true) conditions →
  TableFilter conditions = condition_text <$> conditions ∧
  TableFilter_call (TableFilter conditions) row = matches_direct conditions row ∧
  ((∀ c, c ∈ conditions → ∃ b, compare_direct row c = Ok b) →
     TableFilter_call (TableFilter conditions) row
       = Ok (forallb (satisfied row) conditions)) ∧
  (∀ a b, py_compare CmpLt (VInt a) (VInt b) = Ok (bool_decide (a < b)%Z)) ∧
  (∀ a b, py_compare CmpLt (VStr a) (VStr b)
            = Ok (bool_decide (String.compare a b = Lt))).
Proof.
  intros Hplain. split; [done|]. split; [by apply TableFilter_call_plain|].
  split; [|split].
  - intros Hok. rewrite TableFilter_call_plain by done.
    by apply matches_direct_satisfied.
  - intros a b. unfold py_compare. simpl. f_equal. destruct (Z.ltb_spec a b).
    + by rewrite bool_decide_eq_true_2.
    + rewrite bool_decide_eq_false_2; [done|lia].
  - intros a b. unfold py_compare. simpl. f_equal. unfold String.ltb.
    by destruct (String.compare a b).
Qed.

Lemma matches_plain_witness :
  TableFilter_call (TableFilter [name_is_ab; age_over_forty]) row_ab = Ok true.
Proof.
  destruct (matches_plain [name_is_ab; age_over_forty] row_ab) as (_ & -> & _).
  - repeat constructor.
  - reflexivity.
Defined.

(** The predicate is a list of texts built from the conditions, literal
    values included. The text built from the string literal [a' + 'b]
    compares the column with the sum of two strings, which is the string
    [ab], so the predicate accepts a row whose name is [ab], although that
    name differs from the literal. *)
Lemma injected_literal_counterexample :
  TableFilter [injected_sum]
    = ["row[" +:+ String double_quote ("u.name" +:+ String double_quote "] == 'a' + 'b'")] ∧
  TableFilter_call (TableFilter [injected_sum]) row_ab = Ok true ∧
  matches_direct [injected_sum] row_ab = Ok false.
Proof. repeat split; reflexivity. Qed.

(** ** Pushdown *)

Lemma plain_text_app q a b :
  plain_text q (a +:+ b) = plain_text q a && plain_text q b.
Proof.
  unfold plain_text. induction a as [|x a IH]; [done|].
  rewrite append_cons. simpl. rewrite IH. by rewrite andb_assoc.
Qed.

(** Two qualified names with dot-free aliases agree only on one alias. *)
Lemma qualified_name_inj a b c d :
  no_dot a → no_dot b → a +:+ "." +:+ c = b +:+ "." +:+ d → a = b.
Proof.
  unfold no_dot. revert b. induction a as [|x a IH]; intros [|y b] Ha Hb Heq.
  - done.
  - rewrite append_nil, !append_cons in Heq. injection Heq as <- _.
    simpl in Hb. by destruct Hb; left.
  - rewrite append_nil, !append_cons in Heq. injection Heq as -> _.
    simpl in Ha. by destruct Ha; left.
  - rewrite !append_cons in Heq. injection Heq as <- Heq. f_equal.
    apply IH; [| |done].
    + intros Hin. apply Ha. simpl. by right.
    + intros Hin. apply Hb. simpl. by right.
Qed.

Lemma NoDup_name_inj (tables : list Table) t t' :
  NoDup (name <$> tables) → t ∈ tables → t' ∈ tables → name t = name t' → t = t'.
Proof.
  induction tables as [|x l IH]; simpl; intros Hnd Ht Ht' Hname.
  - by apply elem_of_nil in Ht.
  - apply NoDup_cons in Hnd as [Hx Hnd].
    apply elem_of_cons in Ht as [->|Ht], Ht' as [->|Ht']; [done| | |by apply IH].
    + destruct Hx. rewrite Hname. apply list_elem_of_fmap. by exists t'.
    + destruct Hx. rewrite <- Hname. apply list_elem_of_fmap. by exists t.
Qed.

(** The loop sorts the annotated conditions into the buckets and the late
    list, and puts nothing else there; each bucket belongs to a table. *)
Lemma where_condition_sorts tables ws condition ws' :
  where_condition tables ws condition = Ok ws' →
  table_bound tables (ws_table ws) →
  ∃ c', resolves tables condition c' ∧ typed tables c' ∧
    (c' ∈ late_clauses ws' ∨ ∃ t, t ∈ tables ∧ c' ∈ early_clauses ws' !!! name t) ∧
    (∀ c, c ∈ late_clauses ws' → c ∈ late_clauses ws ∨ c = c') ∧
    (∀ a c, c ∈ early_clauses ws' !!! a → c ∈ early_clauses ws !!! a ∨ c = c').
Proof.
  intros (st & c' & Hs & Htab & Hty & Hcase)%where_condition_Ok Hbound.
  destruct (where_sides_spec _ _ _ _ _ Hs) as (tl & tr & Hl & Hr & Htypes & _).
  destruct (where_sides_table _ _ _ _ _ Hs) as (Hres & Hnone & Hsome).
  exists c'. split; [done|]. split.
  { exists tl. split; [done|]. destruct (decide (tl = tr)) as [->|Hne]; [done|].
    destruct Hty. rewrite Htypes. by apply size_pair. }
  destruct Hcase as [(Hmany & He & Hl')|(Hfew & table & Htv & He & Hl')].
  - split; [left; rewrite Hl'; apply elem_of_app; right; by left|].
    split.
    + intros c. rewrite Hl', elem_of_app, list_elem_of_singleton. tauto.
    + intros a c. rewrite He. tauto.
  - assert (Hin : table ∈ tables).
    { destruct (has_column c') eqn:Hc.
      - destruct (Hsome eq_refl) as (t & Ht & Hin & _). by simplify_eq.
      - apply Hbound. by rewrite <- (Hnone eq_refl). }
    split.
    { right. exists table. split; [done|].
      rewrite He, lookup_total_insert_eq. apply elem_of_app. right. by left. }
    split.
    + intros c. rewrite Hl'. tauto.
    + intros a c. rewrite He.
      destruct (decide (name table = a)) as [<-|Hne].
      * rewrite lookup_total_insert_eq, elem_of_app, list_elem_of_singleton. tauto.
      * rewrite lookup_total_insert_ne by done. tauto.
Qed.

Lemma where_loop_sorts tables conditions : ∀ ws ws',
  where_loop tables ws conditions = Ok ws' →
  classified ws → table_bound tables (ws_table ws) →
  ∃ annotated, Forall2 (resolves tables) conditions annotated ∧
    Forall (typed tables) annotated ∧
    (∀ c, c ∈ annotated →
       c ∈ late_clauses ws' ∨ ∃ t, t ∈ tables ∧ c ∈ early_clauses ws' !!! name t) ∧
    (∀ c, c ∈ late_clauses ws' → c ∈ late_clauses ws ∨ c ∈ annotated) ∧
    (∀ a c, c ∈ early_clauses ws' !!! a →
       c ∈ early_clauses ws !!! a ∨ c ∈ annotated).
Proof.
  induction conditions as [|c cs IH]; simpl; intros ws ws' Hloop Hcl Hb.
  - injection Hloop as <-. exists []. split; [constructor|]. split; [constructor|].
    split; [by intros c ?%elem_of_nil|]. split; intros; by left.
  - destruct (where_condition tables ws c) as [ws1| |] eqn:Hc; simpl in Hloop; [|done..].
    destruct (where_condition_inv _ _ _ _ Hc Hcl Hb)
      as (_ & _ & Hcl1 & _ & _ & Hb1 & _).
    destruct (where_condition_sorts _ _ _ _ Hc Hb)
      as (c' & Hres & Hty & Hput & Hlate1 & Hearly1).
    destruct (IH _ _ Hloop Hcl1 Hb1) as (ann & Hf & Htys & Hputs & Hlate & Hearly).
    destruct (where_loop_inv _ _ _ _ Hloop Hcl1 Hb1) as (_ & _ & _ & _ & [Hgl Hge] & _).
    exists (c' :: ann). split; [by constructor|]. split; [by constructor|].
    split; [|split].
    + intros x [->|Hx]%elem_of_cons; [|by apply Hputs].
      destruct Hput as [Hl|(t & Hin & He)]; [left; by apply Hgl|].
      right. exists t. split; [done|]. by apply Hge.
    + intros x [Hx|Hx]%Hlate; [|right; by right].
      destruct (Hlate1 _ Hx) as [?| ->]; [by left|right; by left].
    + intros a x [Hx|Hx]%Hearly; [|right; by right].
      destruct (Hearly1 _ _ Hx) as [?| ->]; [by left|right; by left].
Qed.

Lemma resolves_resolve_condition tables c c' :
  resolves tables c c' → resolve_condition tables c = Ok c'.
Proof.
  intros (Hl & Hr & Hop). unfold resolve_condition. rewrite Hl, Hr. simpl.
  rewrite <- Hop. by destruct c'.
Qed.

Lemma resolves_mapM tables conditions annotated :
  Forall2 (resolves tables) conditions annotated →
  mapM (resolve_condition tables) conditions = Ok annotated.
Proof.
  induction 1 as [|c c' cs cs' Hc _ IH]; [done|].
  simpl. rewrite (resolves_resolve_condition _ _ _ Hc). simpl. by rewrite IH.
Qed.

Lemma resolve_expression_plain tables e e' :
  Forall well_formed tables →
  resolve_expression tables e = Ok e' →
  plain_expression e = true → plain_expression e' = true.
Proof.
  intros Hwf. destruct e as [c|v]; simpl; [|by intros [= <-]].
  destruct (truthy (col_table c)); [by intros [= <-]|].
  destruct (get_table_for_field (col_name c) tables) as [t| |] eqn:Hg; simpl; [|done..].
  intros [= <-]. simpl. unfold column_key. simpl.
  rewrite !plain_text_app. intros [_ Hrest]%andb_prop. rewrite Hrest, andb_true_r.
  apply get_table_for_field_Ok_elem in Hg as [Hin _].
  rewrite Forall_forall in Hwf. by apply Hwf.
Qed.

Lemma resolves_plain tables c c' :
  Forall well_formed tables → resolves tables c c' →
  plain_condition c = true → plain_condition c' = true.
Proof.
  intros Hwf (Hl & Hr & Hop). unfold plain_condition. rewrite Hop.
  intros [[Hpl Hpr]%andb_prop Hk]%andb_prop.
  rewrite (resolve_expression_plain _ _ _ Hwf Hl Hpl).
  by rewrite (resolve_expression_plain _ _ _ Hwf Hr Hpr).
Qed.

(** What a successful classification gives to the join. *)
Lemma parse_where_clause_sorts query tables early late :
  parse_where_clause query tables = Ok (early, late) →
  ∃ annotated,
    Forall2 (resolves tables) (q_where query) annotated ∧
    Forall (typed tables) annotated ∧
    (∀ c, c ∈ annotated → c ∈ late ∨ ∃ t, t ∈ tables ∧ c ∈ early !!! name t) ∧
    (∀ c, c ∈ late → c ∈ annotated) ∧
    (∀ a c, c ∈ early !!! a → c ∈ annotated ∧ aliases c ⊆ {[a]}).
Proof.
  unfold parse_where_clause.
  destruct (where_loop tables where_start (q_where query)) as [ws| |] eqn:Hloop;
    simpl; [|done..].
  intros [= <- <-].
  destruct (where_loop_sorts _ _ _ _ Hloop where_start_classified
              (where_start_table_bound tables))
    as (ann & Hf & Hty & Hput & Hlate & Hearly).
  destruct (where_loop_inv _ _ _ _ Hloop where_start_classified
              (where_start_table_bound tables)) as (_ & _ & [_ Hone] & _).
  exists ann. split; [done|]. split; [done|]. split; [done|]. split.
  - intros c [Hc|Hc]%Hlate; [|done]. by apply elem_of_nil in Hc.
  - intros a c Hc. split.
    + destruct (Hearly _ _ Hc) as [Hc'|Hc']; [|done].
      simpl in Hc'. rewrite lookup_total_empty in Hc'. by apply elem_of_nil in Hc'.
    + destruct (has_column c) eqn:Hcol.
      * by rewrite (Hone _ _ Hc Hcol).
      * rewrite (aliases_no_column _ Hcol). apply empty_subseteq.
Qed.

(** *** Rows and joined rows *)

Lemma joined_row_acc_lookup (tuple : list Row) k v : ∀ acc : Row,
  (acc !! k = Some v ∨ ∃ row, row ∈ tuple ∧ row !! k = Some v) →
  (∀ row v', row ∈ tuple → row !! k = Some v' → v' = v) →
  foldl (λ joined t, t ∪ joined) acc tuple !! k = Some v.
Proof.
  induction tuple as [|r rest IH]; simpl; intros acc Hsome Hagree.
  - destruct Hsome as [?|(row & Hin & _)]; [done|]. by apply elem_of_nil in Hin.
  - apply IH.
    + destruct (r !! k) as [v'|] eqn:Hr.
      * left. assert (v' = v) as -> by (eapply Hagree; [by left|done]).
        by apply lookup_union_Some_l.
      * destruct Hsome as [Hacc|(row & [->|Hin]%elem_of_cons & Hrow)].
        -- left. by rewrite lookup_union_r.
        -- by rewrite Hr in Hrow.
        -- right. by exists row.
    + intros row v' Hin. apply Hagree. by right.
Qed.

Lemma joined_row_lookup (tuple : list Row) row k v :
  row ∈ tuple → row !! k = Some v →
  (∀ row' v', row' ∈ tuple → row' !! k = Some v' → v' = v) →
  joined_row tuple !! k = Some v.
Proof.
  intros Hin Hrow Hagree. apply joined_row_acc_lookup; [|done].
  right. by exists row.
Qed.

(** In a tuple of well-formed tables with distinct aliases, the cells of a
    row are the cells of the joined row. *)
Lemma joined_row_cell tables tuple i t row k v :
  NoDup (name <$> tables) → Forall well_formed tables → aligned tables tuple →
  tables !! i = Some t → tuple !! i = Some row →
  row !! k = Some v → joined_row tuple !! k = Some v.
Proof.
  intros Hnd Hwf Hal Ht Hrow Hk.
  rewrite Forall_forall in Hwf.
  apply (joined_row_lookup tuple row); [by eapply list_elem_of_lookup_2|done|].
  intros row' v' [j Hj]%list_elem_of_lookup Hk'.
  destruct (Forall2_lookup_l _ _ _ _ _ Hal Hj) as (t' & Ht' & Hin').
  pose proof (Forall2_lookup_lr _ _ _ _ _ _ Hal Hrow Ht) as Hin.
  assert (Htin : t ∈ tables) by (by eapply list_elem_of_lookup_2).
  assert (Htin' : t' ∈ tables) by (by eapply list_elem_of_lookup_2).
  destruct (wf_keys t (Hwf t Htin) row k Hin) as (c & Hc & _); [by eexists|].
  destruct (wf_keys t' (Hwf t' Htin') row' k Hin') as (c' & Hc' & _); [by eexists|].
  assert (Hname : name t = name t').
  { eapply qualified_name_inj; [by apply wf_name_no_dot, Hwf..|].
    by rewrite <- Hc, <- Hc'. }
  assert (i = j) as ->.
  { eapply NoDup_lookup; [exact Hnd| |].
    - by rewrite list_lookup_fmap, Ht.
    - by rewrite list_lookup_fmap, Ht', Hname. }
  by simplify_eq.
Qed.

Lemma joined_row_cell_ok tables tuple t :
  NoDup (name <$> tables) → Forall well_formed tables → aligned tables tuple →
  t ∈ tables → cell_ok (joined_row tuple) t.
Proof.
  intros Hnd Hwf Hal [i Ht]%list_elem_of_lookup c ty Hc.
  destruct (Forall2_lookup_r _ _ _ _ _ Hal Ht) as (row & Hrow & Hin).
  pose proof (proj1 (Forall_forall _ _) Hwf) as Hwf'.
  destruct (wf_cells t (Hwf' t (list_elem_of_lookup_2 _ _ _ Ht)) row c ty Hin Hc)
    as (v & Hv & Hty).
  exists v. split; [|done]. by eapply joined_row_cell.
Qed.

Lemma row_cell_ok tables t row :
  Forall well_formed tables → t ∈ tables → row ∈ rows t → cell_ok row t.
Proof.
  rewrite Forall_forall. intros Hwf Hin Hrow c ty Hc.
  by apply (wf_cells t (Hwf t Hin)).
Qed.

(** *** Comparisons on typed rows *)

Lemma py_compare_same_type cmp v w ty :
  of_type v ty → of_type w ty → ∃ b, py_compare cmp v w = Ok b.
Proof.
  unfold py_compare.
  destruct cmp, v, w; simpl; try done; intros -> ?; try done; eauto.
Qed.

Lemma labelled_column_key tables c ty :
  labelled tables (Column c) ty →
  ∃ t, t ∈ tables ∧ col_table c = Some (name t) ∧
       headers t !! col_name c = Some ty ∧
       column_key c = name t +:+ "." +:+ col_name c.
Proof.
  intros (t & Hin & Htab & Hty). exists t. unfold column_key. by rewrite Htab.
Qed.

(** The value of a plain side is of the type the side is labelled with. *)
Lemma operand_labelled tables row e ty :
  plain_expression e = true →
  labelled tables e ty →
  (∀ t, t ∈ tables → name t ∈ expression_aliases e → cell_ok row t) →
  ∃ v, operand row e = Ok v ∧ of_type v ty.
Proof.
  destruct e as [c|v]; intros Hplain.
  - intros (t & Hin & Htab & Hty & Hkey)%labelled_column_key Hcell.
    assert (Ha : name t ∈ expression_aliases (Column c))
      by (simpl; rewrite Htab; by apply elem_of_singleton).
    destruct (Hcell t Hin Ha (col_name c) ty Hty) as (v & Hv & Hvt).
    exists v. simpl. by rewrite Hkey, Hv.
  - simpl. intros -> _. exists v. by destruct v.
Qed.

Lemma compare_direct_typed tables row c :
  typed tables c → plain_condition c = true →
  (∀ t, t ∈ tables → name t ∈ aliases c → cell_ok row t) →
  ∃ b, compare_direct row c = Ok b.
Proof.
  unfold plain_condition.
  intros (ty & Hl & Hr) [[Hpl Hpr]%andb_prop [cmp Hop]%bool_decide_eq_true]%andb_prop
    Hcell.
  unfold compare_direct. rewrite Hop.
  destruct (operand_labelled tables row _ _ Hpl Hl) as (v & -> & Hv).
  { intros t Hin Ha. apply Hcell; [done|]. by apply elem_of_union_l. }
  destruct (operand_labelled tables row _ _ Hpr Hr) as (w & -> & Hw).
  { intros t Hin Ha. apply Hcell; [done|]. by apply elem_of_union_r. }
  simpl. by apply (py_compare_same_type cmp v w ty).
Qed.

Lemma compare_direct_ext row row' c :
  operand row (cond_left c) = operand row' (cond_left c) →
  operand row (cond_right c) = operand row' (cond_right c) →
  compare_direct row c = compare_direct row' c.
Proof. unfold compare_direct. by intros -> ->. Qed.

Lemma plain_condition_op c :
  plain_condition c = true → is_Some (compare_op_of (cond_op c)).
Proof. unfold plain_condition. by intros [_ H%bool_decide_eq_true]%andb_prop. Qed.

Lemma filter_rows_pure conditions (f : Row → bool) rs :
  (∀ row, row ∈ rs → TableFilter_call conditions row = Ok (f row)) →
  filter_rows conditions rs = Ok (filter (λ row, f row = true) rs).
Proof.
  induction rs as [|r rs IH]; intros Hcall; [done|].
  simpl. rewrite (Hcall r) by (by left). simpl.
  rewrite IH by (intros; apply Hcall; by right). simpl.
  rewrite filter_cons. destruct (f r) eqn:Hf.
  - by rewrite decide_True.
  - by rewrite decide_False.
Qed.

Lemma tuple_ok_cons early t ts y tuple :
  tuple_ok early (t :: ts) (y :: tuple)
    = bucket_ok early t y && tuple_ok early ts tuple.
Proof. reflexivity. Qed.

Lemma filter_tuple_ok_cons early t ts y (tuples : list (list Row)) :
  filter (λ tuple, tuple_ok early (t :: ts) tuple = true) ((λ r, y :: r) <$> tuples)
  = if bucket_ok early t y
    then (λ r, y :: r) <$> filter (λ tuple, tuple_ok early ts tuple = true) tuples
    else [].
Proof.
  induction tuples as [|tuple tuples IH]; [by destruct (bucket_ok early t y)|].
  rewrite fmap_cons, !filter_cons, IH, tuple_ok_cons.
  by destruct (bucket_ok early t y), (tuple_ok early ts tuple).
Qed.

(** Filtering the pools before the nested loop is filtering its tuples. *)
Lemma nested_loop_filter early tables :
  nested_loop ((λ t, filter (λ row, bucket_ok early t row = true) (rows t)) <$> tables)
  = filter (λ tuple, tuple_ok early tables tuple = true)
           (nested_loop (rows <$> tables)).
Proof.
  induction tables as [|t ts IH]; [done|].
  rewrite !fmap_cons. cbn [nested_loop]. rewrite IH.
  induction (rows t) as [|y pool IHpool]; [done|].
  rewrite filter_cons, !bind_cons, filter_app, filter_tuple_ok_cons, <- IHpool.
  destruct (bucket_ok early t y).
  - rewrite decide_True by done. by rewrite bind_cons.
  - by rewrite decide_False.
Qed.

Lemma nested_loop_aligned tables tuple :
  tuple ∈ nested_loop (rows <$> tables) → aligned tables tuple.
Proof.
  revert tuple. induction tables as [|t ts IH]; simpl; intros tuple Hin.
  - apply list_elem_of_singleton in Hin as ->. constructor.
  - apply list_elem_of_bind in Hin as (y & Hin & Hy).
    apply list_elem_of_fmap in Hin as (rest & -> & Hrest).
    constructor; [done|]. by apply IH.
Qed.

Lemma join_loop_filter all_conditions late_conditions select
    (ok late_ok : list Row → bool) tuples :
  (∀ tuple, tuple ∈ tuples →
     TableFilter_call all_conditions (joined_row tuple)
       = Ok (ok tuple && late_ok tuple) ∧
     TableFilter_call late_conditions (joined_row tuple) = Ok (late_ok tuple)) →
  join_loop late_conditions select (filter (λ t, ok t = true) tuples)
  = join_loop all_conditions select tuples.
Proof.
  induction tuples as [|tuple rest IH]; intros Hcall; [done|].
  destruct (Hcall tuple) as [Hall Hlate]; [by left|].
  rewrite filter_cons. simpl. rewrite Hall.
  assert (Hrest : join_loop late_conditions select (filter (λ t, ok t = true) rest)
                  = join_loop all_conditions select rest).
  { apply IH. intros t Ht. apply Hcall. by right. }
  destruct (ok tuple) eqn:Hok; simpl.
  - by rewrite Hlate, Hrest.
  - by rewrite Hrest.
Qed.

Lemma forallb_elem {A} (f : A → bool) (l : list A) :
  forallb f l = true ↔ ∀ x, x ∈ l → f x = true.
Proof.
  rewrite forallb_forall. split; intros H x Hx; apply H; by apply list_elem_of_In.
Qed.

Lemma filter_all {A} (P : A → Prop) `{∀ x, Decision (P x)} (l : list A) :
  (∀ x, x ∈ l → P x) → filter P l = l.
Proof.
  induction l as [|x l IH]; intros HP; [done|].
  rewrite filter_cons, decide_True by (apply HP; by left).
  rewrite IH; [done|]. intros y Hy. apply HP. by right.
Qed.

Lemma tuple_ok_true early tables tuple :
  aligned tables tuple →
  tuple_ok early tables tuple = true ↔
  ∀ i t row, tables !! i = Some t → tuple !! i = Some row →
    bucket_ok early t row = true.
Proof.
  unfold aligned. intros Hal.
  induction Hal as [|row t tuple tables Hrow Hal IH]; simpl.
  - split; [|done]. by intros _ i t row.
  - rewrite andb_true_iff, IH. split.
    + intros [Hb Hrest] [|i] t' row'; simpl.
      * by intros [= <-] [= <-].
      * apply Hrest.
    + intros Hall. split; [by apply (Hall 0)|].
      intros i t' row'. apply (Hall (S i)).
Qed.

Section pushdown.

Context (tables : list Table) (early : gmap string (list Condition)).
Context (late annotated : list Condition).

Hypothesis names_distinct : NoDup (name <$> tables).
Hypothesis tables_well_formed : Forall well_formed tables.
Hypothesis annotated_plain : Forall (λ c, plain_condition c = true) annotated.
Hypothesis annotated_typed : Forall (typed tables) annotated.
Hypothesis annotated_placed :
  ∀ c, c ∈ annotated → c ∈ late ∨ ∃ t, t ∈ tables ∧ c ∈ early !!! name t.
Hypothesis late_annotated : ∀ c, c ∈ late → c ∈ annotated.
Hypothesis early_annotated :
  ∀ a c, c ∈ early !!! a → c ∈ annotated ∧ aliases c ⊆ {[a]}.

Lemma annotated_facts c :
  c ∈ annotated →
  plain_condition c = true ∧ typed tables c ∧
  is_Some (compare_op_of (cond_op c)).
Proof.
  intros Hc. rewrite Forall_forall in annotated_plain, annotated_typed.
  split; [by apply annotated_plain|]. split; [by apply annotated_typed|].
  by apply plain_condition_op, annotated_plain.
Qed.

(** A condition of the bucket of [t] is defined on every row of [t]. *)
Lemma early_condition_row t row c :
  t ∈ tables → row ∈ rows t → c ∈ early !!! name t →
  ∃ b, compare_direct row c = Ok b.
Proof.
  intros Ht Hrow [Hc Hal]%early_annotated.
  destruct (annotated_facts c Hc) as (Hplain & Hty & _).
  apply (compare_direct_typed tables); [done..|].
  intros t' Ht' Ha. apply Hal, elem_of_singleton in Ha.
  rewrite (NoDup_name_inj tables t' t) by done.
  by eapply row_cell_ok.
Qed.

(** A condition of the WHERE list is defined on every joined row. *)
Lemma joined_condition tuple c :
  aligned tables tuple → c ∈ annotated →
  ∃ b, compare_direct (joined_row tuple) c = Ok b.
Proof.
  intros Hal Hc. destruct (annotated_facts c Hc) as (Hplain & Hty & _).
  apply (compare_direct_typed tables); [done..|].
  intros t Ht _. by apply (joined_row_cell_ok tables).
Qed.

Lemma call_conditions conditions row :
  (∀ c, c ∈ conditions → c ∈ annotated) →
  (∀ c, c ∈ conditions → ∃ b, compare_direct row c = Ok b) →
  TableFilter_call (TableFilter conditions) row
    = Ok (forallb (satisfied row) conditions).
Proof.
  intros Hsub Hok. rewrite TableFilter_call_plain.
  - by apply matches_direct_satisfied.
  - apply Forall_forall. intros c Hc. by apply annotated_facts, Hsub.
Qed.

Lemma bucket_call t row :
  t ∈ tables → row ∈ rows t →
  TableFilter_call (TableFilter (early !!! name t)) row = Ok (bucket_ok early t row).
Proof.
  intros Ht Hrow. apply call_conditions.
  - intros c Hc. by apply (early_annotated (name t)).
  - intros c Hc. by apply (early_condition_row t).
Qed.

(** The pools of the join are the rows that pass the bucket of their table. *)
Lemma tables_to_join_pure :
  tables_to_join early tables
    = Ok ((λ t, filter (λ row, bucket_ok early t row = true) (rows t)) <$> tables).
Proof.
  unfold tables_to_join.
  assert (Hsub : ∀ t, t ∈ tables → t ∈ tables) by done. revert Hsub.
  generalize tables at 1 3 4. intros ts.
  induction ts as [|t ts IH]; intros Hsub; [done|].
  rewrite fmap_cons. cbn [mapM].
  rewrite IH by (intros t' Ht'; apply Hsub; by right). clear IH.
  assert (Ht : t ∈ tables) by (apply Hsub; by left).
  destruct (early !! name t) as [conds|] eqn:Hlook.
  - rewrite (filter_rows_pure _ (bucket_ok early t)); [done|].
    intros row Hrow. rewrite <- (lookup_total_correct _ _ _ Hlook).
    by apply bucket_call.
  - simpl. rewrite filter_all; [done|].
    intros row _. unfold bucket_ok. by rewrite lookup_total_alt, Hlook.
Qed.

Lemma operand_agree tuple i t row e ty :
  aligned tables tuple → tables !! i = Some t → tuple !! i = Some row →
  labelled tables e ty → expression_aliases e ⊆ {[name t]} →
  operand row e = operand (joined_row tuple) e.
Proof.
  intros Hal Ht Hrow Hlab Hsub. destruct e as [c|v]; [|done].
  apply labelled_column_key in Hlab as (t' & Hin' & Htab & Hty & Hkey).
  assert (Hin : t ∈ tables) by (by eapply list_elem_of_lookup_2).
  assert (t' = t) as ->.
  { apply (NoDup_name_inj tables); [done..|].
    assert (Ha : name t' ∈ expression_aliases (Column c))
      by (simpl; rewrite Htab; by apply elem_of_singleton).
    by apply Hsub, elem_of_singleton in Ha. }
  pose proof (Forall2_lookup_lr _ _ _ _ _ _ Hal Hrow Ht) as Hrin.
  destruct (row_cell_ok tables t row tables_well_formed Hin Hrin _ _ Hty)
    as (v & Hv & _).
  simpl. rewrite Hkey, Hv.
  by rewrite (joined_row_cell tables tuple i t row _ v).
Qed.

(** A condition of an early bucket says the same on the row of its table
    and on the joined row. *)
Lemma early_agree tuple i t row c :
  aligned tables tuple → tables !! i = Some t → tuple !! i = Some row →
  c ∈ early !!! name t →
  satisfied row c = satisfied (joined_row tuple) c.
Proof.
  intros Hal Ht Hrow [Hc Hsub]%early_annotated.
  destruct (annotated_facts c Hc) as (_ & (ty & Hl & Hr) & _).
  unfold satisfied. rewrite (compare_direct_ext row (joined_row tuple)); [done|..].
  - eapply operand_agree; [done..|]. intros a Ha. apply Hsub. by apply elem_of_union_l.
  - eapply operand_agree; [done..|]. intros a Ha. apply Hsub. by apply elem_of_union_r.
Qed.

(** On a joined row, all the conditions hold exactly when every row passes
    its early bucket and the late conditions hold. *)
Lemma conditions_split tuple :
  aligned tables tuple →
  forallb (satisfied (joined_row tuple)) annotated
    = tuple_ok early tables tuple && forallb (satisfied (joined_row tuple)) late.
Proof.
  intros Hal. apply eq_true_iff_eq.
  rewrite andb_true_iff, (tuple_ok_true _ _ _ Hal), !forallb_elem. split.
  - intros Hall. split.
    + intros i t row Ht Hrow. apply forallb_elem. intros c Hc.
      rewrite (early_agree tuple i t row c) by done.
      by apply Hall, (early_annotated (name t)).
    + intros c Hc. by apply Hall, late_annotated.
  - intros [Hearly Hlate] c Hc.
    destruct (annotated_placed c Hc) as [Hl|(t & [i Ht]%list_elem_of_lookup & He)];
      [by apply Hlate|].
    destruct (Forall2_lookup_r _ _ _ _ _ Hal Ht) as (row & Hrow & _).
    rewrite <- (early_agree tuple i t row c) by done.
    specialize (Hearly i t row Ht Hrow). unfold bucket_ok in Hearly.
    rewrite forallb_elem in Hearly. by apply Hearly.
Qed.

(** Pushdown: filtering the tables and then the join with the late
    conditions is the join filtered with all the conditions. *)
Lemma pushdown_join select :
  match tables_to_join early tables with
  | Ok pools => join_loop (TableFilter late) select (product pools)
  | failure => stop failure
  end
  = join_loop (TableFilter annotated) select (product (rows <$> tables)).
Proof.
  rewrite tables_to_join_pure, !product_nested_loop, nested_loop_filter.
  apply (join_loop_filter _ _ _ _
           (λ tuple, forallb (satisfied (joined_row tuple)) late)).
  intros tuple Hal%nested_loop_aligned. split.
  - rewrite <- conditions_split by done. apply call_conditions; [done|].
    intros c Hc. by apply joined_condition.
  - apply call_conditions; [done|].
    intros c Hc. by apply joined_condition, late_annotated.
Qed.

(** No evaluation of a condition fails in the reference join. *)
Lemma join_calls_defined tuple :
  tuple ∈ nested_loop (rows <$> tables) →
  ∃ b, TableFilter_call (TableFilter annotated) (joined_row tuple) = Ok b.
Proof.
  intros Hal%nested_loop_aligned. eexists. apply call_conditions; [done|].
  intros c Hc. by apply joined_condition.
Qed.

End pushdown.

(** *** The projection of a validated SELECT list *)

Lemma select_item_Ok from_ tables field field' entry :
  select_item from_ tables field = Ok (field', entry) →
  ∃ t, t ∈ tables ∧ col_table (sel_column field') = Some (name t) ∧
       is_Some (headers t !! col_name (sel_column field')).
Proof.
  unfold select_item.
  destruct (truthy (col_table (sel_column field))) eqn:Htr; simpl.
  - rewrite Htr. destruct (col_table (sel_column field)) as [a|] eqn:Ha; [|done].
    simpl. case_bool_decide; [|done].
    destruct (filter _ tables) as [|table l] eqn:Hf; [done|].
    apply filter_head in Hf as [Hin Hname].
    destruct (headers table !! _) as [ty|] eqn:Hty; [|done].
    intros [= <- <-]. exists table. simpl. rewrite Hname. by eauto.
  - destruct (get_table_for_field _ tables) as [t| |] eqn:Hg; simpl; [|done..].
    destruct (get_table_for_field_Ok_elem _ _ _ Hg) as [Hin Hfield].
    destruct (negb (String.eqb (name t) "")).
    + case_bool_decide; [|done].
      destruct (filter _ tables) as [|table l] eqn:Hf; [done|].
      apply filter_head in Hf as [Hin' Hname].
      destruct (headers table !! _) as [ty|] eqn:Hty; [|done].
      intros [= <- <-]. exists table. simpl. rewrite Hname. by eauto.
    + intros [= <- <-]. exists t. by eauto.
Qed.

Lemma select_loop_Ok from_ tables fields : ∀ query_headers select,
  select_loop from_ tables fields = Ok (query_headers, select) →
  Forall (λ field, ∃ t, t ∈ tables ∧
            col_table (sel_column field) = Some (name t) ∧
            is_Some (headers t !! col_name (sel_column field))) select.
Proof.
  induction fields as [|f fs IH]; simpl; intros hs sel.
  - intros [= <- <-]. constructor.
  - destruct (select_item from_ tables f) as [[f' entry]| |] eqn:Hf; simpl; [|done..].
    destruct (select_loop from_ tables fs) as [[hs' sel']| |] eqn:Hl; simpl; [|done..].
    intros [= <- <-]. constructor; [by eapply select_item_Ok|by eapply IH].
Qed.

Lemma evaluate_select_defined (tables : list Table) row select :
  Forall (λ field, ∃ t, t ∈ tables ∧
            col_table (sel_column field) = Some (name t) ∧
            is_Some (headers t !! col_name (sel_column field))) select →
  (∀ t, t ∈ tables → cell_ok row t) →
  ∃ values, evaluate_select row select = Ok values.
Proof.
  intros Hsel Hcell.
  induction Hsel as [|f fs (t & Hin & Htab & [ty Hty]) _ [values IH]]; simpl.
  - by eexists.
  - unfold field_key. rewrite Htab. simpl.
    destruct (Hcell t Hin _ _ Hty) as (v & -> & _). simpl.
    rewrite IH. simpl. by eexists.
Qed.

Lemma join_loop_ends meets_criteria select tuples :
  (∀ tuple, tuple ∈ tuples →
     (∃ b, TableFilter_call meets_criteria (joined_row tuple) = Ok b) ∧
     (∃ values, evaluate_select (joined_row tuple) select = Ok values)) →
  (join_loop meets_criteria select tuples).2 = Ok tt.
Proof.
  induction tuples as [|tuple rest IH]; intros Hok; [done|].
  destruct (Hok tuple) as [[b Hb] [values Hv]]; [by left|].
  simpl. rewrite Hb. destruct b.
  - rewrite Hv. simpl. apply IH. intros t Ht. apply Hok. by right.
  - apply IH. intros t Ht. apply Hok. by right.
Qed.

(** X17. Pushdown on well-formed input: for tables as the loader builds
    them (rows keyed by alias.column with an [int] in every cell of an
    ["int"] column and a [str] in every cell of a ["str"] column, aliases
    distinct, plain and without a dot) and a query that passes validation
    and whose WHERE conditions are plain (literals that are integers or
    strings, among the rest), [execute] yields exactly what the query yields
    without pushdown, where every condition is evaluated on each row of the
    unfiltered cross product: the same header and the same data rows in the
    same order; and the run ends without an exception. *)
Theorem pushdown_equivalence query tables result_headers select early late :
  validate_and_coalesce_select query tables = Ok (result_headers, select) →
  parse_where_clause query tables = Ok (early, late) →
  NoDup (name <$> tables) →
  Forall well_formed tables →
  Forall (λ c, plain_condition c = true) (q_where query) →
  execute query tables = execute_late_only query tables ∧
  (execute query tables).2 = Ok tt.
Proof.
  intros Hsel Hparse Hnd Hwf Hplain.
  destruct (parse_where_clause_sorts _ _ _ _ Hparse)
    as (annotated & Hres & Hty & Hput & Hlate & Hearly).
  assert (Hplain' : Forall (λ c, plain_condition c = true) annotated).
  { clear -Hres Hplain Hwf. induction Hres as [|c c' cs cs' Hc _ IH]; [done|].
    apply Forall_cons in Hplain as [Hp Hps].
    constructor; [by eapply resolves_plain|by apply IH]. }
  assert (Hexec : execute query tables
            = yield (Header result_headers)
                (join_loop (TableFilter annotated) select
                           (product (rows <$> tables)))).
  { unfold execute. rewrite Hsel, Hparse. f_equal.
    by apply (pushdown_join tables early late annotated). }
  split.
  - rewrite Hexec. unfold execute_late_only.
    by rewrite Hsel, Hparse, (resolves_mapM _ _ _ Hres).
  - rewrite Hexec. simpl. rewrite product_nested_loop.
    apply join_loop_ends. intros tuple Hin. split.
    + by apply (join_calls_defined tables annotated).
    + apply (evaluate_select_defined tables).
      * by eapply select_loop_Ok.
      * intros t Ht. apply (joined_row_cell_ok tables); [done..| |done].
        by apply nested_loop_aligned.
Qed.

Lemma users_well_formed : well_formed users.
Proof.
  split.
  - reflexivity.
  - apply (bool_decide_unpack _). by vm_compute.
  - intros row k Hrow [v Hk].
    assert (Hl : (k, v) ∈ map_to_list row) by (by apply elem_of_map_to_list).
    clear Hk. simpl in Hrow.
    repeat (apply elem_of_cons in Hrow as [->|Hrow]); [..|by apply elem_of_nil in Hrow];
      vm_compute in Hl;
      repeat (apply elem_of_cons in Hl as [[= -> ->]|Hl]);
      try (by apply elem_of_nil in Hl);
      first [by exists "id" | by exists "name" | by exists "age"].
  - intros row c ty Hrow Hc.
    assert (Hl : (c, ty) ∈ map_to_list (headers users))
      by (by apply elem_of_map_to_list).
    clear Hc. simpl in Hrow. vm_compute in Hl.
    repeat (apply elem_of_cons in Hl as [[= -> ->]|Hl]);
      try (by apply elem_of_nil in Hl);
      repeat (apply elem_of_cons in Hrow as [->|Hrow]);
      try (by apply elem_of_nil in Hrow);
      by eexists.
Qed.

Lemma orders_well_formed : well_formed orders.
Proof.
  split.
  - reflexivity.
  - apply (bool_decide_unpack _). by vm_compute.
  - intros row k Hrow [v Hk].
    assert (Hl : (k, v) ∈ map_to_list row) by (by apply elem_of_map_to_list).
    clear Hk. simpl in Hrow.
    repeat (apply elem_of_cons in Hrow as [->|Hrow]); [..|by apply elem_of_nil in Hrow];
      vm_compute in Hl;
      repeat (apply elem_of_cons in Hl as [[= -> ->]|Hl]);
      try (by apply elem_of_nil in Hl);
      first [by exists "id" | by exists "user_id" | by exists "note"].
  - intros row c ty Hrow Hc.
    assert (Hl : (c, ty) ∈ map_to_list (headers orders))
      by (by apply elem_of_map_to_list).
    clear Hc. simpl in Hrow. vm_compute in Hl.
    repeat (apply elem_of_cons in Hl as [[= -> ->]|Hl]);
      try (by apply elem_of_nil in Hl);
      repeat (apply elem_of_cons in Hrow as [->|Hrow]);
      try (by apply elem_of_nil in Hrow);
      by eexists.
Qed.

Lemma pushdown_equivalence_witness :
  execute first_user_orders [users; orders]
    = execute_late_only first_user_orders [users; orders] ∧
  (execute first_user_orders [users; orders]).2 = Ok tt.
Proof.
  eapply (pushdown_equivalence first_user_orders [users; orders]).
  - reflexivity.
  - reflexivity.
  - apply (bool_decide_unpack _). by vm_compute.
  - constructor; [apply users_well_formed|].
    constructor; [apply orders_well_formed|]. constructor.
  - repeat constructor.
Defined.

(** C1 at the failing input: the string literal of [injected_lookup] holds
    a quote, which the text of the condition does not escape, so the text of
    a condition on table [u] reads a column of table [o]. The condition
    names one table and is classified early. With pushdown it is evaluated
    on the rows of [u] alone, where that column is missing: the run ends
    with [KeyError] after the header and produces no data row. Without
    pushdown it is evaluated on the joined rows and one data row is
    produced. *)
Theorem pushdown_quoted_literal :
  parse_where_clause injected_query [users; orders]
    = Ok ({[ "u" := [injected_lookup] ]}, []) ∧
  execute injected_query [users; orders]
    = ([Header [("name", "str")]], Raise (Builtin (KeyError "o.note"))) ∧
  execute_late_only injected_query [users; orders]
    = ([Header [("name", "str")]; DataRow [VStr "Al"]], Ok tt).
Proof. split; [|split]; vm_compute; reflexivity. Qed.

(** * Further properties *)

(** ** Loading a table *)

Lemma mapM_result_Ok {A B} (f : A → result B) (l : list A) (k : list B) :
  mapM f l = Ok k ↔ Forall2 (λ x y, f x = Ok y) l k.
Proof.
  revert k. induction l as [|x l IH]; intros k; simpl.
  - split; [intros [= <-]; constructor|by intros ->%Forall2_nil_inv_l].
  - split.
    + destruct (f x) as [y| |] eqn:Hx; simpl; [|done..].
      destruct (mapM f l) as [k'| |] eqn:Hl; simpl; [|done..].
      intros [= <-]. constructor; [done|]. by apply IH.
    + intros (y & k' & Hx & Hk & ->)%Forall2_cons_inv_l.
      rewrite Hx. simpl. apply IH in Hk. by rewrite Hk.
Qed.

Lemma DATA_TYPES_typed field_type convert field v :
  DATA_TYPES field_type = Some convert → convert field = Ok v →
  of_type v field_type.
Proof.
  unfold DATA_TYPES.
  destruct (String.eqb_spec field_type "int") as [->|_].
  { intros [= <-]. destruct field as [z|s|b|text]; simpl;
      [by intros [= <-]| |by intros [= <-]|done].
    destruct (int_of_text s); [by intros [= <-]|done]. }
  destruct (String.eqb_spec field_type "str") as [->|_]; [|done].
  intros [= <-]. by destruct field; intros [= <-].
Qed.

Lemma covers_empty name : covers name ∅ ∅.
Proof.
  split.
  - intros k. rewrite lookup_empty. split; [by intros [? ?]|].
    intros (c & _ & [? Hc]). by rewrite lookup_empty in Hc.
  - intros c ty Hc. by rewrite lookup_empty in Hc.
Qed.

(** One more cell, of the type of its column. *)
Lemma covers_insert name m row c ty v :
  covers name m row → of_type v ty →
  covers name (<[c := ty]> m) (<[name +:+ "." +:+ c := v]> row).
Proof.
  intros [Hkeys Hcells] Hty. split.
  - intros k. rewrite lookup_insert_is_Some, Hkeys. split.
    + intros [<-|[_ (c' & -> & Hc')]].
      * exists c. split; [done|]. rewrite lookup_insert_eq. by eexists.
      * exists c'. split; [done|]. rewrite lookup_insert_is_Some.
        destruct (decide (c = c')); [by left|by right].
    + intros (c' & -> & Hc'). apply lookup_insert_is_Some in Hc' as [->|[Hne Hc']].
      * by left.
      * right. split; [|by exists c'].
        intros Heq. apply Hne.
        by apply (inj (String.append name)), (inj (String.append ".")) in Heq.
  - intros c' ty' Hc'. destruct (decide (c = c')) as [<-|Hne].
    + rewrite lookup_insert_eq in Hc'. injection Hc' as <-.
      exists v. by rewrite lookup_insert_eq.
    + rewrite lookup_insert_ne in Hc' by done.
      destruct (Hcells c' ty' Hc') as (v' & Hv' & Hty').
      exists v'. split; [|done]. rewrite lookup_insert_ne; [done|].
      intros Heq. apply Hne.
      by apply (inj (String.append name)), (inj (String.append ".")) in Heq.
Qed.

(** A row that loads has no more cells than there are columns, and holds the
    cells of the columns it has a field for. *)
Lemma coalesce_row_covers name headers row : ∀ index acc m r,
  coalesce_row name headers index row acc = Ok r →
  covers name m acc → (index ≤ length headers)%nat →
  (length row + index ≤ length headers)%nat ∧
  covers name (foldl (λ m h, <[h.1 := h.2]> m) m
                     (take (length row) (drop index headers))) r.
Proof.
  induction row as [|field rest IH]; intros index acc m r; simpl.
  - intros [= <-] Hcov Hle. split; [lia|done].
  - destruct (headers !! index) as [[c ty]|] eqn:Hh; [|done].
    destruct (DATA_TYPES ty) as [convert|] eqn:Hconv; [|done].
    destruct (convert field) as [v| |] eqn:Hv; simpl; [|done..].
    intros Hrest Hcov Hle. apply lookup_lt_Some in Hh as Hlt.
    destruct (IH (S index) _ (<[c := ty]> m) r Hrest) as [Hlen Hcov'].
    { apply covers_insert; [done|]. by eapply DATA_TYPES_typed. }
    { lia. }
    split; [lia|]. by rewrite (drop_S _ _ _ Hh).
Qed.

Lemma headers_dict_keys (l : list (string * string)) c : ∀ m : gmap string string,
  is_Some (foldl (λ m h, <[h.1 := h.2]> m) m l !! c)
  ↔ is_Some (m !! c) ∨ c ∈ l.*1.
Proof.
  induction l as [|[c' ty] l IH]; intros m; simpl.
  - split; [by left|]. intros [?|Hin]; [done|]. by apply elem_of_nil in Hin.
  - rewrite IH, lookup_insert_is_Some, elem_of_cons. split.
    + intros [[->|[_ ?]]|?]; [right; by left|by left|right; by right].
    + intros [?|[->|?]]; [|left; by left|by right].
      left. destruct (decide (c' = c)); [by left|by right].
Qed.

Lemma elem_of_take_fst (l : list (string * string)) n c :
  c ∈ (take n l).*1 ↔ ∃ j ty, (j < n)%nat ∧ l !! j = Some (c, ty).
Proof.
  rewrite list_elem_of_fmap. split.
  - intros ([c' ty] & -> & [j Hj]%list_elem_of_lookup).
    apply lookup_take_Some in Hj as [Hj Hlt]. by exists j, ty.
  - intros (j & ty & Hlt & Hj). exists (c, ty). split; [done|].
    apply list_elem_of_lookup. exists j. by apply lookup_take_Some.
Qed.

Lemma Table_init_Ok document alias t :
  Table_init document alias = Ok t →
  name t = alias ∧
  headers t = headers_dict (doc_headers document) ∧
  Forall2 (λ raw row, coalesce_row alias (doc_headers document) 0 raw ∅ = Ok row)
          (doc_rows document) (rows t).
Proof.
  unfold Table_init. destruct (mapM _ (doc_rows document)) as [rs| |] eqn:Hrows;
    simpl; [|done..].
  intros [= <-]. simpl. by apply mapM_result_Ok in Hrows.
Qed.

(** X1. A table that loads keeps its alias and the last type given to each
    column name, and has one row per row of the file; no row of the file has
    more cells than there are columns, and a loaded row has exactly the
    keys alias.column of the columns it has a cell for: a short row lacks the
    keys of its missing columns. *)
Theorem loaded_rows_shape document alias t :
  Table_init document alias = Ok t →
  name t = alias ∧
  headers t = headers_dict (doc_headers document) ∧
  (∀ c, is_Some (headers t !! c) ↔ c ∈ (doc_headers document).*1) ∧
  Forall2 (λ raw row,
             (length raw ≤ length (doc_headers document))%nat ∧
             ∀ k, is_Some (row !! k) ↔
                  ∃ j c ty, (j < length raw)%nat ∧
                    doc_headers document !! j = Some (c, ty) ∧
                    k = alias +:+ "." +:+ c)
          (doc_rows document) (rows t).
Proof.
  intros (Hname & Hheaders & Hrows)%Table_init_Ok.
  split; [done|]. split; [done|]. split.
  { intros c. rewrite Hheaders. unfold headers_dict.
    rewrite headers_dict_keys, lookup_empty. split; [|by right].
    by intros [[? ?]|?]. }
  eapply Forall2_impl; [exact Hrows|]. intros raw row Hrow. simpl in Hrow.
  destruct (coalesce_row_covers _ _ _ _ _ ∅ _ Hrow (covers_empty alias))
    as [Hlen [Hkeys _]]; [lia|].
  split; [lia|]. intros k. rewrite Hkeys. rewrite drop_0. split.
  - intros (c & -> & Hc). apply headers_dict_keys in Hc as [[? Hc]|Hc];
      [by rewrite lookup_empty in Hc|].
    apply elem_of_take_fst in Hc as (j & ty & Hlt & Hj). by exists j, c, ty.
  - intros (j & c & ty & Hlt & Hj & ->). exists c. split; [done|].
    apply headers_dict_keys. right. apply elem_of_take_fst. by exists j, ty.
Qed.

Lemma loaded_rows_shape_witness :
  Table_init users_document "u" = Ok users ∧
  ∀ c, is_Some (headers users !! c) ↔ c ∈ ["id"; "name"; "age"].
Proof.
  split; [reflexivity|].
  destruct (loaded_rows_shape users_document "u" users eq_refl) as (_ & _ & H & _).
  exact H.
Defined.

(** X2. A table loaded from a file whose rows all have one cell per column,
    under an alias that is plain and has no dot, is well formed: every row
    has exactly the keys alias.column of the declared columns, and each cell
    is an [int] under a column declared ["int"] and a [str] under ["str"]. *)
Theorem loaded_table_well_formed document alias t :
  Table_init document alias = Ok t →
  Forall (λ raw, length raw = length (doc_headers document)) (doc_rows document) →
  plain_text double_quote alias = true →
  no_dot alias →
  well_formed t.
Proof.
  intros (Hname & Hheaders & Hrows)%Table_init_Ok Hrect Hplain Hdot.
  assert (Hcov : ∀ row, row ∈ rows t → covers alias (headers t) row).
  { intros row [i Hi]%list_elem_of_lookup.
    destruct (Forall2_lookup_r _ _ _ _ _ Hrows Hi) as (raw & Hraw & Hrow).
    rewrite Forall_forall in Hrect.
    specialize (Hrect raw (list_elem_of_lookup_2 _ _ _ Hraw)).
    destruct (coalesce_row_covers _ _ _ _ _ ∅ _ Hrow (covers_empty alias))
      as [_ Hcov]; [lia|].
    rewrite drop_0, Hrect, firstn_all in Hcov. by rewrite Hheaders. }
  split; rewrite ?Hname; [done|done| |].
  - intros row k Hrow Hk. by apply (Hcov row Hrow).
  - intros row c ty Hrow Hc. by apply (Hcov row Hrow).
Qed.

Lemma loaded_table_well_formed_witness : well_formed users.
Proof.
  apply (loaded_table_well_formed users_document "u" users).
  - reflexivity.
  - repeat constructor.
  - reflexivity.
  - apply (bool_decide_unpack _). by vm_compute.
Defined.

Lemma qualified_key_inj alias c c' :
  alias +:+ "." +:+ c = alias +:+ "." +:+ c' → c = c'.
Proof.
  intros Heq. by apply (inj (String.append alias)), (inj (String.append ".")) in Heq.
Qed.

(** The loop leaves alone the keys of the columns it does not reach. *)
Lemma coalesce_row_other alias headers row k : ∀ index acc r,
  coalesce_row alias headers index row acc = Ok r →
  (∀ j c ty, (j < length row)%nat → headers !! (index + j)%nat = Some (c, ty) →
     k ≠ alias +:+ "." +:+ c) →
  r !! k = acc !! k.
Proof.
  induction row as [|field rest IH]; intros index acc r; simpl.
  - by intros [= <-] _.
  - destruct (headers !! index) as [[c ty]|] eqn:Hh; [|done].
    destruct (DATA_TYPES ty) as [convert|]; [|done].
    destruct (convert field) as [v| |]; simpl; [|done..].
    intros Hrest Hother. rewrite (IH _ _ _ Hrest).
    + apply lookup_insert_ne. symmetry. apply (Hother 0%nat c ty); [lia|].
      by rewrite Nat.add_0_r.
    + intros j c' ty' Hj Hc'. apply (Hother (S j) c' ty'); [lia|].
      by rewrite <- Nat.add_succ_comm.
Qed.

Lemma coalesce_row_cell alias headers row :
  NoDup headers.*1 → ∀ index acc r,
  coalesce_row alias headers index row acc = Ok r →
  ∀ j c ty field,
    headers !! (index + j)%nat = Some (c, ty) → row !! j = Some field →
    ∃ convert v, DATA_TYPES ty = Some convert ∧ convert field = Ok v ∧
                 r !! (alias +:+ "." +:+ c) = Some v.
Proof.
  intros Hnd. induction row as [|field rest IH]; intros index acc r; simpl; [done|].
  destruct (headers !! index) as [[c0 ty0]|] eqn:Hh; [|done].
  destruct (DATA_TYPES ty0) as [convert|] eqn:Hconv; [|done].
  destruct (convert field) as [v| |] eqn:Hv; simpl; [|done..].
  intros Hrest [|j] c ty field' Hc Hfield; simpl in Hfield.
  - injection Hfield as <-. rewrite Nat.add_0_r, Hh in Hc. injection Hc as <- <-.
    exists convert, v. split; [done|]. split; [done|].
    rewrite (coalesce_row_other _ _ _ _ _ _ _ Hrest).
    + apply lookup_insert_eq.
    + intros j c' ty' _ Hc' Heq%qualified_key_inj. subst c'.
      assert (index = (S index + j)%nat); [|lia].
      apply (NoDup_lookup headers.*1 _ _ c0 Hnd);
        by rewrite list_lookup_fmap, ?Hh, ?Hc'.
  - apply (IH _ _ _ Hrest j); [|done]. by rewrite Nat.add_succ_comm.
Qed.

Lemma DATA_TYPES_same field_type convert field v :
  DATA_TYPES field_type = Some convert → convert field = Ok v →
  of_type field field_type → v = field.
Proof.
  unfold DATA_TYPES.
  destruct (String.eqb_spec field_type "int") as [->|_].
  { intros [= <-]. by destruct field; try done; intros [= <-]. }
  destruct (String.eqb_spec field_type "str") as [->|_]; [|done].
  intros [= <-]. by destruct field; try done; intros [= <-].
Qed.

(** X3. In a table loaded from a file with distinct column names, the cell
    of column [j] in row [i] is the field [j] of row [i] of the file,
    converted by the type of the column, and it is that field itself when
    the field already has the type of the column. *)
Theorem loaded_cells document alias t :
  Table_init document alias = Ok t →
  NoDup (doc_headers document).*1 →
  ∀ i raw j c ty field,
    doc_rows document !! i = Some raw →
    doc_headers document !! j = Some (c, ty) →
    raw !! j = Some field →
    ∃ row convert v,
      rows t !! i = Some row ∧
      DATA_TYPES ty = Some convert ∧ convert field = Ok v ∧
      row !! (alias +:+ "." +:+ c) = Some v ∧
      (of_type field ty → v = field).
Proof.
  intros (_ & _ & Hrows)%Table_init_Ok Hnd i raw j c ty field Hraw Hc Hfield.
  destruct (Forall2_lookup_l _ _ _ _ _ Hrows Hraw) as (row & Hrow & Hload).
  destruct (coalesce_row_cell _ _ _ Hnd _ _ _ Hload j c ty field Hc Hfield)
    as (convert & v & Hconv & Hv & Hcell).
  exists row, convert, v. repeat split; try done.
  by apply (DATA_TYPES_same ty convert).
Qed.

Lemma loaded_cells_witness :
  ∃ row, rows users !! 1%nat = Some row ∧ row !! "u.age" = Some (VInt 41).
Proof.
  destruct (loaded_cells users_document "u" users eq_refl) with
    (i := 1%nat) (raw := [VInt 2; VStr "ab"; VStr "41"]) (j := 2%nat)
    (c := "age") (ty := "int") (field := VStr "41")
    as (row & convert & v & Hrow & Hconv & Hv & Hcell & _); try reflexivity.
  - apply (bool_decide_unpack _). by vm_compute.
  - exists row. split; [done|].
    injection Hconv as <-. vm_compute in Hv. injection Hv as <-. exact Hcell.
Defined.

(** The fields that convert are passed; the loop goes on after them. *)
Lemma coalesce_row_prefix alias headers before : ∀ index acc,
  Forall2 (λ h field, ∃ convert v, DATA_TYPES h.2 = Some convert ∧
                                   convert field = Ok v)
          (take (length before) (drop index headers)) before →
  ∃ acc', ∀ rest,
    coalesce_row alias headers index (before ++ rest) acc
    = coalesce_row alias headers (index + length before) rest acc'.
Proof.
  induction before as [|field before IH]; intros index acc Hall.
  - exists acc. intros rest. simpl. by rewrite Nat.add_0_r.
  - simpl in Hall. destruct (drop index headers) as [|[c ty] tl] eqn:Hdrop;
      [by apply Forall2_nil_inv_l in Hall|].
    apply Forall2_cons in Hall as [(convert & v & Hconv & Hv) Hall].
    assert (Hh : headers !! index = Some (c, ty)).
    { rewrite <- (Nat.add_0_r index), <- lookup_drop, Hdrop. done. }
    assert (tl = drop (S index) headers) as ->.
    { rewrite (drop_S _ _ _ Hh) in Hdrop. by injection Hdrop. }
    destruct (IH (S index) (<[alias +:+ "." +:+ c := v]> acc) Hall) as [acc' Hacc'].
    exists acc'. intros rest. simpl in *. rewrite Hh, Hconv, Hv. simpl.
    rewrite Hacc'. f_equal. lia.
Qed.

Lemma mapM_result_Raise {A B} (f : A → result B) l1 x l2 e :
  Forall (λ y, ∃ r, f y = Ok r) l1 → f x = Raise e →
  mapM f (l1 ++ x :: l2) = Raise e.
Proof.
  intros Hall Hx. induction Hall as [|y l1 [r Hy] _ IH]; simpl.
  - by rewrite Hx.
  - by rewrite Hy, IH.
Qed.

(** X4. Loading stops at the first field that has no column or whose
    column has a type other than ["int"] and ["str"]: when the rows before
    load and the fields before convert, a field beyond the last column makes
    [Table.__init__] fail with [IndexError], and a field of a column of
    unknown type makes it fail with [KeyError] on that type. *)
Theorem load_failures document alias rows_before before field after rows_after :
  doc_rows document = rows_before ++ (before ++ field :: after) :: rows_after →
  Forall (λ raw, ∃ row, coalesce_row alias (doc_headers document) 0 raw ∅ = Ok row)
         rows_before →
  Forall2 (λ h f, ∃ convert v, DATA_TYPES h.2 = Some convert ∧ convert f = Ok v)
          (take (length before) (doc_headers document)) before →
  (length before = length (doc_headers document) →
     Table_init document alias = Raise (Builtin (IndexError "list"))) ∧
  (∀ c ty, doc_headers document !! length before = Some (c, ty) →
     DATA_TYPES ty = None →
     Table_init document alias = Raise (Builtin (KeyError ty))).
Proof.
  intros Hrows Hbefore Hfields.
  destruct (coalesce_row_prefix alias (doc_headers document) before 0 ∅)
    as [acc' Hacc']; [by rewrite drop_0|].
  unfold Table_init. rewrite Hrows. split.
  - intros Hlen. erewrite mapM_result_Raise; [done|done|].
    rewrite Hacc'. simpl. rewrite Hlen.
    by rewrite (lookup_ge_None_2 (doc_headers document)).
  - intros c ty Hh Hty. erewrite mapM_result_Raise; [done|done|].
    rewrite Hacc'. simpl. by rewrite Hh, Hty.
Qed.

Lemma load_failures_witness :
  Table_init (mkDocument [("id", "int"); ("name", "str")]
                         [[VInt 1; VStr "Al"]; [VInt 2; VStr "ab"; VInt 7]]) "u"
    = Raise (Builtin (IndexError "list")) ∧
  Table_init (mkDocument [("id", "int"); ("born", "date")]
                         [[VInt 1; VStr "1970"]]) "u"
    = Raise (Builtin (KeyError "date")).
Proof.
  split.
  - apply (load_failures
             (mkDocument [("id", "int"); ("name", "str")]
                         [[VInt 1; VStr "Al"]; [VInt 2; VStr "ab"; VInt 7]])
             "u" [[VInt 1; VStr "Al"]] [VInt 2; VStr "ab"] (VInt 7) [] []).
    + reflexivity.
    + repeat constructor. by eexists.
    + repeat constructor; by eexists _, _.
    + reflexivity.
  - apply (load_failures
             (mkDocument [("id", "int"); ("born", "date")] [[VInt 1; VStr "1970"]])
             "u" [] [VInt 1] (VStr "1970") [] []) with (c := "born").
    + reflexivity.
    + constructor.
    + repeat constructor; by eexists _, _.
    + reflexivity.
    + reflexivity.
Defined.

Lemma int_of_text_format_int z : int_of_text (format_int z) = Some z.
Proof.
  unfold format_int. destruct z as [|p|p]; [done| |].
  - destruct (pos_to_uint_normal p) as (Hnorm & Hnil & Hval). simpl.
    pose proof (number_of_digits_normal _ Hnorm) as Hnum. rewrite Hval in Hnum.
    destruct (Pos.to_uint p); [done|..]; exact Hnum.
  - destruct (pos_to_uint_normal p) as (Hnorm & Hnil & Hval). simpl.
    by rewrite (number_of_digits_normal _ Hnorm), Hval.
Qed.

(** X5. The two conversions of [DATA_TYPES] fit together: an integer
    written by the ["str"] conversion is read back by the ["int"]
    conversion, and a converted cell is kept as it is when it is converted
    again by the same type, so reloading what was loaded changes nothing. *)
Theorem conversions_round_trip :
  (∀ z, DATA_TYPES "str" = Some py_str ∧ DATA_TYPES "int" = Some py_int ∧
        py_str (VInt z) ≫= py_int = Ok (VInt z)) ∧
  (∀ field_type convert field v,
     DATA_TYPES field_type = Some convert → convert field = Ok v →
     convert v = Ok v).
Proof.
  split.
  - intros z. split; [done|]. split; [done|]. simpl.
    by rewrite int_of_text_format_int.
  - intros field_type convert field v Hconv Hv.
    pose proof (DATA_TYPES_typed _ _ _ _ Hconv Hv) as Hty.
    revert Hconv. unfold DATA_TYPES.
    destruct (String.eqb_spec field_type "int") as [->|_].
    { intros [= <-]. by destruct v. }
    destruct (String.eqb_spec field_type "str") as [->|_]; [|done].
    intros [= <-]. by destruct v.
Qed.

Lemma conversions_round_trip_witness :
  py_int (VInt (-41)) = Ok (VInt (-41)) ∧
  py_str (VInt (-41)) ≫= py_int = Ok (VInt (-41)).
Proof.
  destruct conversions_round_trip as [Hround Hsame]. split.
  - apply (Hsame "int" py_int (VStr "-41") (VInt (-41))); reflexivity.
  - apply (Hround (-41)%Z).
Defined.

(** ** The driver *)

Lemma load_tables_Ok store from_ tables :
  load_tables store from_ = Ok tables →
  Forall2 (λ item t, Table_init (store (from_source item)) (from_as item) = Ok t)
          from_ tables.
Proof. unfold load_tables. by intros ?%mapM_result_Ok. Qed.

Lemma load_tables_names store from_ tables :
  load_tables store from_ = Ok tables → name <$> tables = from_as <$> from_.
Proof.
  intros Hload%load_tables_Ok.
  induction Hload as [|item t from_ tables Ht _ IH]; [done|].
  rewrite !fmap_cons, IH. f_equal. by apply Table_init_Ok in Ht as (-> & _).
Qed.

(** X6. In the driver the tables carry the aliases of the FROM list, in
    FROM order, so every alias has its table; a failure of the SELECT or of
    the WHERE validation then always carries a message, and the driver ends
    with that message in the context of its clause. *)
Theorem driver_reports_validation store query tables :
  load_tables store (q_from query) = Ok tables →
  name <$> tables = from_as <$> q_from query ∧
  from_declared query tables ∧
  (∀ e, validate_and_coalesce_select query tables = Raise e →
     ∃ detail, args0 e = Some detail ∧
       main store query = Raise (Exception (SelectClauseMsg detail))) ∧
  (∀ checked e,
     validate_and_coalesce_select query tables = Ok checked →
     parse_where_clause query tables = Raise e →
     ∃ detail, args0 e = Some detail ∧
       main store query = Raise (Exception (WhereClauseMsg detail))).
Proof.
  intros Hload. pose proof (load_tables_names _ _ _ Hload) as Hnames.
  assert (Hfrom : from_declared query tables).
  { intros a Ha. rewrite <- Hnames in Ha.
    apply list_elem_of_fmap in Ha as (t & -> & Ht). by exists t. }
  split; [done|]. split; [done|]. split.
  - intros e He.
    destruct (select_loop_raises _ _ _ _ Hfrom He) as [detail Hd].
    exists detail. split; [done|].
    unfold main. rewrite Hload. simpl. unfold execute, reraise.
    by rewrite He, Hd.
  - intros [h sel] e Hs He.
    assert (is_Some (args0 e)) as [detail Hd].
    { revert He. unfold parse_where_clause.
      destruct (where_loop tables where_start (q_where query)) eqn:Hloop;
        simpl; [done| |done].
      intros [= <-]. by eapply where_loop_raises. }
    exists detail. split; [done|].
    unfold main. rewrite Hload. simpl. unfold execute, reraise.
    by rewrite Hs, He, Hd.
Qed.

Lemma driver_reports_validation_witness :
  main sample_store
       (mkQuery [mkSelectItem (mkColumnRef None "id") "id"] from_users_orders [])
    = Raise (Exception (SelectClauseMsg (AmbiguousMsg "id" ["u"; "o"]))).
Proof.
  destruct (driver_reports_validation sample_store
              (mkQuery [mkSelectItem (mkColumnRef None "id") "id"] from_users_orders [])
              [users; orders] eq_refl) as (_ & _ & Hsel & _).
  destruct (Hsel (Exception (AmbiguousMsg "id" ["u"; "o"])) eq_refl)
    as (detail & Hd & Hmain).
  injection Hd as <-. exact Hmain.
Defined.

(** ** Failures during the join *)

Lemma join_loop_app meets_criteria select before after :
  (join_loop meets_criteria select before).2 = Ok tt →
  join_loop meets_criteria select (before ++ after)
  = ((join_loop meets_criteria select before).1
       ++ (join_loop meets_criteria select after).1,
     (join_loop meets_criteria select after).2).
Proof.
  induction before as [|tuple before IH]; simpl.
  - intros _. by destruct (join_loop meets_criteria select after).
  - destruct (TableFilter_call meets_criteria (joined_row tuple)) as [[|]| |];
      simpl; [|done..].
    destruct (evaluate_select (joined_row tuple) select); simpl; [|done..].
    intros Hend. by rewrite (IH Hend).
Qed.

(** X7. The header and the data rows of the tuples already visited have
    been yielded when the late filter or the projection fails on a tuple:
    the generator ends there with that exception, and [list(cursor)] in the
    driver raises it, so no result is written. *)
Theorem failure_after_rows query tables result_headers select early late pools
    before tuple after e :
  validate_and_coalesce_select query tables = Ok (result_headers, select) →
  parse_where_clause query tables = Ok (early, late) →
  tables_to_join early tables = Ok pools →
  product pools = before ++ tuple :: after →
  (join_loop (TableFilter late) select before).2 = Ok tt →
  TableFilter_call (TableFilter late) (joined_row tuple) = Raise e ∨
  (TableFilter_call (TableFilter late) (joined_row tuple) = Ok true ∧
   evaluate_select (joined_row tuple) select = Raise e) →
  execute query tables
    = (Header result_headers :: (join_loop (TableFilter late) select before).1,
       Raise e) ∧
  list_of_run (execute query tables) = Raise e.
Proof.
  intros Hsel Hparse Hjoin Hprod Hend Hfail.
  assert (Hexec : execute query tables
            = (Header result_headers :: (join_loop (TableFilter late) select before).1,
               Raise e)).
  { unfold execute. rewrite Hsel, Hparse, Hjoin, Hprod, (join_loop_app _ _ _ _ Hend).
    unfold yield. simpl.
    destruct Hfail as [->|[-> ->]]; simpl; by rewrite app_nil_r. }
  split; [done|]. by rewrite Hexec.
Qed.

Lemma failure_after_rows_witness :
  Table_init short_document "u" = Ok short_users ∧
  execute names_of_users [short_users]
    = ([Header [("name", "str")]; DataRow [VStr "Al"]],
       Raise (Builtin (KeyError "u.name"))) ∧
  main (λ _, short_document) names_of_users = Raise (Builtin (KeyError "u.name")).
Proof.
  split; [reflexivity|].
  destruct (failure_after_rows names_of_users [short_users]
              [("name", "str")] (q_select names_of_users) ∅ []
              [rows short_users]
              [[<["u.id" := VInt 1]> (<["u.name" := VStr "Al"]> ∅)]]
              [<["u.id" := VInt 2]> ∅] [] (Builtin (KeyError "u.name")))
    as [Hexec Hlist]; try reflexivity.
  - right. split; reflexivity.
  - split; [by rewrite Hexec|].
    change (main (λ _, short_document) names_of_users)
      with (list_of_run (execute names_of_users [short_users])).
    exact Hlist.
Defined.

(** ** The driver on well-formed input *)

Lemma load_tables_well_formed store from_ tables :
  load_tables store from_ = Ok tables →
  Forall (λ item,
            plain_text double_quote (from_as item) = true ∧ no_dot (from_as item) ∧
            Forall (λ raw, length raw
                           = length (doc_headers (store (from_source item))))
                   (doc_rows (store (from_source item)))) from_ →
  Forall well_formed tables.
Proof.
  intros Hload%load_tables_Ok.
  induction Hload as [|item t from_ tables Ht _ IH]; [done|].
  intros [(Hplain & Hdot & Hrect) Hrest]%Forall_cons.
  constructor; [|by apply IH].
  apply Table_init_Ok in Ht as (Hname & Hheaders & Hrows).
  assert (Hcov : ∀ row, row ∈ rows t → covers (from_as item) (headers t) row).
  { intros row [i Hi]%list_elem_of_lookup.
    destruct (Forall2_lookup_r _ _ _ _ _ Hrows Hi) as (raw & Hraw & Hrow).
    rewrite Forall_forall in Hrect.
    specialize (Hrect raw (list_elem_of_lookup_2 _ _ _ Hraw)).
    destruct (coalesce_row_covers _ _ _ _ _ ∅ _ Hrow (covers_empty (from_as item)))
      as [_ Hcov]; [lia|].
    rewrite drop_0, Hrect, firstn_all in Hcov. by rewrite Hheaders. }
  split; rewrite ?Hname; [done|done| |].
  - intros row k Hrow Hk. by apply (Hcov row Hrow).
  - intros row c ty Hrow Hc. by apply (Hcov row Hrow).
Qed.

(** X8. The driver on well-formed input: the FROM aliases are distinct,
    plain and without a dot, every file has one cell per column in each row,
    and the WHERE conditions are plain, so that every literal is an integer
    or a string. When the tables load and the query validates, the driver
    returns normally: the header followed by data rows, and they are the
    rows that the query yields when every condition is evaluated on each row
    of the unfiltered cross product. *)
Theorem driver_pushdown store query tables result_headers select early late :
  load_tables store (q_from query) = Ok tables →
  validate_and_coalesce_select query tables = Ok (result_headers, select) →
  parse_where_clause query tables = Ok (early, late) →
  NoDup (from_as <$> q_from query) →
  Forall (λ item,
            plain_text double_quote (from_as item) = true ∧ no_dot (from_as item) ∧
            Forall (λ raw, length raw
                           = length (doc_headers (store (from_source item))))
                   (doc_rows (store (from_source item)))) (q_from query) →
  Forall (λ c, plain_condition c = true) (q_where query) →
  ∃ data,
    main store query = Ok (Header result_headers :: (DataRow <$> data)) ∧
    list_of_run (execute_late_only query tables)
      = Ok (Header result_headers :: (DataRow <$> data)).
Proof.
  intros Hload Hsel Hparse Hnd Hfiles Hplain.
  assert (Hnames : NoDup (name <$> tables))
    by (by rewrite (load_tables_names _ _ _ Hload)).
  pose proof (load_tables_well_formed _ _ _ Hload Hfiles) as Hwf.
  destruct (parse_where_clause_sorts _ _ _ _ Hparse)
    as (annotated & Hres & Hty & Hput & Hlate & Hearly).
  assert (Hplain' : Forall (λ c, plain_condition c = true) annotated).
  { clear -Hres Hplain Hwf. induction Hres as [|c c' cs cs' Hc _ IH]; [done|].
    apply Forall_cons in Hplain as [Hp Hps].
    constructor; [by eapply resolves_plain|by apply IH]. }
  set (loop := join_loop (TableFilter annotated) select (product (rows <$> tables))).
  assert (Hexec : execute query tables = yield (Header result_headers) loop).
  { unfold execute. rewrite Hsel, Hparse. f_equal.
    by apply (pushdown_join tables early late annotated). }
  assert (Hlate_only : execute_late_only query tables
                       = yield (Header result_headers) loop).
  { unfold execute_late_only.
    by rewrite Hsel, Hparse, (resolves_mapM _ _ _ Hres). }
  assert (Hend : loop.2 = Ok tt).
  { unfold loop. rewrite product_nested_loop.
    apply join_loop_ends. intros tuple Hin. split.
    - by apply (join_calls_defined tables annotated).
    - apply (evaluate_select_defined tables).
      + by eapply select_loop_Ok.
      + intros t Ht. apply (joined_row_cell_ok tables); [done..| |done].
        by apply nested_loop_aligned. }
  destruct (join_loop_order (TableFilter annotated) select (product (rows <$> tables)))
    as (kept & data & _ & Hdata & _).
  fold loop in Hdata. exists data.
  unfold main. rewrite Hload. simpl.
  rewrite Hexec, Hlate_only. unfold list_of_run, yield. simpl.
  by rewrite Hend, Hdata.
Qed.

Lemma driver_pushdown_witness :
  ∃ data,
    main sample_store scenario_one
      = Ok (Header [("name", "str"); ("id", "int")] :: (DataRow <$> data)).
Proof.
  destruct (driver_pushdown sample_store scenario_one [users; orders]
              [("name", "str"); ("id", "int")] (q_select scenario_one)
              ∅ [join_on_user]) as (data & Hmain & _).
  - reflexivity.
  - reflexivity.
  - reflexivity.
  - apply (bool_decide_unpack _). by vm_compute.
  - repeat (constructor; [split; [reflexivity|split;
      [apply (bool_decide_unpack _); by vm_compute|by repeat constructor]]|]).
    constructor.
  - by repeat constructor.
  - by exists data.
Defined.

(** ** Header and data rows *)

Lemma select_item_entry from_ tables field field' entry :
  Forall (λ t, name t ≠ "") tables →
  select_item from_ tables field = Ok (field', entry) →
  sel_as field' = sel_as field ∧
  ∃ t ty, t ∈ tables ∧ col_table (sel_column field') = Some (name t) ∧
          headers t !! col_name (sel_column field') = Some ty ∧
          entry = Some (sel_as field, ty).
Proof.
  intros Hnames. unfold select_item.
  destruct (truthy (col_table (sel_column field))) eqn:Htr; simpl.
  - rewrite Htr. destruct (col_table (sel_column field)) as [a|] eqn:Ha; [|done].
    simpl. case_bool_decide; [|done].
    destruct (filter _ tables) as [|table l] eqn:Hf; [done|].
    apply filter_head in Hf as [Hin Hname].
    destruct (headers table !! _) as [ty|] eqn:Hty; [|done].
    intros [= <- <-]. split; [done|]. exists table, ty. simpl. by rewrite Hname.
  - destruct (get_table_for_field _ tables) as [t| |] eqn:Hg; simpl; [|done..].
    destruct (get_table_for_field_Ok_elem _ _ _ Hg) as [Hin Hfield].
    rewrite Forall_forall in Hnames.
    assert (Hne : negb (String.eqb (name t) "") = true).
    { apply negb_true_iff, String.eqb_neq. by apply Hnames. }
    rewrite Hne. case_bool_decide; [|done].
    destruct (filter _ tables) as [|table l] eqn:Hf; [done|].
    apply filter_head in Hf as [Hin' Hname].
    destruct (headers table !! _) as [ty|] eqn:Hty; [|done].
    intros [= <- <-]. split; [done|]. exists table, ty. simpl. by rewrite Hname.
Qed.

Lemma select_loop_entries from_ tables fields :
  Forall (λ t, name t ≠ "") tables → ∀ query_headers select,
  select_loop from_ tables fields = Ok (query_headers, select) →
  query_headers.*1 = sel_as <$> fields ∧
  sel_as <$> select = sel_as <$> fields ∧
  Forall2 (λ field entry, ∃ t, t ∈ tables ∧
             col_table (sel_column field) = Some (name t) ∧
             headers t !! col_name (sel_column field) = Some entry.2)
          select query_headers.
Proof.
  intros Hnames. induction fields as [|f fs IH]; simpl; intros hs sel.
  - by intros [= <- <-].
  - destruct (select_item from_ tables f) as [[f' entry]| |] eqn:Hf; simpl; [|done..].
    destruct (select_loop from_ tables fs) as [[hs' sel']| |] eqn:Hl; simpl; [|done..].
    intros [= <- <-].
    destruct (select_item_entry _ _ _ _ _ Hnames Hf)
      as (Has & t & ty & Hin & Htable & Hty & ->).
    destruct (IH _ _ eq_refl) as (Hhs & Hsel & Hall).
    change (option_list (Some (sel_as f, ty)) ++ hs') with ((sel_as f, ty) :: hs').
    rewrite !fmap_cons, Hhs, Hsel, Has. do 2 (split; [done|]).
    constructor; [|done]. by exists t.
Qed.

Lemma nested_loop_elem {A} (pools : list (list A)) : ∀ tuple,
  tuple ∈ nested_loop pools → Forall2 (λ x pool, x ∈ pool) tuple pools.
Proof.
  induction pools as [|pool pools IH]; simpl; intros tuple.
  - intros ->%list_elem_of_singleton. constructor.
  - intros (y & Hin & Hy)%list_elem_of_bind.
    apply list_elem_of_fmap in Hin as (rest & -> & Hrest).
    constructor; [done|by apply IH].
Qed.

Lemma pools_aligned early tables pools tuple :
  tables_to_join early tables = Ok pools →
  tuple ∈ nested_loop pools → aligned tables tuple.
Proof.
  intros Hsub%tables_to_join_sublist Hin%nested_loop_elem. unfold aligned.
  revert tuple Hin. induction Hsub as [|t pool tables pools Hpool _ IH];
    intros tuple Hin; inversion Hin; subst; constructor.
  - by eapply elem_of_sublist.
  - by apply IH.
Qed.

(** X9. When no table has the empty alias, the header has one entry per
    SELECT item, named by the item's output name, in SELECT order. When in
    addition the aliases are distinct and the tables well formed, each data
    row yielded has one value per header entry, and the value at a position
    is an [int] where the header entry says ["int"] and a [str] where it says
    ["str"]. *)
Theorem rows_conform_to_header query tables result_headers select :
  validate_and_coalesce_select query tables = Ok (result_headers, select) →
  Forall (λ t, name t ≠ "") tables →
  result_headers.*1 = sel_as <$> q_select query ∧
  (NoDup (name <$> tables) →
   Forall well_formed tables →
   ∀ values, DataRow values ∈ (execute query tables).1 →
     Forall2 (λ entry v, of_type v entry.2) result_headers values).
Proof.
  intros Hsel Hnames.
  destruct (select_loop_entries _ _ _ Hnames _ _ Hsel) as (Hhs & _ & Hentries).
  split; [done|]. intros Hnd Hwf values. unfold execute. rewrite Hsel.
  destruct (parse_where_clause query tables) as [[early late]| |];
    [|by intros ?%elem_of_nil..].
  destruct (tables_to_join early tables) as [pools| |] eqn:Hjoin; simpl;
    [|intros [?|?%elem_of_nil]%elem_of_cons; done..].
  intros [?|Hin]%elem_of_cons; [done|].
  destruct (join_loop_order (TableFilter late) select (product pools))
    as (kept & data & Hkept & Hdata & Hall & _).
  rewrite Hdata in Hin. apply list_elem_of_fmap in Hin as (values' & [= <-] & Hin).
  apply list_elem_of_lookup in Hin as [i Hi].
  destruct (Forall2_lookup_r _ _ _ _ _ Hall Hi) as (tuple & Htuple & _ & Hvalues).
  assert (Haligned : aligned tables tuple).
  { apply (pools_aligned early tables pools); [done|].
    rewrite <- product_nested_loop. eapply elem_of_sublist; [|done].
    by eapply list_elem_of_lookup_2. }
  apply evaluate_select_order in Hvalues.
  clear -Hentries Hvalues Haligned Hnd Hwf.
  revert values Hvalues.
  induction Hentries as [|field entry select hs (t & Ht & Htable & Hty) _ IH];
    intros values Hvalues; inversion Hvalues as [|? v ? vs (key & Hkey & Hv)];
    subst; constructor; [|by apply IH].
  unfold field_key in Hkey. rewrite Htable in Hkey. injection Hkey as <-.
  destruct (joined_row_cell_ok tables tuple t Hnd Hwf Haligned Ht _ _ Hty)
    as (v' & Hv' & Hlit).
  rewrite Hv in Hv'. by injection Hv' as <-.
Qed.

Lemma rows_conform_to_header_witness :
  [("name", "str"); ("id", "int")].*1 = sel_as <$> q_select scenario_one ∧
  Forall2 (λ entry v, of_type v entry.2)
          [("name", "str"); ("id", "int")] [VStr "Al"; VInt 10].
Proof.
  destruct (rows_conform_to_header scenario_one [users; orders]
              [("name", "str"); ("id", "int")] (q_select scenario_one))
    as [Hnames Hrows].
  - reflexivity.
  - by repeat constructor.
  - split; [exact Hnames|]. apply Hrows.
    + apply (bool_decide_unpack _). by vm_compute.
    + constructor; [apply users_well_formed|].
      constructor; [apply orders_well_formed|constructor].
    + assert (Hexec : (execute scenario_one [users; orders]).1
                = [Header [("name", "str"); ("id", "int")];
                   DataRow [VStr "Al"; VInt 10]; DataRow [VStr "ab"; VInt 11]])
        by reflexivity.
      rewrite Hexec, !elem_of_cons. auto.
Defined.

(** ** Where the conditions go *)

Lemma bucket_contents_insert (early : gmap string (list Condition)) a c :
  bucket_contents (<[a := early !!! a ++ [c]]> early) ≡ₚ bucket_contents early ++ [c].
Proof.
  unfold bucket_contents. rewrite lookup_total_alt.
  destruct (early !! a) as [l|] eqn:Ha; simpl.
  - rewrite <- insert_delete_eq.
    rewrite map_to_list_insert by apply lookup_delete_eq.
    rewrite <- (map_to_list_delete early a l Ha). simpl.
    rewrite <- !app_assoc. apply Permutation_app_head, Permutation_app_comm.
  - rewrite map_to_list_insert by done. simpl. apply Permutation_cons_append.
Qed.

Lemma where_condition_partition tables ws condition ws' :
  where_condition tables ws condition = Ok ws' →
  ∃ c', resolves tables condition c' ∧
    late_clauses ws' ++ bucket_contents (early_clauses ws')
      ≡ₚ (late_clauses ws ++ bucket_contents (early_clauses ws)) ++ [c'] ∧
    (∃ l, late_clauses ws' = late_clauses ws ++ l ∧ l `sublist_of` [c']) ∧
    (∀ a, ∃ l, early_clauses ws' !!! a = early_clauses ws !!! a ++ l ∧
               l `sublist_of` [c']) ∧
    ((∀ a bucket, early_clauses ws !! a = Some bucket → bucket ≠ []) →
     ∀ a bucket, early_clauses ws' !! a = Some bucket → bucket ≠ []).
Proof.
  intros (st & c' & Hsides & _ & _ & Hcase)%where_condition_Ok.
  exists c'. split; [by eapply where_sides_table|].
  destruct Hcase as [(_ & -> & ->)|(_ & table & _ & -> & ->)].
  - split; [|split; [|split]].
    + rewrite <- !app_assoc. apply Permutation_app_head, Permutation_app_comm.
    + by exists [c'].
    + intros a. exists []. split; [by rewrite app_nil_r|apply sublist_nil_l].
    + done.
  - split; [|split; [|split]].
    + by rewrite bucket_contents_insert, app_assoc.
    + exists []. split; [by rewrite app_nil_r|apply sublist_nil_l].
    + intros a. destruct (decide (a = name table)) as [->|Hne].
      * exists [c']. by rewrite lookup_total_insert_eq.
      * exists []. rewrite lookup_total_insert_ne by done.
        split; [by rewrite app_nil_r|apply sublist_nil_l].
    + intros Hne a bucket. destruct (decide (a = name table)) as [->|Ha].
      * rewrite lookup_insert_eq. intros [= <-]. by destruct (_ !!! _).
      * rewrite lookup_insert_ne by done. apply Hne.
Qed.

Lemma where_loop_partition tables conditions : ∀ ws ws',
  where_loop tables ws conditions = Ok ws' →
  ∃ annotated, Forall2 (resolves tables) conditions annotated ∧
    late_clauses ws' ++ bucket_contents (early_clauses ws')
      ≡ₚ (late_clauses ws ++ bucket_contents (early_clauses ws)) ++ annotated ∧
    (∃ l, late_clauses ws' = late_clauses ws ++ l ∧ l `sublist_of` annotated) ∧
    (∀ a, ∃ l, early_clauses ws' !!! a = early_clauses ws !!! a ++ l ∧
               l `sublist_of` annotated) ∧
    ((∀ a bucket, early_clauses ws !! a = Some bucket → bucket ≠ []) →
     ∀ a bucket, early_clauses ws' !! a = Some bucket → bucket ≠ []).
Proof.
  induction conditions as [|c cs IH]; simpl; intros ws ws'.
  - intros [= <-]. exists []. split; [constructor|]. rewrite app_nil_r.
    split; [done|]. split; [|split; [|done]].
    + exists []. by rewrite app_nil_r.
    + intros a. exists []. by rewrite app_nil_r.
  - destruct (where_condition tables ws c) as [ws1| |] eqn:Hc; simpl; [|done..].
    intros Hloop.
    destruct (where_condition_partition _ _ _ _ Hc)
      as (c' & Hres & Hperm & (l1 & Hl1 & Hs1) & Hearly1 & Hne1).
    destruct (IH _ _ Hloop)
      as (annotated & Hall & Hperm' & (l2 & Hl2 & Hs2) & Hearly2 & Hne2).
    exists (c' :: annotated). split; [by constructor|].
    split; [|split; [|split]].
    + rewrite Hperm', Hperm, <- app_assoc. done.
    + exists (l1 ++ l2). rewrite Hl2, Hl1, <- app_assoc. split; [done|].
      by apply (sublist_app l1 [c'] l2 annotated).
    + intros a. destruct (Hearly1 a) as (e1 & He1 & Hse1).
      destruct (Hearly2 a) as (e2 & He2 & Hse2).
      exists (e1 ++ e2). rewrite He2, He1, <- app_assoc. split; [done|].
      by apply (sublist_app e1 [c'] e2 annotated).
    + intros Hne. by apply Hne2, Hne1.
Qed.

(** X10. The classification loses and duplicates nothing: the late list
    and the buckets together hold the annotated WHERE conditions, each as
    often as it occurs in the WHERE list. The late list and every bucket keep
    the order of the WHERE list, and no bucket is empty. *)
Theorem classification_partition query tables early late :
  parse_where_clause query tables = Ok (early, late) →
  ∃ annotated,
    Forall2 (resolves tables) (q_where query) annotated ∧
    late ++ bucket_contents early ≡ₚ annotated ∧
    late `sublist_of` annotated ∧
    (∀ a, (early !!! a) `sublist_of` annotated) ∧
    (∀ a bucket, early !! a = Some bucket → bucket ≠ []) ∧
    length late + length (bucket_contents early) = length (q_where query).
Proof.
  unfold parse_where_clause.
  destruct (where_loop tables where_start (q_where query)) as [ws| |] eqn:Hloop;
    simpl; [|done..].
  intros [= <- <-].
  destruct (where_loop_partition _ _ _ _ Hloop)
    as (annotated & Hall & Hperm & (l & Hl & Hsub) & Hearly & Hne).
  exists annotated. simpl in *. split; [done|].
  assert (Hperm' : late_clauses ws ++ bucket_contents (early_clauses ws) ≡ₚ annotated).
  { rewrite Hperm. unfold bucket_contents. by rewrite map_to_list_empty. }
  split; [done|]. split; [by rewrite Hl|].
  split; [|split].
  - intros a. destruct (Hearly a) as (e & He & Hse).
    rewrite He, lookup_total_empty. done.
  - apply Hne. intros a bucket. by rewrite lookup_empty.
  - rewrite <- length_app, Hperm'. symmetry. by eapply Forall2_length.
Qed.

Lemma classification_partition_witness :
  ∃ annotated,
    Forall2 (resolves [users; orders])
            [age_over_forty; join_on_user; id_is_one] annotated ∧
    [join_on_user] ++ bucket_contents {[ "u" := [age_over_forty; id_is_one] ]}
      ≡ₚ annotated.
Proof.
  destruct (classification_partition
              (mkQuery [] from_users_orders [age_over_forty; join_on_user; id_is_one])
              [users; orders] {[ "u" := [age_over_forty; id_is_one] ]} [join_on_user])
    as (annotated & Hall & Hperm & _).
  - reflexivity.
  - by exists annotated.
Defined.

(** ** The predicate of a filter *)

Lemma TableFilter_call_app conditions more row :
  TableFilter_call (conditions ++ more) row
  = match TableFilter_call conditions row with
    | Ok true => TableFilter_call more row
    | outcome => outcome
    end.
Proof.
  induction conditions as [|c cs IH]; simpl; [done|].
  destruct (eval c row) as [[|]| |]; simpl; done.
Qed.

(** X11. The predicate of a filter is a conjunction read from left to
    right that stops at the first condition that is false or fails: the
    conditions after it are not evaluated, so neither their failures nor
    texts outside the modelled fragment matter. It is true exactly when
    every condition is true, and false exactly when some condition is false
    and all the conditions before it are true. *)
Theorem call_stops_at_first conditions row :
  (∀ more, TableFilter_call (conditions ++ more) row
           = match TableFilter_call conditions row with
             | Ok true => TableFilter_call more row
             | outcome => outcome
             end) ∧
  (TableFilter_call conditions row = Ok true ↔
   Forall (λ c, eval c row = Ok true) conditions) ∧
  (TableFilter_call conditions row = Ok false ↔
   ∃ before c after, conditions = before ++ c :: after ∧
     Forall (λ c, eval c row = Ok true) before ∧ eval c row = Ok false).
Proof.
  split; [intros more; apply TableFilter_call_app|].
  induction conditions as [|c cs [IHt IHf]]; simpl.
  - split; [done|]. split; [done|].
    intros (before & c & after & Heq & _). by destruct before.
  - destruct (eval c row) as [[|]| |] eqn:Hc; simpl.
    + split.
      * rewrite IHt. split; [by constructor|]. by intros [_ ?]%Forall_cons.
      * rewrite IHf. split.
        -- intros (before & c' & after & -> & Hall & Hc').
           exists (c :: before), c', after. by repeat constructor.
        -- intros ([|c0 before] & c' & after & Heq & Hall & Hc');
             simpl in Heq; injection Heq as <- ->; [congruence|].
           apply Forall_cons in Hall as [_ Hall]. by exists before, c', after.
    + split.
      * split; [done|]. intros [? _]%Forall_cons. congruence.
      * split; [|done]. intros _. by exists [], c, cs.
    + split.
      * split; [done|]. intros [? _]%Forall_cons. congruence.
      * split; [done|].
        intros ([|c0 before] & c' & after & Heq & Hall & Hc');
          simpl in Heq; injection Heq as <- ->; [congruence|].
        apply Forall_cons in Hall as [? _]. congruence.
    + split.
      * split; [done|]. intros [? _]%Forall_cons. congruence.
      * split; [done|].
        intros ([|c0 before] & c' & after & Heq & Hall & Hc');
          simpl in Heq; injection Heq as <- ->; [congruence|].
        apply Forall_cons in Hall as [? _]. congruence.
Qed.

(** ** Table.filter *)

Lemma filter_rows_app conditions before after :
  filter_rows conditions (before ++ after)
  = kept ← filter_rows conditions before;
    more ← filter_rows conditions after;
    Ok (kept ++ more).
Proof.
  induction before as [|row before IH]; simpl.
  - by destruct (filter_rows conditions after).
  - destruct (TableFilter_call conditions row) as [b| |]; simpl; [|done..].
    rewrite IH. destruct (filter_rows conditions before); simpl; [|done..].
    destruct (filter_rows conditions after); simpl; [|done..].
    by destruct b.
Qed.

(** X12. [Table.filter], read to the end, returns normally exactly when
    the predicate has a truth value on every row, and then it returns the
    rows on which the predicate is true, in table order. When the predicate
    raises on a row and has a truth value on every row before it, the
    filter raises that exception, whatever the later rows are. *)
Theorem Table_filter_exact conditions rs :
  (∀ kept, filter_rows conditions rs = Ok kept ↔
     Forall (λ row, ∃ b, TableFilter_call conditions row = Ok b) rs ∧
     kept = filter (λ row, TableFilter_call conditions row = Ok true) rs) ∧
  (∀ before row after e,
     rs = before ++ row :: after →
     Forall (λ row, ∃ b, TableFilter_call conditions row = Ok b) before →
     TableFilter_call conditions row = Raise e →
     filter_rows conditions rs = Raise e).
Proof.
  split.
  - induction rs as [|row rs IH]; intros kept; simpl.
    + split; [by intros [= <-]|by intros [_ ->]].
    + rewrite filter_cons.
      destruct (TableFilter_call conditions row) as [b| |] eqn:Hrow; simpl.
      * destruct (filter_rows conditions rs) as [kept'| |] eqn:Hrest; simpl.
        -- destruct (proj1 (IH kept') eq_refl) as [Hall ->]. split.
           ++ intros [= <-]. split; [constructor; by eauto|].
              destruct b; [by rewrite decide_True|by rewrite decide_False].
           ++ intros [_ ->]. f_equal.
              destruct b; [by rewrite decide_True|by rewrite decide_False].
        -- split; [done|]. intros [[_ Hall]%Forall_cons _].
           by pose proof (proj2 (IH _) (conj Hall eq_refl)).
        -- split; [done|]. intros [[_ Hall]%Forall_cons _].
           by pose proof (proj2 (IH _) (conj Hall eq_refl)).
      * split; [done|]. intros [[[b Hb] _]%Forall_cons _]. congruence.
      * split; [done|]. intros [[[b Hb] _]%Forall_cons _]. congruence.
  - intros before row after e -> Hall Hrow. rewrite filter_rows_app.
    assert (∃ kept, filter_rows conditions before = Ok kept) as [kept ->].
    { clear -Hall. induction Hall as [|r before [b Hb] _ [kept IH]]; simpl;
        [by eexists|]. rewrite Hb, IH. simpl. by eexists. }
    simpl. by rewrite Hrow.
Qed.

Lemma Table_filter_exact_witness :
  filter_rows (TableFilter [age_over_forty]) (rows users)
  = Ok (filter (λ row, TableFilter_call (TableFilter [age_over_forty]) row = Ok true)
               (rows users)).
Proof.
  destruct (Table_filter_exact (TableFilter [age_over_forty]) (rows users))
    as [Hok _].
  apply Hok. split; [|done].
  repeat constructor; eexists; reflexivity.
Defined.

(** ** The size of the join *)

Lemma product_length {A} (pools : list (list A)) :
  length (product pools) = foldr (λ pool n, length pool * n)%nat 1%nat pools.
Proof.
  rewrite product_nested_loop.
  induction pools as [|pool pools IH]; [done|].
  by rewrite nested_loop_length, IH.
Qed.

(** X13. The join visits as many tuples as the product of the sizes of the
    filtered tables, each tuple holding one row per table, and yields at most
    one data row per tuple. When the early filter of some table keeps no
    row, the generator yields the header alone and ends normally: the late
    filter and the projection are never evaluated. *)
Theorem join_size query tables result_headers select early late pools :
  validate_and_coalesce_select query tables = Ok (result_headers, select) →
  parse_where_clause query tables = Ok (early, late) →
  tables_to_join early tables = Ok pools →
  length (product pools) = foldr (λ pool n, length pool * n)%nat 1%nat pools ∧
  Forall (λ tuple : list Row, length tuple = length tables) (product pools) ∧
  (length (execute query tables).1 ≤ 1 + length (product pools))%nat ∧
  ([] ∈ pools → execute query tables = ([Header result_headers], Ok tt)).
Proof.
  intros Hsel Hparse Hjoin. split; [apply product_length|].
  split; [|split].
  - apply Forall_forall. intros tuple Hin. rewrite product_nested_loop in Hin.
    apply nested_loop_elem, Forall2_length in Hin. rewrite Hin.
    apply tables_to_join_sublist in Hjoin. symmetry. by eapply Forall2_length.
  - unfold execute. rewrite Hsel, Hparse, Hjoin. simpl.
    destruct (join_loop_order (TableFilter late) select (product pools))
      as (kept & data & Hkept & -> & Hall & _).
    rewrite length_fmap, <- (Forall2_length _ _ _ Hall).
    apply sublist_length in Hkept. lia.
  - intros Hempty. unfold execute. rewrite Hsel, Hparse, Hjoin.
    assert (Hnone : product pools = []).
    { apply length_zero_iff_nil. rewrite product_length.
      clear -Hempty. induction pools as [|pool pools IH];
        [by apply elem_of_nil in Hempty|].
      apply elem_of_cons in Hempty as [<-|Hin]; simpl; [done|].
      rewrite (IH Hin). lia. }
    by rewrite Hnone.
Qed.

Lemma join_size_witness :
  execute (mkQuery [mkSelectItem (col "o" "id") "id"] from_users_orders
                   [mkCondition (Column (col "u" "age")) (Literal (VInt 99)) "="])
          [users; orders]
  = ([Header [("id", "int")]], Ok tt).
Proof.
  destruct (join_size
              (mkQuery [mkSelectItem (col "o" "id") "id"] from_users_orders
                       [mkCondition (Column (col "u" "age")) (Literal (VInt 99)) "="])
              [users; orders] [("id", "int")] [mkSelectItem (col "o" "id") "id"]
              {[ "u" := [mkCondition (Column (col "u" "age")) (Literal (VInt 99)) "="] ]}
              [] [[]; rows orders])
    as (_ & _ & _ & Hempty).
  - reflexivity.
  - reflexivity.
  - reflexivity.
  - apply Hempty. by left.
Defined.

(** ** The first failure of the validation *)

Lemma select_loop_first_failure from_ tables before field after e :
  Forall (λ f, ∃ item, select_item from_ tables f = Ok item) before →
  select_item from_ tables field = Raise e →
  select_loop from_ tables (before ++ field :: after) = Raise e.
Proof.
  intros Hbefore Hfield.
  induction Hbefore as [|f before [[f' entry] Hf] _ IH]; simpl.
  - by rewrite Hfield.
  - by rewrite Hf, IH.
Qed.

(** X14. The validation stops at the first SELECT item that fails, and,
    when the SELECT list is valid, at the first WHERE condition that fails:
    the items and conditions after it are not examined, and the generator
    raises the failure in the context of its clause before it yields
    anything, the header included. *)
Theorem first_failure_decides query tables :
  (∀ before field after e,
     q_select query = before ++ field :: after →
     Forall (λ f, ∃ item, select_item (q_from query) tables f = Ok item) before →
     select_item (q_from query) tables field = Raise e →
     execute query tables = ([], Raise (reraise SelectClauseMsg e))) ∧
  (∀ checked before condition after ws e,
     validate_and_coalesce_select query tables = Ok checked →
     q_where query = before ++ condition :: after →
     where_loop tables where_start before = Ok ws →
     where_condition tables ws condition = Raise e →
     execute query tables = ([], Raise (reraise WhereClauseMsg e))).
Proof.
  split.
  - intros before field after e Hq Hbefore Hfield. unfold execute.
    unfold validate_and_coalesce_select. rewrite Hq.
    by rewrite (select_loop_first_failure _ _ _ _ _ _ Hbefore Hfield).
  - intros [h sel] before condition after ws e Hsel Hq Hbefore Hcond.
    unfold execute. rewrite Hsel. unfold parse_where_clause.
    rewrite Hq, where_loop_app, Hbefore. simpl. by rewrite Hcond.
Qed.

Lemma first_failure_decides_witness :
  execute (mkQuery [mkSelectItem (col "u" "name") "name";
                    mkSelectItem (col "x" "id") "id";
                    mkSelectItem (col "u" "zip") "zip"]
                   from_users_orders [age_is_thirty])
          [users; orders]
  = ([], Raise (Exception (SelectClauseMsg (NotInFromMsg "x")))).
Proof.
  destruct (first_failure_decides
              (mkQuery [mkSelectItem (col "u" "name") "name";
                        mkSelectItem (col "x" "id") "id";
                        mkSelectItem (col "u" "zip") "zip"]
                       from_users_orders [age_is_thirty])
              [users; orders]) as [Hselect _].
  apply (Hselect [mkSelectItem (col "u" "name") "name"]
                 (mkSelectItem (col "x" "id") "id")
                 [mkSelectItem (col "u" "zip") "zip"]
                 (Exception (NotInFromMsg "x"))).
  - reflexivity.
  - constructor; [|constructor]. eexists. reflexivity.
  - reflexivity.
Defined.

(** ** The joined row *)

Lemma joined_row_snoc (tuple : list Row) (row : Row) :
  joined_row (tuple ++ [row]) = row ∪ joined_row tuple.
Proof. unfold joined_row. by rewrite foldl_app. Qed.

(** X15. The joined row has a key exactly when some row of the tuple has
    it, and the value under a key is that of the last row of the tuple that
    has the key: where two tables share an alias and a column name, the cell
    of the later table replaces that of the earlier one, without an error. *)
Theorem joined_row_last_wins (tuple : list Row) k :
  (joined_row tuple !! k = None ↔ Forall (λ row, row !! k = None) tuple) ∧
  (∀ before row after v,
     tuple = before ++ row :: after →
     row !! k = Some v →
     Forall (λ later : Row, later !! k = None) after →
     joined_row tuple !! k = Some v).
Proof.
  split.
  - induction tuple as [|row tuple IH] using rev_ind; [done|].
    rewrite joined_row_snoc, lookup_union_None, Forall_app, IH, Forall_singleton.
    tauto.
  - intros before row after v -> Hrow.
    induction after as [|later after IH] using rev_ind; intros Hafter.
    + rewrite joined_row_snoc. by apply lookup_union_Some_l.
    + apply Forall_app in Hafter as [Hafter Hlater].
      rewrite Forall_singleton in Hlater.
      rewrite app_comm_cons, app_assoc, joined_row_snoc.
      rewrite lookup_union_r by done. by apply IH.
Qed.

Lemma joined_row_last_wins_witness :
  joined_row (rows users ++ rows orders) !! "u.id" = Some (VInt 2).
Proof.
  destruct (joined_row_last_wins (rows users ++ rows orders) "u.id") as [_ Hlast].
  apply (Hlast [<["u.id" := VInt 1]> (<["u.name" := VStr "Al"]> (<["u.age" := VInt 30]> ∅))]
               (<["u.id" := VInt 2]> (<["u.name" := VStr "ab"]> (<["u.age" := VInt 41]> ∅)))
               (rows orders)).
  - reflexivity.
  - reflexivity.
  - by repeat constructor.
Defined.

(** ** No table *)

Lemma select_item_no_table from_ field :
  ∃ e, select_item from_ [] field = Raise e.
Proof.
  unfold select_item, get_table_for_field.
  destruct (truthy (col_table (sel_column field))) eqn:Htr; simpl.
  - rewrite Htr. case_bool_decide; by eexists.
  - by eexists.
Qed.

Lemma where_condition_no_table ws condition :
  ws_table ws = None → ∃ e, where_condition [] ws condition = Raise e.
Proof.
  intros Hws. unfold where_condition, where_sides, where_side, get_table_for_field.
  rewrite Hws.
  destruct (cond_left condition) as [l|l]; simpl.
  { destruct (truthy (col_table l)); simpl; by eexists. }
  destruct (cond_right condition) as [r|r]; simpl.
  { destruct (truthy (col_table r)); simpl; by eexists. }
  case_bool_decide; [by eexists|].
  rewrite bool_decide_false; [by eexists|].
  change (¬ (1 < size (∅ : gset string))%nat). rewrite size_empty. lia.
Qed.

(** X16. Without any table, a query with an empty SELECT list and no
    condition yields the empty header and one empty data row, for the one
    empty tuple of the empty product. Every other query fails in the
    validation and yields nothing; this includes a condition that compares
    two literals, which needs a table to be filed under. *)
Theorem no_table query :
  (q_select query = [] → q_where query = [] →
   execute query [] = ([Header []; DataRow []], Ok tt)) ∧
  (q_select query ≠ [] ∨ q_where query ≠ [] →
   ∃ e, execute query [] = ([], Raise e)).
Proof.
  split.
  - intros Hsel Hwhere. unfold execute, validate_and_coalesce_select,
      parse_where_clause. by rewrite Hsel, Hwhere.
  - intros Hsome. unfold execute, validate_and_coalesce_select.
    destruct (q_select query) as [|field fields] eqn:Hsel; simpl.
    + destruct Hsome as [?|Hwhere]; [done|]. unfold parse_where_clause.
      destruct (q_where query) as [|c cs]; [done|]. simpl.
      destruct (where_condition_no_table where_start c eq_refl) as [e ->].
      simpl. by eexists.
    + destruct (select_item_no_table (q_from query) field) as [e ->].
      simpl. by eexists.
Qed.

Lemma no_table_witness :
  ∃ e, execute (mkQuery [] [] [three_is_three]) [] = ([], Raise e).
Proof.
  destruct (no_table (mkQuery [] [] [three_is_three])) as [_ Hfail].
  apply Hfail. by right.
Defined.
